(** * obsidian-mcp: vault index, markdown validator and note operations

    A shallow embedding of [vault.py], [validation.py] and [operations.py],
    with the search by several tags of [mcp_server.py].

    Python [str] values are sequences of Unicode code points; they are
    modelled as lists of code points ([N]).  The file system is an ordered
    association list from paths to file contents, the order standing for the
    order in which a directory scan meets the files.  Stateful code runs in a
    small state-and-exception monad over the vault's world (files on disk and
    the cached index); a raised exception keeps the state reached so far, as
    in Python. *)

From Stdlib Require Import NArith ZArith Arith List Bool Lia String Ascii.
Import ListNotations.

Set Implicit Arguments.

(** ** Python strings *)

Definition char := N.
Definition str := list char.

Definition lit (s : string) : str :=
  List.map N_of_ascii (list_ascii_of_string s).

Definition NL : char := 10%N.
Definition HASH : char := 35%N.
Definition TICK : char := 96%N.
Definition LBR : char := 91%N.
Definition RBR : char := 93%N.
Definition PIPE : char := 124%N.
Definition SPACE : char := 32%N.
Definition DASH : char := 45%N.
Definition COLON : char := 58%N.
Definition DOT : char := 46%N.
Definition BOM : char := 65279%N.
Definition CR : char := 13%N.

Definition is_hash (c : char) : bool := N.eqb c HASH.
Definition is_tick (c : char) : bool := N.eqb c TICK.

(** [str.isspace] on one code point; the regex class [\s] on [str] patterns
    is the same set. *)
Definition is_space (c : char) : bool :=
  ((9 <=? c) && (c <=? 13) || (28 <=? c) && (c <=? 32)
   || (c =? 133) || (c =? 160) || (c =? 5760)
   || (8192 <=? c) && (c <=? 8202)
   || (c =? 8232) || (c =? 8233) || (c =? 8239) || (c =? 8287)
   || (c =? 12288))%N.

(** [_CYRILLIC_RE]: the code points U+0400 to U+04FF. *)
Definition is_cyrillic (c : char) : bool := ((1024 <=? c) && (c <=? 1279))%N.
Definition has_cyrillic (s : str) : bool := existsb is_cyrillic s.

Fixpoint str_eqb (a b : str) : bool :=
  match a, b with
  | [], [] => true
  | x :: a', y :: b' => N.eqb x y && str_eqb a' b'
  | _, _ => false
  end.

Fixpoint run_length (p : char -> bool) (s : str) : nat :=
  match s with
  | c :: s' => if p c then S (run_length p s') else 0
  | [] => 0
  end.

Fixpoint drop_while (p : char -> bool) (s : str) : str :=
  match s with
  | c :: s' => if p c then drop_while p s' else s
  | [] => []
  end.

Definition lstrip (s : str) : str := drop_while is_space s.
Definition rstrip (s : str) : str := rev (drop_while is_space (rev s)).
Definition strip (s : str) : str := rstrip (lstrip s).

(** [s.startswith(p)], returning the remainder on success. *)
Fixpoint strip_prefix (p s : str) : option str :=
  match p, s with
  | [], _ => Some s
  | x :: p', y :: s' => if N.eqb x y then strip_prefix p' s' else None
  | _ :: _, [] => None
  end.

Definition startswith (p s : str) : bool :=
  match strip_prefix p s with Some _ => true | None => false end.

Definition endswith (p s : str) : bool := startswith (rev p) (rev s).

(** [s.split("\n")]: always at least one piece. *)
Fixpoint split_nl (s : str) : list str :=
  match s with
  | [] => [[]]
  | c :: s' =>
      if N.eqb c NL then [] :: split_nl s'
      else match split_nl s' with
           | l :: ls => (c :: l) :: ls
           | [] => [[c]]
           end
  end.

(** ["\n".join(lines)] *)
Fixpoint join_nl (ls : list str) : str :=
  match ls with
  | [] => []
  | [l] => l
  | l :: ls' => l ++ NL :: join_nl ls'
  end.

(** [needle in s], [s.replace(old, new, 1)], [s.replace(old, new)] and
    [s.count(old)].  Hits do not overlap: after a hit the scan goes on
    behind it, so the scans that jump run on fuel (the length of the text
    plus one is enough). *)
Fixpoint contains (needle s : str) : bool :=
  startswith needle s ||
  match s with
  | [] => false
  | _ :: s' => contains needle s'
  end.

Fixpoint replace_first (old new s : str) : str :=
  match strip_prefix old s with
  | Some tl => new ++ tl
  | None => match s with
            | [] => []
            | c :: s' => c :: replace_first old new s'
            end
  end.

Fixpoint replace_all_fuel (fuel : nat) (old new s : str) : str :=
  match fuel with
  | 0 => s
  | S fuel' =>
      match old with
      | [] =>
          (* empty pattern: [new] goes before every character and at the end *)
          match s with
          | [] => new
          | c :: s' => new ++ c :: replace_all_fuel fuel' old new s'
          end
      | _ :: _ =>
          match strip_prefix old s with
          | Some tl => new ++ replace_all_fuel fuel' old new tl
          | None => match s with
                    | [] => []
                    | c :: s' => c :: replace_all_fuel fuel' old new s'
                    end
          end
      end
  end.

Definition replace_all (old new s : str) : str :=
  replace_all_fuel (S (List.length s)) old new s.

Fixpoint count_fuel (fuel : nat) (old s : str) : nat :=
  match fuel with
  | 0 => 0
  | S fuel' =>
      match old with
      | [] => match s with
              | [] => 1
              | _ :: s' => S (count_fuel fuel' old s')
              end
      | _ :: _ =>
          match strip_prefix old s with
          | Some tl => S (count_fuel fuel' old tl)
          | None => match s with
                    | [] => 0
                    | _ :: s' => count_fuel fuel' old s'
                    end
          end
      end
  end.

Definition count (old s : str) : nat := count_fuel (S (List.length s)) old s.

(** ** validation.py *)

Inductive rule := unclosed_code_block | table_blank_line | broken_link.

Definition rule_eqb (a b : rule) : bool :=
  match a, b with
  | unclosed_code_block, unclosed_code_block
  | table_blank_line, table_blank_line
  | broken_link, broken_link => true
  | _, _ => false
  end.

(** [ValidationWarning]; the message is a constant of the rule except for
    broken links, where it names the note. *)
Record ValidationWarning := mkWarning {
  line : nat;
  message : str;
  wrule : rule
}.

(** The exceptions the modelled code can raise.  [IndexError] is what
    [list.pop] raises on an empty list, [AssertionError] a failed [assert];
    [OSError] stands for the failures of the file primitives (a missing file
    on read or rename). *)
Inductive error :=
| InvalidNameError
| InvalidHeadingError
| BrokenLinkError
| NoteNotFoundError
| NoteAlreadyExistsError
| SectionNotFoundError
| TextNotFoundError
| ValueError
| IndexError
| AssertionError
| OSError.

Definition result (A : Type) := (error + A)%type.

(** [_FENCE_RE = ^(`{3,})], matched at the start of the unstripped line: the
    length of the backtick run when it is at least three. *)
Definition fence_match (l : str) : option nat :=
  let n := run_length is_tick l in
  if 3 <=? n then Some n else None.

(** [_HEADING_RE = ^(#+)\s+(.+)$] on one line (a piece of [split("\n")], so
    free of newlines): the length of the [#] run and group 2.  [\s+] is
    greedy and gives one character back when it would leave [.+] empty. *)
Definition heading_match (l : str) : option (nat * str) :=
  let k := run_length is_hash l in
  let rest := skipn k l in
  let w := run_length is_space rest in
  if (1 <=? k) && (1 <=? w) && (2 <=? List.length rest)
  then Some (k, skipn (Nat.min w (List.length rest - 1)) rest)
  else None.

(** [_TABLE_LINE_RE = ^\|.*\|$] *)
Definition table_line (l : str) : bool :=
  (2 <=? List.length l) && startswith [PIPE] l && endswith [PIPE] l.

Definition table_sep_char (c : char) : bool :=
  N.eqb c DASH || N.eqb c COLON || N.eqb c PIPE || N.eqb c SPACE.

(** [_TABLE_SEP_RE = ^\|[-:| ]+\|$] *)
Definition table_sep (l : str) : bool :=
  (3 <=? List.length l) && startswith [PIPE] l && endswith [PIPE] l
  && forallb table_sep_char l.

(** The loop state of [_parse_code_blocks]. *)
Record fence_state := mkFence {
  closed_ranges : list (nat * nat);
  stack : list (nat * nat);
  in_code_block : bool;
  current_fence_length : nat
}.

(** [stack.pop()]: the last element, [IndexError] on an empty list. *)
Definition pop {A : Type} (l : list A) : result (list A * A) :=
  match rev l with
  | [] => inl IndexError
  | x :: r => inr (rev r, x)
  end.

(** One iteration of the loop of [_parse_code_blocks]. *)
Definition fence_step (st : fence_state) (line_num : nat) (l : str)
  : result fence_state :=
  match fence_match l with
  | Some backtick_count =>
      if negb (in_code_block st) then
        inr (mkFence (closed_ranges st)
                     (stack st ++ [(line_num, backtick_count)])
                     true backtick_count)
      else if current_fence_length st <=? backtick_count then
        match pop (stack st) with
        | inl e => inl e
        | inr (stack', (start_line, _)) =>
            inr (mkFence (closed_ranges st ++ [(start_line, line_num)])
                         stack' false 0)
        end
      else inr st
  | None => inr st
  end.

Fixpoint fence_loop (st : fence_state) (line_num : nat) (lines : list str)
  : result fence_state :=
  match lines with
  | [] => inr st
  | l :: lines' =>
      match fence_step st line_num l with
      | inl e => inl e
      | inr st' => fence_loop st' (S line_num) lines'
      end
  end.

Definition _parse_code_blocks (lines : list str)
  : result (list (nat * nat) * list nat) :=
  match fence_loop (mkFence [] [] false 0) 1 lines with
  | inl e => inl e
  | inr st => inr (closed_ranges st, List.map fst (stack st))
  end.

Definition _is_inside_code_block (line_num : nat) (ranges : list (nat * nat))
  : bool :=
  existsb (fun r => (fst r <? line_num) && (line_num <? snd r)) ranges.

(** [_check_tables]: [i] runs over [range(len(lines) - 1)]; [prev] is
    [lines[i - 1]] when [i > 0]. *)
Fixpoint check_tables_loop (ranges : list (nat * nat)) (i : nat)
  (prev : option str) (lines : list str) : list ValidationWarning :=
  match lines with
  | l :: ((l' :: _) as lines') =>
      let line_num := S i in
      let here :=
        if _is_inside_code_block line_num ranges then []
        else if table_line l && table_sep l' then
          match prev with
          | None => []
          | Some prev_line =>
              match strip prev_line with
              | [] => []
              | _ :: _ =>
                  [mkWarning line_num
                     (lit "Table should have blank line before it")
                     table_blank_line]
              end
          end
        else []
      in here ++ check_tables_loop ranges (S i) (Some l) lines'
  | _ => []
  end.

Definition _check_tables (lines : list str) (ranges : list (nat * nat))
  : list ValidationWarning :=
  check_tables_loop ranges 0 None lines.

Definition validate (content : str) : result (list ValidationWarning) :=
  let lines := split_nl content in
  match _parse_code_blocks lines with
  | inl e => inl e
  | inr (code_block_ranges, unclosed) =>
      let warnings :=
        List.map (fun line_num =>
                    mkWarning line_num (lit "Unclosed fenced code block")
                              unclosed_code_block) unclosed in
      inr (warnings ++ _check_tables lines code_block_ranges)
  end.

(** The loop of [validate_headings]: the first heading outside the closed
    ranges whose text has a Cyrillic code point raises. *)
Fixpoint headings_loop (ranges : list (nat * nat)) (i : nat)
  (lines : list str) : result unit :=
  match lines with
  | [] => inr tt
  | l :: lines' =>
      let line_num := S i in
      if _is_inside_code_block line_num ranges
      then headings_loop ranges (S i) lines'
      else match heading_match l with
           | Some (_, heading_text) =>
               if has_cyrillic heading_text then inl InvalidHeadingError
               else headings_loop ranges (S i) lines'
           | None => headings_loop ranges (S i) lines'
           end
  end.

Definition validate_headings (content : str) : result unit :=
  let lines := split_nl content in
  match _parse_code_blocks lines with
  | inl e => inl e
  | inr (code_block_ranges, _) => headings_loop code_block_ranges 0 lines
  end.

(** ** operations.py: the markdown structural parser *)

Record Heading := mkHeading {
  level : nat;
  text : str
}.

(** The loop of [get_headings]: an independent fence scanner that only
    remembers whether it is inside a fence and the length of its opener. *)
Fixpoint headings_scan (in_cb : bool) (current_fence_len : nat)
  (lines : list str) : list Heading :=
  match lines with
  | [] => []
  | l :: lines' =>
      match fence_match l with
      | Some backticks =>
          if negb in_cb then headings_scan true backticks lines'
          else if current_fence_len <=? backticks
               then headings_scan false 0 lines'
               else headings_scan in_cb current_fence_len lines'
      | None =>
          if in_cb then headings_scan in_cb current_fence_len lines'
          else match heading_match l with
               | Some (k, g2) =>
                   mkHeading k (strip g2)
                   :: headings_scan in_cb current_fence_len lines'
               | None => headings_scan in_cb current_fence_len lines'
               end
      end
  end.

Definition headings_of_body (body : str) : list Heading :=
  headings_scan false 0 (split_nl body).

(** [re.compile(rf"^(#+)\s*{re.escape(sel)}\s*$").match(l)]: the length of
    group 1.  The search follows the regex engine: the longest [#] run
    first, then the longest whitespace run first. *)
Definition bare_heading_match (sel l : str) : option nat :=
  find (fun k =>
          let rest := skipn k l in
          existsb (fun j =>
                     match strip_prefix sel (skipn j rest) with
                     | Some tl => forallb is_space tl
                     | None => false
                     end)
                  (rev (seq 0 (S (run_length is_space rest)))))
       (rev (seq 1 (run_length is_hash l))).

(** [re.compile(rf"^#{{1,{found_level}}}\s").match(l)] *)
Definition section_end_match (found_level : nat) (l : str) : bool :=
  existsb (fun k =>
             (k <=? run_length is_hash l) &&
             match nth_error l k with
             | Some c => is_space c
             | None => false
             end)
          (rev (seq 1 found_level)).

(** First loop of [_find_section_bounds]: [search] is the test on the
    stripped line, giving the heading level on a hit. *)
Fixpoint find_start (search : str -> option nat) (i : nat) (lines : list str)
  : option (nat * nat) :=
  match lines with
  | [] => None
  | l :: lines' =>
      match search (strip l) with
      | Some found_level => Some (S i, found_level)
      | None => find_start search (S i) lines'
      end
  end.

(** Second loop: [rest] is [lines[i:]]. *)
Fixpoint find_end (found_level : nat) (i : nat) (rest : list str) : nat :=
  match rest with
  | [] => i
  | l :: rest' =>
      if section_end_match found_level l then i
      else find_end found_level (S i) rest'
  end.

Definition _find_section_bounds (lines : list str) (section : str)
  : result (nat * nat * nat) :=
  let section_stripped := strip section in
  let search :=
    if startswith [HASH] section_stripped then
      let heading_level :=
        List.length section_stripped
        - List.length (drop_while is_hash section_stripped) in
      fun line_stripped =>
        if str_eqb line_stripped section_stripped
        then Some heading_level else None
    else bare_heading_match section_stripped
  in
  match find_start search 0 lines with
  | None => inl SectionNotFoundError
  | Some (start, found_level) =>
      inr (start, find_end found_level start (skipn start lines), found_level)
  end.

(** The body edits of the section operations, before validation and
    serialization. *)
Definition read_section_body (body section : str) : result str :=
  let lines := split_nl body in
  match _find_section_bounds lines section with
  | inl e => inl e
  | inr (start, end_, _) =>
      inr (strip (join_nl (firstn (end_ - start) (skipn start lines))))
  end.

Definition update_section_body (body section content : str) : result str :=
  let lines := split_nl body in
  match _find_section_bounds lines section with
  | inl e => inl e
  | inr (start, end_, _) =>
      let heading_line := nth (start - 1) lines [] in
      inr (join_nl (firstn (start - 1) lines ++ [heading_line; content]
                    ++ skipn end_ lines))
  end.

Definition delete_section_body (body section : str) : result str :=
  let lines := split_nl body in
  match _find_section_bounds lines section with
  | inl e => inl e
  | inr (start, end_, _) =>
      inr (join_nl (firstn (start - 1) lines ++ skipn end_ lines))
  end.

Definition append_section_body (body section text_ : str) : result str :=
  let lines := split_nl body in
  match _find_section_bounds lines section with
  | inl e => inl e
  | inr (_, end_, _) =>
      inr (join_nl (firstn end_ lines ++ [text_] ++ skipn end_ lines))
  end.

(** ** Wikilinks *)

Definition link_name_char (c : char) : bool :=
  negb (N.eqb c RBR || N.eqb c PIPE || N.eqb c HASH).

(** A match of [_WIKILINK_RE = \[\[([^\]|#]+)\]\]] at the head of [s]:
    group 1 and the text after the match. *)
Definition wikilink_at (s : str) : option (str * str) :=
  match strip_prefix [LBR; LBR] s with
  | Some s' =>
      let n := run_length link_name_char s' in
      if 1 <=? n then
        match strip_prefix [RBR; RBR] (skipn n s') with
        | Some tl => Some (firstn n s', tl)
        | None => None
        end
      else None
  | None => None
  end.

(** [_WIKILINK_RE.findall]: leftmost matches, not overlapping. *)
Fixpoint findall_wikilinks (fuel : nat) (s : str) : list str :=
  match fuel with
  | 0 => []
  | S fuel' =>
      match wikilink_at s with
      | Some (target, tl) => target :: findall_wikilinks fuel' tl
      | None => match s with
                | [] => []
                | _ :: s' => findall_wikilinks fuel' s'
                end
      end
  end.

Definition _extract_wikilinks (body : str) : list str :=
  findall_wikilinks (List.length body) body.

Definition section_char (c : char) : bool :=
  negb (N.eqb c RBR || N.eqb c PIPE).

(** A match of
    [_WIKILINK_WITH_SECTION_RE = \[\[([^\]#|]+)(?:#([^\]|]+))?\]\]]
    at the head of [s]: group 1, group 2 when it took part, the rest. *)
Definition section_link_at (s : str) : option (str * option str * str) :=
  match strip_prefix [LBR; LBR] s with
  | Some s' =>
      let n := run_length link_name_char s' in
      if 1 <=? n then
        let after := skipn n s' in
        match after with
        | c :: sec =>
            if N.eqb c HASH then
              let m := run_length section_char sec in
              if 1 <=? m then
                match strip_prefix [RBR; RBR] (skipn m sec) with
                | Some tl => Some (firstn n s', Some (firstn m sec), tl)
                | None => None
                end
              else None
            else
              match strip_prefix [RBR; RBR] after with
              | Some tl => Some (firstn n s', None, tl)
              | None => None
              end
        | [] => None
        end
      else None
  | None => None
  end.

Fixpoint finditer_section_links (fuel : nat) (s : str)
  : list (str * option str) :=
  match fuel with
  | 0 => []
  | S fuel' =>
      match section_link_at s with
      | Some (n, sec, tl) => (n, sec) :: finditer_section_links fuel' tl
      | None => match s with
                | [] => []
                | _ :: s' => finditer_section_links fuel' s'
                end
      end
  end.

(** A match of [rf"\[\[{re.escape(old_name)}([|#][^\]]*?)?\]\]"] at the
    head of [s]: group 1 (empty when it did not take part) and the rest. *)
Definition rewrite_at (old_name s : str) : option (str * str) :=
  match strip_prefix ([LBR; LBR] ++ old_name) s with
  | Some tl =>
      match tl with
      | c :: tl' =>
          if N.eqb c PIPE || N.eqb c HASH then
            let n := run_length (fun x => negb (N.eqb x RBR)) tl' in
            match strip_prefix [RBR; RBR] (skipn n tl') with
            | Some r => Some (c :: firstn n tl', r)
            | None => None
            end
          else
            match strip_prefix [RBR; RBR] tl with
            | Some r => Some ([], r)
            | None => None
            end
      | [] => None
      end
  | None => None
  end.

(** [re.subn(pattern, rf"[[{new_name}\1]]", content)]: the new text and the
    number of substitutions.  The template is taken for a [new_name] free
    of backslashes, which [validate_name] ensures for a rename. *)
Fixpoint subn_links (fuel : nat) (old_name new_name s : str) : str * nat :=
  match fuel with
  | 0 => (s, 0)
  | S fuel' =>
      match rewrite_at old_name s with
      | Some (suffix, tl) =>
          let (out, n) := subn_links fuel' old_name new_name tl in
          ([LBR; LBR] ++ new_name ++ suffix ++ [RBR; RBR] ++ out, S n)
      | None =>
          match s with
          | [] => ([], 0)
          | c :: s' =>
              let (out, n) := subn_links fuel' old_name new_name s' in
              (c :: out, n)
          end
      end
  end.

(** ** vault.py: notes, the file system and the index *)

(** YAML-decoded values, as far as the code tells them apart. *)
#[local] Unset Elimination Schemes.
Inductive yaml :=
| YNull
| YBool (b : bool)
| YNum (z : Z)
| YStr (s : str)
| YList (l : list yaml)
| YMap (m : list (str * yaml)).
#[local] Set Elimination Schemes.

(** A path below the vault root: its segments, the file name last. *)
Definition Path := list str.

Fixpoint path_eqb (p q : Path) : bool :=
  match p, q with
  | [], [] => true
  | a :: p', b :: q' => str_eqb a b && path_eqb p' q'
  | _, _ => false
  end.

(** Python dictionaries keep insertion order; assigning to a key that is
    present keeps its place. *)
Section Dict.
Variables K V : Type.
Variable eqb : K -> K -> bool.

Fixpoint dict_get (k : K) (d : list (K * V)) : option V :=
  match d with
  | [] => None
  | (k', v) :: d' => if eqb k k' then Some v else dict_get k d'
  end.

Fixpoint dict_set (k : K) (v : V) (d : list (K * V)) : list (K * V) :=
  match d with
  | [] => [(k, v)]
  | (k', v') :: d' =>
      if eqb k k' then (k', v) :: d' else (k', v') :: dict_set k v d'
  end.

Fixpoint dict_del (k : K) (d : list (K * V)) : list (K * V) :=
  match d with
  | [] => []
  | (k', v') :: d' =>
      if eqb k k' then d' else (k', v') :: dict_del k d'
  end.

Definition dict_mem (k : K) (d : list (K * V)) : bool :=
  match dict_get k d with Some _ => true | None => false end.
End Dict.

Definition FM := list (str * yaml).

Record Note := mkNote {
  name : str;
  path : Path;
  frontmatter : FM;
  body : str;
  outgoing_links : list str;
  tags : list str
}.

(** The two maps of the index; the source assigns and clears them
    together. *)
Record Index := mkIndex {
  _notes : list (str * Note);
  _incoming_links : list (str * list str)
}.

(** The world of one vault handle: the files below [vault_path] with the
    text [read_text] gives for each, the cached index, and a count of the
    directory scans made so far (a ghost field, never read by the code). *)
Record Vault := mkVault {
  files : list (Path * str);
  index : option Index;
  scans : nat
}.

(** [incoming.setdefault(target, []).append(source)] *)
Fixpoint setdefault_append (target source : str)
  (d : list (str * list str)) : list (str * list str) :=
  match d with
  | [] => [(target, [source])]
  | (k, l) :: d' =>
      if str_eqb target k then (k, l ++ [source]) :: d'
      else (k, l) :: setdefault_append target source d'
  end.

Definition MD : str := lit ".md".

(** [Path.stem] of a file name that ends in [.md]. *)
Definition stem (p : Path) : str :=
  let f := last p [] in firstn (List.length f - 3) f.

Definition hidden (part : str) : bool := startswith [DOT] part.

(** [_scan_files]: the [*.md] files none of whose path segments starts with
    a dot, in scan order, each with the text read from it. *)
Definition _scan_files (fs : list (Path * str)) : list (Path * str) :=
  filter (fun e => endswith MD (last (fst e) []) && negb (existsb hidden (fst e)))
         fs.

(** The lazy group 1 of [_FRONTMATTER_RE]: the shortest text followed by a
    newline and three dashes, with what comes after the dashes. *)
Fixpoint find_close (s : str) : option (str * str) :=
  match strip_prefix (NL :: lit "---") s with
  | Some tl => Some ([], tl)
  | None =>
      match s with
      | [] => None
      | c :: s' =>
          match find_close s' with
          | Some (g, tl) => Some (c :: g, tl)
          | None => None
          end
      end
  end.

(** [_FRONTMATTER_RE.match(raw)]: the text opens with three dashes and a
    newline, group 1 is lazy, one newline after the closing dashes is
    dropped when it is there, and group 2 is all the rest ([re.DOTALL]). *)
Definition frontmatter_match (raw : str) : option (str * str) :=
  match strip_prefix (lit "---" ++ [NL]) raw with
  | Some s =>
      match find_close s with
      | Some (yaml_str, tl) =>
          Some (yaml_str,
                match tl with
                | c :: tl' => if N.eqb c NL then tl' else tl
                | [] => []
                end)
      | None => None
      end
  | None => None
  end.

(** [_build_index], second half: invert the outgoing links of the notes in
    the order of [notes.values()]. *)
Definition add_incoming (incoming : list (str * list str)) (note : Note)
  : list (str * list str) :=
  fold_left (fun inc target => setdefault_append target (name note) inc)
            (outgoing_links note) incoming.

Definition invert_links (notes : list (str * Note)) : list (str * list str) :=
  fold_left add_incoming (List.map snd notes) [].

(** ** The monad of the stateful code *)

Definition M (A : Type) := Vault -> result A * Vault.

Definition ret {A : Type} (a : A) : M A := fun v => (inr a, v).
Definition raise {A : Type} (e : error) : M A := fun v => (inl e, v).
Definition bind {A B : Type} (m : M A) (f : A -> M B) : M B :=
  fun v => match m v with
           | (inl e, v') => (inl e, v')
           | (inr a, v') => f a v'
           end.
Definition lift {A : Type} (r : result A) : M A := fun v => (r, v).

(** [try: m except NoteNotFoundError: ...] *)
Definition catch_not_found {A : Type} (m : M A) : M (option A) :=
  fun v => match m v with
           | (inl NoteNotFoundError, v') => (inr None, v')
           | (inl e, v') => (inl e, v')
           | (inr a, v') => (inr (Some a), v')
           end.

Notation "x <- m ;; k" := (bind m (fun x => k))
  (at level 61, m at next level, right associativity).
Notation "m ;;; k" := (bind m (fun _ => k))
  (at level 61, right associativity).

(** File primitives.  Directories are implicit in the paths, so
    [trash_dir.mkdir(exist_ok=True)] has nothing to do; [write_text] creates
    the file or replaces its text. *)
Definition read_text (p : Path) : M str :=
  fun v => match dict_get path_eqb p (files v) with
           | Some c => (inr c, v)
           | None => (inl OSError, v)
           end.

Definition write_text (p : Path) (content : str) : M unit :=
  fun v => (inr tt, mkVault (dict_set path_eqb p content (files v))
                            (index v) (scans v)).

Definition exists_ (p : Path) : M bool :=
  fun v => (inr (dict_mem path_eqb p (files v)), v).

(** [src.rename(dst)], replacing [dst] when it is there. *)
Definition rename_file (src dst : Path) : M unit :=
  fun v => match dict_get path_eqb src (files v) with
           | Some c =>
               (inr tt,
                mkVault (dict_set path_eqb dst c
                           (dict_del path_eqb src (files v)))
                        (index v) (scans v))
           | None => (inl OSError, v)
           end.

(** The blocking errors of the error taxonomy. *)
Definition blocking (e : error) : bool :=
  match e with
  | InvalidNameError | InvalidHeadingError | BrokenLinkError
  | NoteNotFoundError | SectionNotFoundError | TextNotFoundError
  | NoteAlreadyExistsError | ValueError => true
  | IndexError | AssertionError | OSError => false
  end.

(** The collaborators outside the repository: [yaml.safe_load] with the
    fallbacks of [_parse_note] ([or {}], and [{}] on [YAMLError]) for
    blocks that decode to a mapping; [yaml.dump] with the options of
    [_serialize_note]; [str()] on a decoded value; [str.lower]; and the
    code points of [TASKS_EMOJIS], none of which is special inside a
    character class. *)
Class Collaborators := {
  safe_load : str -> FM;
  dump : FM -> str;
  py_str : yaml -> str;
  lower : str -> str;
  TASKS_EMOJIS : str
}.

Section Engine.

Context `{Collaborators}.

Definition _extract_tags (fm : FM) : list str :=
  match dict_get str_eqb (lit "tags") fm with
  | Some (YStr s) => [s]
  | Some (YList l) => List.map py_str l
  | _ => []
  end.

Definition _parse_note (p : Path) (raw0 : str) : Note :=
  let raw := drop_while (N.eqb BOM) raw0 in
  let raw := replace_all [CR; NL] [NL] raw in
  let '(fm, bd) :=
    match frontmatter_match raw with
    | Some (yaml_str, b) => (safe_load yaml_str, b)
    | None => ([], raw)
    end in
  mkNote (stem p) p fm bd (_extract_wikilinks bd) (_extract_tags fm).

Definition build_notes (fs : list (Path * str)) : list (str * Note) :=
  fold_left (fun notes f =>
               let note := _parse_note (fst f) (snd f) in
               dict_set str_eqb (name note) note notes)
            (_scan_files fs) [].

Definition build_index (fs : list (Path * str)) : Index :=
  let notes := build_notes fs in
  mkIndex notes (invert_links notes).

(** *** Vault *)

Definition _build_index : M unit :=
  fun v => (inr tt, mkVault (files v) (Some (build_index (files v)))
                            (S (scans v))).

Definition _ensure_index : M unit :=
  fun v => match index v with
           | Some _ => (inr tt, v)
           | None => _build_index v
           end.

Definition refresh : M unit :=
  fun v => _build_index (mkVault (files v) None (scans v)).

(** Reading [self._notes] or [self._incoming_links] behind its
    [assert ... is not None]. *)
Definition the_index : M Index :=
  fun v => match index v with
           | Some idx => (inr idx, v)
           | None => (inl AssertionError, v)
           end.

Definition list_notes : M (list Note) :=
  _ensure_index ;;;
  idx <- the_index ;;
  ret (List.map snd (_notes idx)).

Definition get_note (nm : str) : M Note :=
  _ensure_index ;;;
  idx <- the_index ;;
  match dict_get str_eqb nm (_notes idx) with
  | Some note => ret note
  | None =>
      refresh ;;;
      idx' <- the_index ;;
      match dict_get str_eqb nm (_notes idx') with
      | Some note => ret note
      | None => raise NoteNotFoundError
      end
  end.

Definition resolve_path (nm : str) : M Path :=
  note <- get_note nm ;; ret (path note).

Definition get_incoming_links (nm : str) : M (list str) :=
  _ensure_index ;;;
  idx <- the_index ;;
  ret (match dict_get str_eqb nm (_incoming_links idx) with
       | Some l => l
       | None => []
       end).

Definition get_outgoing_links (nm : str) : M (list str) :=
  note <- get_note nm ;; ret (outgoing_links note).

(** *** Validator.validate_name *)

Definition allowed_name_char (c : char) : bool :=
  ((97 <=? c) && (c <=? 122) || (65 <=? c) && (c <=? 90)
   || (48 <=? c) && (c <=? 57)
   || (c =? SPACE) || (c =? 95) || (c =? 64) || (c =? DASH))%N
  || existsb (N.eqb c) TASKS_EMOJIS.

(** [_ALLOWED_NAME_RE.match]: one or more allowed characters up to the
    end, where [$] also accepts one final newline. *)
Definition allowed_name (nm : str) : bool :=
  let core := match rev nm with
              | c :: r => if N.eqb c NL then rev r else nm
              | [] => nm
              end in
  (1 <=? List.length core) && forallb allowed_name_char core.

Definition validate_name (nm : str) : result unit :=
  if has_cyrillic nm then inl InvalidNameError
  else if negb (allowed_name nm) then inl InvalidNameError
  else inr tt.

(** *** Operations *)

Inductive SearchMode := NAME | NAME_PARTIAL | CONTENT | TAG.
Inductive LinkDirection := OUTGOING | INCOMING | BOTH.

Record SearchResult := mkSearchResult { sr_name : str; sr_path : Path }.
Record RenameResult := mkRenameResult {
  old_name : str; new_name : str; rn_files_updated : list str }.
Record DeleteResult := mkDeleteResult {
  dl_name : str; trash_path : Path; dl_files_updated : list str }.
Record LinksResult := mkLinksResult {
  lk_name : str; outgoing : list str; incoming : list str }.
Record ReplaceResult := mkReplaceResult {
  rp_name : str; replacements : nat }.
Record InsertResult := mkInsertResult {
  in_name : str; position : str; pattern : str }.
Record BrokenLink := mkBrokenLink { source : str; target : str }.
Record CreateResult := mkCreateResult {
  cr_path : Path; cr_warnings : list ValidationWarning }.
Record WriteResult := mkWriteResult { warnings : list ValidationWarning }.

Definition get_headings (nm : str) : M (list Heading) :=
  note <- get_note nm ;; ret (headings_of_body (body note)).

(** The loop of [_validate_wikilinks] over the matches of
    [_WIKILINK_WITH_SECTION_RE.finditer(content)]. *)
Fixpoint validate_links_loop (ms : list (str * option str))
  (acc : list ValidationWarning) : M (list ValidationWarning) :=
  match ms with
  | [] => ret acc
  | (g1, g2) :: ms' =>
      let note_name := strip g1 in
      let section := match g2 with Some s => strip s | None => [] end in
      found <- catch_not_found (get_note note_name) ;;
      match found with
      | None =>
          validate_links_loop ms'
            (acc ++ [mkWarning 0 (lit "Link to non-existent note: "
                                  ++ note_name) broken_link])
      | Some _ =>
          match section with
          | [] => validate_links_loop ms' acc
          | _ :: _ =>
              headings <- get_headings note_name ;;
              if existsb (str_eqb section) (List.map text headings)
              then validate_links_loop ms' acc
              else raise BrokenLinkError
          end
      end
  end.

Definition _validate_wikilinks (content : str)
  : M (list ValidationWarning) :=
  validate_links_loop
    (finditer_section_links (List.length content) content) [].

Definition _serialize_note (fm : FM) (bd : str) : str :=
  match fm with
  | [] => bd
  | _ :: _ => lit "---" ++ [NL] ++ dump fm ++ [NL] ++ lit "---" ++ [NL] ++ bd
  end.

Definition note_file (nm : str) : Path := [nm ++ MD].

Definition create (nm content : str) (fm : option FM) : M CreateResult :=
  lift (validate_name nm) ;;;
  lift (validate_headings content) ;;;
  link_warnings <- _validate_wikilinks content ;;
  let p := note_file nm in
  there <- exists_ p ;;
  if there : bool then raise NoteAlreadyExistsError
  else
    let file_content :=
      _serialize_note (match fm with Some f => f | None => [] end) content in
    write_text p file_content ;;;
    refresh ;;;
    ws <- lift (validate file_content) ;;
    ret (mkCreateResult p (ws ++ link_warnings)).

Definition read (nm : str) : M str :=
  p <- resolve_path nm ;; read_text p.

Definition append (nm text_ : str) : M WriteResult :=
  p <- resolve_path nm ;;
  current <- read_text p ;;
  let new_content := current ++ [NL; NL] ++ text_ in
  lift (validate_headings new_content) ;;;
  link_warnings <- _validate_wikilinks new_content ;;
  write_text p new_content ;;;
  refresh ;;;
  ws <- lift (validate new_content) ;;
  ret (mkWriteResult (ws ++ link_warnings)).

(** The common tail of the operations that write a new body under the
    note's front matter after the blocking checks. *)
Definition checked_write (note : Note) (new_body : str) : M WriteResult :=
  let file_content := _serialize_note (frontmatter note) new_body in
  lift (validate_headings new_body) ;;;
  link_warnings <- _validate_wikilinks new_body ;;
  write_text (path note) file_content ;;;
  refresh ;;;
  ws <- lift (validate file_content) ;;
  ret (mkWriteResult (ws ++ link_warnings)).

Definition update (nm content : str) : M WriteResult :=
  note <- get_note nm ;;
  checked_write note content.

Definition _find_files_with_link (nm : str) : M (list str) :=
  get_incoming_links nm.

Definition _update_links_in_file (p : Path) (old_nm new_nm : str) : M bool :=
  content <- read_text p ;;
  let (new_content, cnt) :=
    subn_links (List.length content) old_nm new_nm content in
  match cnt with
  | 0 => ret false
  | S _ => write_text p new_content ;;; ret true
  end.

Fixpoint update_links_loop (refs : list str) (old_nm new_nm : str) : M unit :=
  match refs with
  | [] => ret tt
  | ref_name :: refs' =>
      ref_note <- get_note ref_name ;;
      _update_links_in_file (path ref_note) old_nm new_nm ;;;
      update_links_loop refs' old_nm new_nm
  end.

Definition TRASH : str := lit ".trash".

(** [delete]: the list is computed before anything is changed; the rewrite
    loop, the move to the trash and the refresh run only when [dry_run] is
    off. *)
Definition delete (nm : str) (dry_run : bool) : M DeleteResult :=
  note <- get_note nm ;;
  let trash := [TRASH; nm ++ MD] in
  files_updated <- _find_files_with_link nm ;;
  (if negb dry_run then
     update_links_loop files_updated nm (nm ++ lit " (deleted)") ;;;
     rename_file (path note) trash ;;;
     refresh
   else ret tt) ;;;
  ret (mkDeleteResult nm trash files_updated).

Definition rename (old_nm new_nm : str) (dry_run : bool) : M RenameResult :=
  lift (validate_name new_nm) ;;;
  old_note <- get_note old_nm ;;
  let new_path := note_file new_nm in
  there <- exists_ new_path ;;
  if there : bool then raise NoteAlreadyExistsError
  else
    files_updated <- _find_files_with_link old_nm ;;
    (if negb dry_run then
       update_links_loop files_updated old_nm new_nm ;;;
       rename_file (path old_note) new_path ;;;
       refresh
     else ret tt) ;;;
    ret (mkRenameResult old_nm new_nm files_updated).

Definition frontmatter_get (nm : str) : M FM :=
  note <- get_note nm ;; ret (frontmatter note).

Definition frontmatter_set (nm key : str) (value : yaml) : M unit :=
  note <- get_note nm ;;
  let fm := dict_set str_eqb key value (frontmatter note) in
  write_text (path note) (_serialize_note fm (body note)) ;;;
  refresh.

Definition search_hit (query : str) (mode : SearchMode) (note : Note)
  : bool :=
  match mode with
  | NAME => str_eqb (name note) query
  | NAME_PARTIAL => contains (lower query) (lower (name note))
  | CONTENT => contains (lower query) (lower (body note))
  | TAG =>
      existsb (fun tag => str_eqb tag query
                          || startswith (query ++ lit "/") tag)
              (tags note)
  end.

Definition search (query : str) (mode : SearchMode) : M (list SearchResult) :=
  notes <- list_notes ;;
  ret (List.map (fun note => mkSearchResult (name note) (path note))
                (filter (search_hit query mode) notes)).

Definition links (nm : str) (direction : LinkDirection) : M LinksResult :=
  get_note nm ;;;
  out <- match direction with
         | OUTGOING | BOTH => get_outgoing_links nm
         | INCOMING => ret []
         end ;;
  inc <- match direction with
         | INCOMING | BOTH => get_incoming_links nm
         | OUTGOING => ret []
         end ;;
  ret (mkLinksResult nm out inc).

(** The loops of [find_broken_links]. *)
Fixpoint broken_loop (existing : list str) (notes : list Note)
  : M (list BrokenLink) :=
  match notes with
  | [] => ret []
  | note :: notes' =>
      targets <- get_outgoing_links (name note) ;;
      let here :=
        List.map (mkBrokenLink (name note))
                 (filter (fun t => negb (existsb (str_eqb t) existing))
                         targets) in
      rest <- broken_loop existing notes' ;;
      ret (here ++ rest)
  end.

Definition find_broken_links : M (list BrokenLink) :=
  ns <- list_notes ;;
  let existing := List.map name ns in
  ns' <- list_notes ;;
  broken_loop existing ns'.

Fixpoint batch_rename (renames : list (str * str)) (dry_run : bool)
  : M (list RenameResult) :=
  match renames with
  | [] => ret []
  | (old_nm, new_nm) :: renames' =>
      r <- rename old_nm new_nm dry_run ;;
      rs <- batch_rename renames' dry_run ;;
      ret (r :: rs)
  end.

Fixpoint batch_delete (names : list str) (dry_run : bool)
  : M (list DeleteResult) :=
  match names with
  | [] => ret []
  | nm :: names' =>
      r <- delete nm dry_run ;;
      rs <- batch_delete names' dry_run ;;
      ret (r :: rs)
  end.

Definition replace (nm old_text new_text : str) (replace_all_ : bool)
  : M ReplaceResult :=
  note <- get_note nm ;;
  let bd := body note in
  if negb (contains old_text bd) then raise TextNotFoundError
  else
    let '(n, new_body) :=
      if replace_all_
      then (count old_text bd, replace_all old_text new_text bd)
      else (1, replace_first old_text new_text bd) in
    write_text (path note) (_serialize_note (frontmatter note) new_body) ;;;
    refresh ;;;
    ret (mkReplaceResult nm n).

(** The index of the first line that is strip-equal to the pattern. *)
Fixpoint match_index (pat : str) (i : nat) (lines : list str) : option nat :=
  match lines with
  | [] => None
  | l :: lines' =>
      if str_eqb (strip l) (strip pat) then Some i
      else match_index pat (S i) lines'
  end.

(** [lines.insert(i, x)] for [i] within the list. *)
Definition list_insert (i : nat) (x : str) (lines : list str) : list str :=
  firstn i lines ++ x :: skipn i lines.

Definition insert (nm text_ : str) (before after : option str)
  : M InsertResult :=
  match before, after with
  | None, None | Some _, Some _ => raise ValueError
  | _, _ =>
      note <- get_note nm ;;
      let pat := match before with
                 | Some b => b
                 | None => match after with Some a => a | None => [] end
                 end in
      let lines := split_nl (body note) in
      match match_index pat 0 lines with
      | None => raise TextNotFoundError
      | Some i =>
          let '(lines', pos) :=
            match before with
            | Some _ => (list_insert i text_ lines, lit "before")
            | None => (list_insert (S i) text_ lines, lit "after")
            end in
          write_text (path note)
            (_serialize_note (frontmatter note) (join_nl lines')) ;;;
          refresh ;;;
          ret (mkInsertResult nm pos pat)
      end
  end.

Definition read_section (nm section : str) : M str :=
  note <- get_note nm ;;
  lift (read_section_body (body note) section).

Definition append_section (nm section text_ : str) : M WriteResult :=
  note <- get_note nm ;;
  new_body <- lift (append_section_body (body note) section text_) ;;
  checked_write note new_body.

Definition update_section (nm section content : str) : M WriteResult :=
  note <- get_note nm ;;
  new_body <- lift (update_section_body (body note) section content) ;;
  checked_write note new_body.

Definition delete_section (nm section : str) : M unit :=
  note <- get_note nm ;;
  new_body <- lift (delete_section_body (body note) section) ;;
  write_text (path note) (_serialize_note (frontmatter note) new_body) ;;;
  refresh.

(** *** Every public method of [Operations] as one call *)

Inductive call :=
| Create (nm content : str) (fm : option FM)
| Read (nm : str)
| Append (nm text_ : str)
| Update (nm content : str)
| Delete (nm : str) (dry_run : bool)
| Rename (old_nm new_nm : str) (dry_run : bool)
| FrontmatterGet (nm : str)
| FrontmatterSet (nm key : str) (value : yaml)
| Search (query : str) (mode : SearchMode)
| Links (nm : str) (direction : LinkDirection)
| FindBrokenLinks
| BatchRename (renames : list (str * str)) (dry_run : bool)
| BatchDelete (names : list str) (dry_run : bool)
| Replace (nm old_text new_text : str) (replace_all_ : bool)
| Insert (nm text_ : str) (before after : option str)
| ReadSection (nm section : str)
| AppendSection (nm section text_ : str)
| GetHeadings (nm : str)
| UpdateSection (nm section content : str)
| DeleteSection (nm section : str).

(** Running a call for its effect and its exception, the value dropped. *)
Definition void {A : Type} (m : M A) : M unit := m ;;; ret tt.

Definition run (c : call) : M unit :=
  match c with
  | Create nm content fm => void (create nm content fm)
  | Read nm => void (read nm)
  | Append nm t => void (append nm t)
  | Update nm content => void (update nm content)
  | Delete nm d => void (delete nm d)
  | Rename o n d => void (rename o n d)
  | FrontmatterGet nm => void (frontmatter_get nm)
  | FrontmatterSet nm k v => frontmatter_set nm k v
  | Search q m => void (search q m)
  | Links nm d => void (links nm d)
  | FindBrokenLinks => void find_broken_links
  | BatchRename rs d => void (batch_rename rs d)
  | BatchDelete ns d => void (batch_delete ns d)
  | Replace nm o n a => void (replace nm o n a)
  | Insert nm t b a => void (insert nm t b a)
  | ReadSection nm s => void (read_section nm s)
  | AppendSection nm s t => void (append_section nm s t)
  | GetHeadings nm => void (get_headings nm)
  | UpdateSection nm s c => void (update_section nm s c)
  | DeleteSection nm s => delete_section nm s
  end.


End Engine.

(** ** mcp_server.py: search by several tags *)





Section Server.

Context `{Collaborators}.


End Server.

(** A concrete choice of collaborators for closed examples: a YAML codec
    that knows only the empty mapping, ASCII lower-casing, and the code
    points of the Obsidian Tasks emojis. *)
Definition plain : Collaborators := {|
  safe_load := fun _ => [];
  dump := fun _ => [];
  py_str := fun _ => [];
  lower := List.map (fun c => if ((65 <=? c) && (c <=? 90))%N
                              then (c + 32)%N else c);
  TASKS_EMOJIS := [10133; 9203; 128747; 128197; 9989; 10060; 9196; 128317;
                   128316; 9195; 128314; 128257; 127937; 127380; 9940]%N
|}.

(** A second choice, for examples with a front matter: a YAML codec that
    knows only the mapping of the key "k" to null. *)
Definition one_key : Collaborators := {|
  safe_load := fun _ => [(lit "k", YNull)];
  dump := fun _ => lit "k: null";
  py_str := fun _ => [];
  lower := fun s => s;
  TASKS_EMOJIS := []
|}.

(** ** Notions used by the statements *)

Definition no_newline (l : str) : Prop := ~ In NL l.

Definition initial_fence : fence_state := mkFence [] [] false 0.

(** At most one fence is open, and the flag says whether one is. *)
Definition fence_inv (st : fence_state) : Prop :=
  (in_code_block st = false /\ stack st = [])
  \/ (in_code_block st = true
      /\ exists n, stack st = [(n, current_fence_length st)]).

Definition unclosed_warnings (ws : list ValidationWarning)
  : list ValidationWarning :=
  filter (fun w => rule_eqb (wrule w) unclosed_code_block) ws.

(** A line that is no fence line, and the length of a line's backtick run. *)
Definition fence_free (l : str) : Prop := fence_match l = None.
Definition ticks (l : str) : nat := run_length is_tick l.

(** A line that opens with a run of 1 to [L] hashes followed by a
    whitespace character. *)
Definition heading_upto (L : nat) (l : str) : Prop :=
  1 <= run_length is_hash l <= L
  /\ exists c, nth_error l (run_length is_hash l) = Some c
               /\ is_space c = true.

(** The content has a heading line with a Cyrillic code point that is not
    strictly inside a closed fence. *)
Definition cyrillic_heading_outside (content : str) : Prop :=
  exists ranges unclosed i l,
    _parse_code_blocks (split_nl content) = inr (ranges, unclosed)
    /\ nth_error (split_nl content) i = Some l
    /\ _is_inside_code_block (S i) ranges = false
    /\ heading_match l <> None
    /\ has_cyrillic l = true.

(** [self._incoming_links.get(name, [])] *)
Definition incoming_of (T : str) (inc : list (str * list str)) : list str :=
  match dict_get str_eqb T inc with
  | Some l => l
  | None => []
  end.

Definition str_eq_dec : forall a b : str, {a = b} + {a <> b} :=
  list_eq_dec N.eq_dec.

(** What inverting the links gives for a target: every note of the index,
    in order, as often as the target stands among its outgoing links. *)
Definition sources_of (T : str) (notes : list Note) : list str :=
  flat_map (fun n => repeat (name n)
                            (count_occ str_eq_dec (outgoing_links n) T))
           notes.

(** A dictionary of notes whose keys are distinct and are the names of
    its notes. *)
Definition keyed (d : list (str * Note)) : Prop :=
  NoDup (List.map fst d) /\ forall k n, In (k, n) d -> name n = k.

(** Every source the reverse map lists is a key of the note map. *)
Definition index_ok (idx : Index) : Prop :=
  keyed (_notes idx)
  /\ forall T, incoming_of T (_incoming_links idx)
               = sources_of T (List.map snd (_notes idx)).

Definition vault_ok (v : Vault) : Prop :=
  forall idx, index v = Some idx -> index_ok idx.

(** The vault after one directory scan and index build. *)
Definition rebuilt `{Collaborators} (v : Vault) : Vault :=
  mkVault (files v) (Some (build_index (files v))) (S (scans v)).

(** A computation that leaves the files alone and keeps the index sound. *)
Definition quiet {A : Type} (m : M A) : Prop :=
  forall v, files (snd (m v)) = files v
            /\ (vault_ok v -> vault_ok (snd (m v))).

(** A computation that raises no blocking error. *)
Definition never_blocks {A : Type} (m : M A) : Prop :=
  forall v e v', m v = (inl e, v') -> blocking e = false.


(** A computation that keeps the index sound. *)
Definition sound {A : Type} (m : M A) : Prop :=
  forall v, vault_ok v -> vault_ok (snd (m v)).




(** What one line gives [get_headings] when it is not skipped. *)
Definition heading_of (l : str) : list Heading :=
  match heading_match l with
  | Some (k, g) => [mkHeading k (strip g)]
  | None => []
  end.

(** Line [n] lies strictly inside a closed fence or behind the opening
    line of a fence that is never closed. *)
Definition fenced (n : nat) (ranges : list (nat * nat)) (unclosed : list nat)
  : bool :=
  _is_inside_code_block n ranges || existsb (fun u => u <? n) unclosed.

Fixpoint visible_headings (ranges : list (nat * nat)) (unclosed : list nat)
  (n : nat) (lines : list str) : list Heading :=
  match lines with
  | [] => []
  | l :: lines' =>
      (if fenced n ranges unclosed then [] else heading_of l)
      ++ visible_headings ranges unclosed (S n) lines'
  end.

(** The fence scanner before line [n]: at most one fence is open, every
    closed range ended before [n], an open fence started before [n]. *)
Definition scan_inv (st : fence_state) (n : nat) : Prop :=
  fence_inv st
  /\ (forall r, In r (closed_ranges st) -> snd r < n)
  /\ (forall x, In x (stack st) -> fst x < n).

(** The test [_find_section_bounds] applies to each stripped line: the
    level of the heading when the line matches the selector. *)
Definition section_search (section : str) : str -> option nat :=
  let section_stripped := strip section in
  if startswith [HASH] section_stripped then
    let heading_level :=
      List.length section_stripped
      - List.length (drop_while is_hash section_stripped) in
    fun line_stripped =>
      if str_eqb line_stripped section_stripped
      then Some heading_level else None
  else bare_heading_match section_stripped.

(** The lines of a section body: [lines[start:end]]. *)
Definition section_lines (lines : list str) (s e : nat) : list str :=
  firstn (e - s) (skipn s lines).

(** The cached index, when there is one, is the index of the files as
    they are now. *)
Definition coherent `{Collaborators} (v : Vault) : Prop :=
  forall idx, index v = Some idx -> idx = build_index (files v).

(** A computation whose successful runs keep the cache coherent, and one
    whose successful runs end with a coherent cache from any vault. *)
Definition keeps `{Collaborators} {A : Type} (m : M A) : Prop :=
  forall v a v', coherent v -> m v = (inr a, v') -> coherent v'.

Definition ends_fresh `{Collaborators} {A : Type} (m : M A) : Prop :=
  forall v a v', m v = (inr a, v') -> coherent v'.

(** The last scanned file with a given stem. *)
Definition last_with_stem (nm : str) (fs : list (Path * str))
  : option (Path * str) :=
  find (fun f => str_eqb nm (stem (fst f))) (rev (_scan_files fs)).

(** The test of [_scan_files] on one path. *)
Definition visible (p : Path) : bool :=
  endswith MD (last p []) && negb (existsb hidden p).

(** At most one scanned file has the stem [nm]. *)
Definition one_file (nm : str) (fs : list (Path * str)) : Prop :=
  forall e1 e2, In e1 (_scan_files fs) -> In e2 (_scan_files fs) ->
                stem (fst e1) = nm -> stem (fst e2) = nm -> fst e1 = fst e2.


(** A warning of [_validate_wikilinks]: rule "broken-link", line 0. *)
Definition link_warning (w : ValidationWarning) : Prop :=
  wrule w = broken_link /\ line w = 0.

(** The text of a plain wikilink to [t]. *)
Definition plain_link (t : str) : str := [LBR; LBR] ++ t ++ [RBR; RBR].

(** A front matter and a body whose serialized text [_parse_note] reads
    back as written: no carriage return plus newline in the text; with an
    empty front matter, a body that starts with neither a byte order mark
    nor a front matter block; otherwise a dump without a newline followed
    by three dashes. *)
Definition parses_back `{Collaborators} (fm : FM) (bd : str) : Prop :=
  contains [CR; NL] (_serialize_note fm bd) = false
  /\ (fm = [] -> startswith [BOM] bd = false /\ frontmatter_match bd = None)
  /\ (fm <> [] -> contains (NL :: lit "---") (dump fm) = false).


(** ** Python string facts *)

Lemma split_nl_nonempty (s : str) : split_nl s <> [].
Proof.
  destruct s as [|c s]; simpl; [discriminate|].
  destruct (N.eqb c NL); [discriminate|].
  destruct (split_nl s); discriminate.
Qed.

Lemma split_nl_cons_line (c : char) (l : str) (ls : list str) :
  c <> NL -> forall s, split_nl s = l :: ls ->
  split_nl (c :: s) = (c :: l) :: ls.
Proof.
  intros Hc s Hs. simpl. apply N.eqb_neq in Hc. rewrite Hc, Hs. reflexivity.
Qed.

Lemma split_nl_line_app (l : str) :
  no_newline l -> forall s, split_nl (l ++ NL :: s) = l :: split_nl s.
Proof.
  induction l as [|c l IH]; intros Hl s.
  - reflexivity.
  - assert (Hc : c <> NL) by (intro E; apply Hl; left; auto).
    assert (Hl' : no_newline l) by (intro E; apply Hl; right; auto).
    change ((c :: l) ++ NL :: s) with (c :: (l ++ NL :: s)).
    apply split_nl_cons_line; auto.
Qed.

Lemma split_nl_single (l : str) : no_newline l -> split_nl l = [l].
Proof.
  induction l as [|c l IH]; intros Hl.
  - reflexivity.
  - assert (Hc : c <> NL) by (intro E; apply Hl; left; auto).
    assert (Hl' : no_newline l) by (intro E; apply Hl; right; auto).
    apply split_nl_cons_line; auto.
Qed.

(** [split] undoes [join] on a non-empty list of newline-free lines. *)
Lemma split_join (lines : list str) :
  lines <> [] -> Forall no_newline lines ->
  split_nl (join_nl lines) = lines.
Proof.
  induction lines as [|l ls IH]; intros Hne Hall; [congruence|].
  inversion Hall as [|? ? Hl Hls]; subst.
  destruct ls as [|l' ls'].
  - simpl. apply split_nl_single; assumption.
  - change (join_nl (l :: l' :: ls')) with (l ++ NL :: join_nl (l' :: ls')).
    rewrite split_nl_line_app by assumption.
    rewrite IH; [reflexivity | discriminate | assumption].
Qed.

(** ** The fence scanner of the validator *)

Lemma pop_singleton (A : Type) (x : A) : pop [x] = inr ([], x).
Proof. reflexivity. Qed.

Lemma fence_step_inv (st : fence_state) (n : nat) (l : str) :
  fence_inv st ->
  exists st', fence_step st n l = inr st' /\ fence_inv st'.
Proof.
  intros Hinv. unfold fence_step.
  destruct (fence_match l) as [k|]; [|eauto].
  destruct Hinv as [[Hin Hst]|[Hin [m Hst]]]; rewrite Hin; simpl.
  - eexists; split; [reflexivity|]. right; simpl. rewrite Hst.
    split; [reflexivity | eexists; reflexivity].
  - destruct (current_fence_length st <=? k).
    + rewrite Hst, pop_singleton. eexists; split; [reflexivity|].
      left; simpl; auto.
    + eexists; split; [reflexivity|]. right; eauto.
Qed.

Lemma fence_loop_inv (lines : list str) :
  forall st n, fence_inv st ->
  exists st', fence_loop st n lines = inr st' /\ fence_inv st'.
Proof.
  induction lines as [|l ls IH]; intros st n Hinv; simpl.
  - eauto.
  - destruct (fence_step_inv n l Hinv) as [st1 [E1 H1]]. rewrite E1.
    apply IH; assumption.
Qed.

Lemma initial_fence_inv : fence_inv initial_fence.
Proof. left; split; reflexivity. Qed.

Lemma fence_inv_stack (st : fence_state) :
  fence_inv st -> List.length (stack st) <= 1.
Proof. intros [[_ E]|[_ [n E]]]; rewrite E; simpl; lia. Qed.

Lemma check_tables_rule (ranges : list (nat * nat)) (lines : list str) :
  forall i prev w,
  In w (check_tables_loop ranges i prev lines) -> wrule w = table_blank_line.
Proof.
  induction lines as [|l ls IH]; intros i prev w Hin; simpl in Hin;
    [destruct Hin|].
  destruct ls as [|l' ls']; [destruct Hin|].
  apply in_app_or in Hin. destruct Hin as [Hin|Hin]; [|eapply IH; eassumption].
  destruct (_is_inside_code_block (S i) ranges); [destruct Hin|].
  destruct (table_line l && table_sep l'); [|destruct Hin].
  destruct prev as [p|]; [|destruct Hin].
  destruct (strip p); [destruct Hin|].
  destruct Hin as [<-|[]]. reflexivity.
Qed.

Lemma unclosed_of_tables (ranges : list (nat * nat)) (lines : list str) :
  unclosed_warnings (_check_tables lines ranges) = [].
Proof.
  unfold unclosed_warnings, _check_tables.
  assert (Hr := @check_tables_rule ranges lines 0 None).
  induction (check_tables_loop ranges 0 None lines) as [|w ws IH]; simpl.
  - reflexivity.
  - rewrite (Hr w) by (left; reflexivity). simpl.
    apply IH. intros w' Hw'. apply Hr. right; assumption.
Qed.

Lemma unclosed_of_fences (unclosed : list nat) :
  unclosed_warnings
    (List.map (fun line_num =>
                 mkWarning line_num (lit "Unclosed fenced code block")
                           unclosed_code_block) unclosed)
  = List.map (fun line_num =>
                mkWarning line_num (lit "Unclosed fenced code block")
                          unclosed_code_block) unclosed.
Proof.
  unfold unclosed_warnings.
  induction unclosed as [|n ns IH]; simpl; [reflexivity|].
  rewrite IH. reflexivity.
Qed.

(** C10: [validate] never fails and reports at most one warning of rule
    [unclosed-code-block]: after every prefix of the lines the scanner of
    [_parse_code_blocks] holds at most one open fence on its stack, so the
    unclosed list at the end of the input has length 0 or 1. *)
Theorem validate_at_most_one_unclosed (content : str) :
  (forall pre post, split_nl content = pre ++ post ->
     exists st, fence_loop initial_fence 1 pre = inr st
                /\ List.length (stack st) <= 1)
  /\ exists ranges unclosed ws,
       _parse_code_blocks (split_nl content) = inr (ranges, unclosed)
       /\ List.length unclosed <= 1
       /\ validate content = inr ws
       /\ unclosed_warnings ws
          = List.map (fun n => mkWarning n (lit "Unclosed fenced code block")
                                         unclosed_code_block) unclosed
       /\ List.length (unclosed_warnings ws) <= 1.
Proof.
  split.
  - intros pre post _.
    destruct (fence_loop_inv pre 1 initial_fence_inv) as [st [E Hinv]].
    exists st. split; [exact E | apply fence_inv_stack; exact Hinv].
  - destruct (fence_loop_inv (split_nl content) 1 initial_fence_inv)
      as [st [E Hinv]].
    assert (Hp : _parse_code_blocks (split_nl content)
                 = inr (closed_ranges st, List.map fst (stack st))).
    { unfold _parse_code_blocks. fold initial_fence. rewrite E. reflexivity. }
    assert (Hlen : List.length (List.map fst (stack st)) <= 1).
    { rewrite length_map. apply fence_inv_stack; exact Hinv. }
    exists (closed_ranges st), (List.map fst (stack st)).
    eexists. split; [exact Hp|]. split; [exact Hlen|].
    unfold validate. rewrite Hp. split; [reflexivity|].
    unfold unclosed_warnings at 1 2. rewrite !filter_app.
    fold (unclosed_warnings (_check_tables (split_nl content) (closed_ranges st))).
    rewrite unclosed_of_tables, app_nil_r.
    match goal with |- ?a = _ /\ _ => fold (unclosed_warnings
      (List.map (fun line_num =>
                 mkWarning line_num (lit "Unclosed fenced code block")
                           unclosed_code_block) (List.map fst (stack st)))) end.
    rewrite unclosed_of_fences. split; [reflexivity|].
    rewrite length_map. exact Hlen.
Qed.

Lemma fence_loop_app (a b : list str) :
  forall st n,
  fence_loop st n (a ++ b)
  = match fence_loop st n a with
    | inl e => inl e
    | inr st' => fence_loop st' (n + List.length a) b
    end.
Proof.
  induction a as [|l a IH]; intros st n; simpl.
  - rewrite Nat.add_0_r. reflexivity.
  - destruct (fence_step st n l) as [e|st1]; [reflexivity|].
    rewrite IH. replace (S n + List.length a) with (n + S (List.length a)) by lia.
    reflexivity.
Qed.

Lemma fence_loop_free (ls : list str) :
  Forall fence_free ls -> forall st n, fence_loop st n ls = inr st.
Proof.
  induction 1 as [|l ls Hl _ IH]; intros st n; simpl; [reflexivity|].
  unfold fence_step. rewrite Hl. apply IH.
Qed.

Lemma fence_match_ticks (l : str) (k : nat) :
  fence_match l = Some k -> ticks l = k /\ 3 <= k.
Proof.
  unfold fence_match, ticks. destruct (3 <=? run_length is_tick l) eqn:E.
  - intros [= <-]. split; [reflexivity | apply Nat.leb_le; exact E].
  - discriminate.
Qed.

Lemma fence_match_of_ticks (l : str) :
  3 <= ticks l -> fence_match l = Some (ticks l).
Proof.
  unfold fence_match, ticks. intros Hk.
  apply Nat.leb_le in Hk. rewrite Hk. reflexivity.
Qed.

(** Inside a fence of length [k], lines with shorter backtick runs leave
    the scanner where it is. *)
Lemma fence_loop_inner (ls : list str) (st : fence_state) :
  in_code_block st = true ->
  Forall (fun l => ticks l < current_fence_length st) ls ->
  forall n, fence_loop st n ls = inr st.
Proof.
  intros Hin. induction 1 as [|l ls Hl _ IH]; intros n; simpl; [reflexivity|].
  unfold fence_step. destruct (fence_match l) as [j|] eqn:E.
  - apply fence_match_ticks in E. destruct E as [E _].
    rewrite Hin. simpl.
    assert (Hlt : (current_fence_length st <=? j) = false)
      by (apply Nat.leb_gt; lia).
    rewrite Hlt. apply IH.
  - apply IH.
Qed.

Lemma headings_scan_free (pre rest : list str) :
  Forall fence_free pre ->
  headings_scan false 0 (pre ++ rest)
  = headings_scan false 0 pre ++ headings_scan false 0 rest.
Proof.
  induction 1 as [|l ls Hl _ IH]; simpl; [reflexivity|].
  rewrite Hl. destruct (heading_match l) as [[k g]|]; rewrite IH; reflexivity.
Qed.

Lemma headings_scan_inner (ls rest : list str) (k : nat) :
  Forall (fun l => ticks l < k) ls ->
  headings_scan true k (ls ++ rest) = headings_scan true k rest.
Proof.
  induction 1 as [|l ls Hl _ IH]; simpl; [reflexivity|].
  destruct (fence_match l) as [j|] eqn:E.
  - apply fence_match_ticks in E. destruct E as [E _].
    assert (Hlt : (k <=? j) = false) by (apply Nat.leb_gt; lia).
    rewrite Hlt. exact IH.
  - exact IH.
Qed.

(** C4: a body whose lines are a fence opened with four or more backticks,
    inner lines with shorter backtick runs (so also 3-backtick fence lines)
    and a closing line with at least as many backticks as the opener,
    between fence-free lines: [_parse_code_blocks] closes the outer fence
    and nothing else, [validate] reports no unclosed code block, and the
    headings [get_headings] extracts are those of the lines before and
    after the fence, none from inside it. *)
Theorem nested_fence_closed
  (pre inner post : list str) (opener closer : str) :
  Forall fence_free pre -> Forall fence_free post ->
  4 <= ticks opener ->
  Forall (fun l => ticks l < ticks opener) inner ->
  ticks opener <= ticks closer ->
  Forall no_newline (pre ++ opener :: inner ++ closer :: post) ->
  let body := join_nl (pre ++ opener :: inner ++ closer :: post) in
  _parse_code_blocks (split_nl body)
  = inr ([(S (List.length pre), S (S (List.length pre + List.length inner)))],
         [])
  /\ (exists ws, validate body = inr ws /\ unclosed_warnings ws = [])
  /\ headings_of_body body
     = headings_scan false 0 pre ++ headings_scan false 0 post.
Proof.
  intros Hpre Hpost Hopen Hinner Hclose Hnl body.
  assert (Hsplit : split_nl body = pre ++ opener :: inner ++ closer :: post).
  { apply split_join; [destruct pre; discriminate | exact Hnl]. }
  assert (Ho : fence_match opener = Some (ticks opener))
    by (apply fence_match_of_ticks; lia).
  assert (Hc : fence_match closer = Some (ticks closer))
    by (apply fence_match_of_ticks; lia).
  assert (Hparse :
    _parse_code_blocks (split_nl body)
    = inr ([(S (List.length pre), S (S (List.length pre + List.length inner)))],
           [])).
  { rewrite Hsplit. unfold _parse_code_blocks.
    rewrite fence_loop_app, (fence_loop_free Hpre).
    cbn [fence_loop]. unfold fence_step at 1. rewrite Ho. cbn [in_code_block negb stack closed_ranges app].
    rewrite fence_loop_app, fence_loop_inner; [|reflexivity|exact Hinner].
    cbn [fence_loop]. unfold fence_step at 1. rewrite Hc.
    cbn [in_code_block negb current_fence_length stack closed_ranges].
    apply Nat.leb_le in Hclose. rewrite Hclose. rewrite pop_singleton.
    rewrite (fence_loop_free Hpost). cbn [closed_ranges stack List.map app].
    repeat f_equal; lia. }
  split; [exact Hparse|]. split.
  - unfold validate. rewrite Hparse. eexists. split; [reflexivity|].
    simpl. apply unclosed_of_tables.
  - unfold headings_of_body. rewrite Hsplit.
    rewrite (headings_scan_free _ Hpre). f_equal.
    cbn [headings_scan]. rewrite Ho. cbn [negb].
    rewrite (headings_scan_inner _ Hinner).
    cbn [headings_scan]. rewrite Hc.
    apply Nat.leb_le in Hclose. cbn [negb]. rewrite Hclose. reflexivity.
Qed.

(** ** Section boundaries *)

Lemma run_length_nth (p : char -> bool) (l : str) :
  forall k, k < run_length p l ->
  exists c, nth_error l k = Some c /\ p c = true.
Proof.
  induction l as [|c l IH]; intros k Hk; simpl in Hk; [lia|].
  destruct (p c) eqn:Ec; [|lia].
  destruct k as [|k]; simpl.
  - eauto.
  - apply IH. lia.
Qed.

Lemma hash_not_space (c : char) : is_hash c = true -> is_space c = false.
Proof.
  unfold is_hash. intros E. apply N.eqb_eq in E. subst c. reflexivity.
Qed.

(** The regex [^#{1,L}\s], with its backtracking, holds of a line exactly
    when the whole hash run has a length from 1 to [L] and a whitespace
    character comes right after it. *)
Lemma section_end_match_spec (L : nat) (l : str) :
  section_end_match L l = true <-> heading_upto L l.
Proof.
  unfold section_end_match, heading_upto. rewrite existsb_exists. split.
  - intros [k [Hk Hm]]. apply in_rev, in_seq in Hk.
    apply andb_true_iff in Hm. destruct Hm as [Hle Hsp].
    apply Nat.leb_le in Hle.
    destruct (nth_error l k) as [c|] eqn:Ec; [|discriminate].
    destruct (Nat.eq_dec k (run_length is_hash l)) as [->|Hne].
    + split; [lia|]. eauto.
    + destruct (@run_length_nth is_hash l k) as [c' [Ec' Hc']]; [lia|].
      rewrite Ec in Ec'. injection Ec' as <-.
      rewrite (hash_not_space _ Hc') in Hsp. discriminate.
  - intros [Hr [c [Ec Hsp]]]. exists (run_length is_hash l). split.
    + apply in_rev. rewrite rev_involutive. apply in_seq. lia.
    + rewrite Nat.leb_refl, Ec. exact Hsp.
Qed.

Lemma find_end_spec (L : nat) (rest : list str) :
  forall i,
  i <= find_end L i rest <= i + List.length rest
  /\ (forall j, j < find_end L i rest - i ->
        section_end_match L (nth j rest []) = false)
  /\ (find_end L i rest < i + List.length rest ->
        section_end_match L (nth (find_end L i rest - i) rest []) = true).
Proof.
  induction rest as [|l rest IH]; intros i; simpl.
  - split; [lia|]. split; intros; lia.
  - destruct (section_end_match L l) eqn:E.
    + split; [lia|]. split.
      * intros j Hj. lia.
      * intros _. rewrite Nat.sub_diag. exact E.
    + destruct (IH (S i)) as [Hb [Hbefore Hat]].
      split; [lia|]. split.
      * intros j Hj. destruct j as [|j]; [exact E|].
        apply Hbefore. lia.
      * intros Hlt.
        replace (find_end L (S i) rest - i)
          with (S (find_end L (S i) rest - S i)) by lia.
        apply Hat. lia.
Qed.

Lemma find_start_spec (search : str -> option nat) (lines : list str) :
  forall i s L,
  find_start search i lines = Some (s, L) ->
  i < s <= i + List.length lines
  /\ search (strip (nth (s - 1 - i) lines [])) = Some L
  /\ (forall j, j < s - 1 - i -> search (strip (nth j lines [])) = None).
Proof.
  induction lines as [|l lines IH]; intros i s L; simpl; [discriminate|].
  destruct (search (strip l)) as [L'|] eqn:E.
  - intros [= <- <-]. replace (S i - 1 - i) with 0 by lia.
    split; [lia|]. split; [exact E | intros j Hj; lia].
  - intros Hf. destruct (IH _ _ _ Hf) as [Hb [Hat Hbefore]].
    replace (s - 1 - i) with (S (s - 1 - S i)) by lia.
    split; [lia|]. split; [exact Hat|].
    intros j Hj. destruct j as [|j]; [exact E|]. apply Hbefore. lia.
Qed.

Lemma nth_skipn (A : Type) (d : A) (l : list A) :
  forall n j, nth j (skipn n l) d = nth (n + j) l d.
Proof.
  induction l as [|x l IH]; intros n j.
  - rewrite skipn_nil. destruct j, n; reflexivity.
  - destruct n as [|n]; [reflexivity|]. simpl. apply IH.
Qed.

Lemma bare_heading_match_level (sel l : str) (k : nat) :
  bare_heading_match sel l = Some k -> 1 <= k.
Proof.
  unfold bare_heading_match. intros Hf. apply find_some in Hf.
  destruct Hf as [Hin _]. apply in_rev, in_seq in Hin. lia.
Qed.

Lemma drop_while_length (p : char -> bool) (s : str) :
  List.length (drop_while p s) + run_length p s = List.length s.
Proof.
  induction s as [|c s IH]; simpl; [reflexivity|].
  destruct (p c); simpl; lia.
Qed.

Lemma startswith_hash_run (s : str) :
  startswith [HASH] s = true -> 1 <= run_length is_hash s.
Proof.
  destruct s as [|c r]; [discriminate|].
  unfold startswith. cbn [strip_prefix run_length]. unfold is_hash.
  rewrite (N.eqb_sym c HASH).
  destruct (N.eqb HASH c); [lia | discriminate].
Qed.

(** The bounds [_find_section_bounds] returns: the heading level is at
    least one, the body starts right after the matched line and ends at the
    first later line that opens with 1 to [L] hashes followed by
    whitespace, or at the end of the document. *)
Lemma find_section_bounds_spec (lines : list str) (section : str)
  (start end_ L : nat) :
  _find_section_bounds lines section = inr (start, end_, L) ->
  1 <= L /\ 1 <= start <= end_ /\ end_ <= List.length lines
  /\ (forall i, start <= i < end_ -> ~ heading_upto L (nth i lines []))
  /\ (end_ < List.length lines -> heading_upto L (nth end_ lines [])).
Proof.
  unfold _find_section_bounds.
  set (search := if startswith [HASH] (strip section) then _ else _).
  destruct (find_start search 0 lines) as [[s lv]|] eqn:Ef; [|discriminate].
  intros [= <- <- <-].
  destruct (find_start_spec _ _ _ Ef) as [Hs [Hat _]].
  destruct (find_end_spec lv (skipn s lines) s) as [Hb [Hbefore Hend]].
  rewrite length_skipn in Hb, Hend.
  assert (Hlv : 1 <= lv).
  { subst search. destruct (startswith [HASH] (strip section)) eqn:Esw.
    - destruct (str_eqb _ _); [|discriminate]. injection Hat as <-.
      assert (Hd := drop_while_length is_hash (strip section)).
      apply startswith_hash_run in Esw. lia.
    - eapply bare_heading_match_level; exact Hat. }
  split; [exact Hlv|]. split; [lia|]. split; [lia|]. split.
  - intros i Hi Hh. apply section_end_match_spec in Hh.
    specialize (Hbefore (i - s)). rewrite nth_skipn in Hbefore.
    replace (s + (i - s)) with i in Hbefore by lia.
    rewrite Hbefore in Hh; [discriminate | lia].
  - intros Hlt. apply section_end_match_spec.
    rewrite nth_skipn in Hend.
    replace (s + (find_end lv s (skipn s lines) - s))
      with (find_end lv s (skipn s lines)) in Hend by lia.
    apply Hend. lia.
Qed.

(** C9: section boundaries ignore fences.  In the body
    "# A / ``` / # B / ``` / after" line 3 lies strictly inside the closed
    fence of lines 2 to 4 and [get_headings] skips it; yet the selector [B]
    matches it, and it ends the section [A], whose body is cut down to the
    opening fence line. *)
Theorem section_bounds_not_fence_aware :
  exists body : str,
    let lines := split_nl body in
    _parse_code_blocks lines = inr ([(2, 4)], [])
    /\ _is_inside_code_block 3 [(2, 4)] = true
    /\ nth 2 lines [] = lit "# B"
    /\ headings_of_body body = [mkHeading 1 (lit "A")]
    /\ _find_section_bounds lines (lit "B") = inr (3, 5, 1)
    /\ _find_section_bounds lines (lit "A") = inr (1, 2, 1)
    /\ read_section_body body (lit "A") = inr (lit "```")
    /\ delete_section_body body (lit "B") = inr (lit "# A" ++ NL :: lit "```")
    /\ update_section_body body (lit "A") (lit "Z")
       = inr (join_nl [lit "# A"; lit "Z"; lit "# B"; lit "```"; lit "after"]).
Proof.
  exists (join_nl [lit "# A"; lit "```"; lit "# B"; lit "```"; lit "after"]).
  vm_compute. repeat split; reflexivity.
Qed.

(** ** Blocking heading validation *)

Lemma space_not_cyrillic (c : char) :
  is_space c = true -> is_cyrillic c = false.
Proof.
  unfold is_cyrillic, is_space. intros Hs.
  destruct (N.leb_spec 1024 c) as [H1|H1]; [|reflexivity].
  destruct (N.leb_spec c 1279) as [H2|H2]; [|reflexivity].
  exfalso. revert Hs.
  repeat match goal with
         | |- context [N.leb ?a ?b] =>
             destruct (N.leb_spec a b); try lia
         | |- context [N.eqb ?a ?b] =>
             destruct (N.eqb_spec a b); try lia
         end; simpl; discriminate.
Qed.

Lemma hash_not_cyrillic (c : char) :
  is_hash c = true -> is_cyrillic c = false.
Proof.
  unfold is_hash. intros E. apply N.eqb_eq in E. subst c. reflexivity.
Qed.

Lemma run_prefix_clean (p : char -> bool) (s : str) :
  (forall c, p c = true -> is_cyrillic c = false) ->
  forall j, j <= run_length p s -> has_cyrillic (firstn j s) = false.
Proof.
  intros Hp. induction s as [|c s IH]; intros j Hj.
  - rewrite firstn_nil. reflexivity.
  - destruct j as [|j]; [reflexivity|]. simpl in Hj.
    destruct (p c) eqn:Ec; [|lia]. simpl.
    rewrite (Hp c Ec). simpl. apply IH. lia.
Qed.

Lemma has_cyrillic_app (a b : str) :
  has_cyrillic (a ++ b) = has_cyrillic a || has_cyrillic b.
Proof. unfold has_cyrillic. apply existsb_app. Qed.

(** Group 2 of a heading match has a Cyrillic code point exactly when the
    line has one: the hashes and the whitespace before it have none. *)
Lemma heading_text_cyrillic (l g : str) (k : nat) :
  heading_match l = Some (k, g) -> has_cyrillic g = has_cyrillic l.
Proof.
  unfold heading_match.
  set (rest := skipn (run_length is_hash l) l).
  destruct (_ && _ && _); [|discriminate].
  intros [= <- <-].
  set (m := Nat.min (run_length is_space rest) (List.length rest - 1)).
  transitivity (has_cyrillic (firstn (run_length is_hash l) l
                              ++ firstn m rest ++ skipn m rest)).
  - rewrite !has_cyrillic_app.
    rewrite (run_prefix_clean is_hash l hash_not_cyrillic) by lia.
    rewrite (run_prefix_clean is_space rest space_not_cyrillic)
      by (subst m; lia).
    reflexivity.
  - f_equal. rewrite firstn_skipn. subst rest. apply firstn_skipn.
Qed.

Lemma headings_loop_spec (ranges : list (nat * nat)) (lines : list str) :
  forall i,
  (headings_loop ranges i lines = inl InvalidHeadingError
   /\ exists j l, nth_error lines j = Some l
        /\ _is_inside_code_block (S (i + j)) ranges = false
        /\ heading_match l <> None /\ has_cyrillic l = true)
  \/ (headings_loop ranges i lines = inr tt
      /\ forall j l, nth_error lines j = Some l ->
           _is_inside_code_block (S (i + j)) ranges = false ->
           heading_match l <> None -> has_cyrillic l = false).
Proof.
  induction lines as [|l0 lines IH]; intros i.
  - right. split; [reflexivity|]. intros [|j] l; discriminate.
  - cbn [headings_loop].
    destruct (IH (S i)) as [[E [j [l [Hj [Hin [Hh Hc]]]]]]|[E Hno]].
    + (* a later line raises unless this one does first; either way a
         witness exists *)
      destruct (_is_inside_code_block (S i) ranges) eqn:Ei.
      * left. split; [exact E|]. exists (S j), l.
        replace (i + S j) with (S i + j) by lia. auto.
      * destruct (heading_match l0) as [[k g]|] eqn:Em.
        -- destruct (has_cyrillic g) eqn:Eg.
           ++ left. split; [reflexivity|]. exists 0, l0.
              rewrite Nat.add_0_r.
              rewrite (heading_text_cyrillic _ Em) in Eg.
              repeat split; auto. congruence.
           ++ left. split; [exact E|]. exists (S j), l.
              replace (i + S j) with (S i + j) by lia. auto.
        -- left. split; [exact E|]. exists (S j), l.
           replace (i + S j) with (S i + j) by lia. auto.
    + assert (Hlater : forall j l, nth_error lines j = Some l ->
                _is_inside_code_block (S (i + S j)) ranges = false ->
                heading_match l <> None -> has_cyrillic l = false).
      { intros j l Hj Hin. apply (Hno j l Hj).
        replace (S i + j) with (i + S j) by lia. exact Hin. }
      destruct (_is_inside_code_block (S i) ranges) eqn:Ei.
      * right. split; [exact E|]. intros [|j] l Hj Hin Hh.
        -- rewrite Nat.add_0_r, Ei in Hin. discriminate.
        -- exact (Hlater j l Hj Hin Hh).
      * destruct (heading_match l0) as [[k g]|] eqn:Em.
        -- destruct (has_cyrillic g) eqn:Eg.
           ++ left. split; [reflexivity|]. exists 0, l0.
              rewrite Nat.add_0_r.
              rewrite (heading_text_cyrillic _ Em) in Eg.
              repeat split; auto. congruence.
           ++ right. split; [exact E|]. intros [|j] l Hj Hin Hh.
              ** injection Hj as <-.
                 rewrite <- (heading_text_cyrillic _ Em). exact Eg.
              ** exact (Hlater j l Hj Hin Hh).
        -- right. split; [exact E|]. intros [|j] l Hj Hin Hh.
           ++ injection Hj as <-. congruence.
           ++ exact (Hlater j l Hj Hin Hh).
Qed.

Lemma parse_code_blocks_total (lines : list str) :
  exists ranges unclosed, _parse_code_blocks lines = inr (ranges, unclosed).
Proof.
  destruct (fence_loop_inv lines 1 initial_fence_inv) as [st [E _]].
  unfold _parse_code_blocks. fold initial_fence. rewrite E. eauto.
Qed.

(** [validate_headings] raises [InvalidHeadingError] exactly on the
    contents with a Cyrillic heading outside the closed fences, and returns
    otherwise. *)
Lemma validate_headings_spec (content : str) :
  (validate_headings content = inl InvalidHeadingError
   /\ cyrillic_heading_outside content)
  \/ (validate_headings content = inr tt
      /\ ~ cyrillic_heading_outside content).
Proof.
  destruct (parse_code_blocks_total (split_nl content)) as [rs [un Hp]].
  unfold validate_headings, cyrillic_heading_outside. rewrite Hp.
  destruct (headings_loop_spec rs (split_nl content) 0)
    as [[E [j [l [Hj [Hin [Hh Hc]]]]]]|[E Hno]].
  - left. split; [exact E|]. exists rs, un, j, l. auto.
  - right. split; [exact E|].
    intros [rs' [un' [j [l [Hp' [Hj [Hin [Hh Hc]]]]]]]].
    injection Hp' as <- <-.
    rewrite (Hno j l Hj Hin Hh) in Hc. discriminate.
Qed.

Lemma validate_headings_iff (content : str) :
  validate_headings content = inl InvalidHeadingError
  <-> cyrillic_heading_outside content.
Proof.
  destruct (validate_headings_spec content) as [[E Hc]|[E Hc]];
    rewrite E; split; intros; try assumption; try reflexivity;
    try discriminate; contradiction.
Qed.

(** ** Dictionaries and the reverse link map *)

Lemma str_eqb_eq (a b : str) : str_eqb a b = true <-> a = b.
Proof.
  revert b. induction a as [|x a IH]; intros [|y b]; simpl;
    try (split; [discriminate | discriminate]); [tauto|].
  rewrite andb_true_iff, N.eqb_eq, IH. split.
  - intros [-> ->]. reflexivity.
  - intros [= -> ->]. auto.
Qed.

Lemma str_eqb_refl (a : str) : str_eqb a a = true.
Proof. apply str_eqb_eq. reflexivity. Qed.

Lemma str_eqb_neq (a b : str) : str_eqb a b = false <-> a <> b.
Proof.
  rewrite <- str_eqb_eq. destruct (str_eqb a b); split; congruence.
Qed.

Lemma path_eqb_eq (p q : Path) : path_eqb p q = true <-> p = q.
Proof.
  revert q. induction p as [|x p IH]; intros [|y q]; simpl;
    try (split; [discriminate | discriminate]); [tauto|].
  rewrite andb_true_iff, str_eqb_eq, IH. split.
  - intros [-> ->]. reflexivity.
  - intros [= -> ->]. auto.
Qed.

Lemma incoming_of_setdefault (T t s : str) (d : list (str * list str)) :
  incoming_of T (setdefault_append t s d)
  = incoming_of T d ++ (if str_eqb T t then [s] else []).
Proof.
  unfold incoming_of. induction d as [|[k l] d IH]; simpl.
  - destruct (str_eqb T t); reflexivity.
  - destruct (str_eqb t k) eqn:Etk; simpl.
    + apply str_eqb_eq in Etk. subst k.
      destruct (str_eqb T t); [reflexivity | rewrite app_nil_r; reflexivity].
    + destruct (str_eqb T k) eqn:ETk; [|exact IH].
      apply str_eqb_eq in ETk. subst k.
      apply str_eqb_neq in Etk.
      assert (E : str_eqb T t = false) by (apply str_eqb_neq; congruence).
      rewrite E, app_nil_r. reflexivity.
Qed.

Lemma incoming_of_targets (T nm : str) (outs : list str) :
  forall inc,
  incoming_of T
    (fold_left (fun inc target => setdefault_append target nm inc) outs inc)
  = incoming_of T inc ++ repeat nm (count_occ str_eq_dec outs T).
Proof.
  induction outs as [|t outs IH]; intros inc; simpl.
  - rewrite app_nil_r. reflexivity.
  - rewrite IH, incoming_of_setdefault, <- app_assoc. f_equal.
    destruct (str_eq_dec t T) as [->|Hne].
    + rewrite str_eqb_refl. reflexivity.
    + assert (E : str_eqb T t = false) by (apply str_eqb_neq; congruence).
      rewrite E. reflexivity.
Qed.

Lemma incoming_of_fold (T : str) (ns : list Note) :
  forall inc,
  incoming_of T (fold_left add_incoming ns inc)
  = incoming_of T inc ++ sources_of T ns.
Proof.
  induction ns as [|n ns IH]; intros inc; simpl.
  - rewrite app_nil_r. reflexivity.
  - rewrite IH. unfold add_incoming.
    rewrite incoming_of_targets, <- app_assoc. reflexivity.
Qed.

(** The reverse map at a target is the list of sources, in index order and
    with their multiplicities. *)
Lemma incoming_of_invert (T : str) (notes : list (str * Note)) :
  incoming_of T (invert_links notes) = sources_of T (List.map snd notes).
Proof. unfold invert_links. apply incoming_of_fold. Qed.





Lemma dict_mem_keys (V : Type) (k : str) (d : list (str * V)) :
  dict_mem str_eqb k d = true <-> In k (List.map fst d).
Proof.
  unfold dict_mem. induction d as [|[k' v'] d IH]; simpl.
  - split; [discriminate | tauto].
  - destruct (str_eqb k k') eqn:E.
    + apply str_eqb_eq in E. subst k'. split; auto.
    + apply str_eqb_neq in E. rewrite IH. split; [auto|].
      intros [E'|Hin]; [congruence | exact Hin].
Qed.

Lemma dict_set_keys (V : Type) (k : str) (v : V) (d : list (str * V)) :
  List.map fst (dict_set str_eqb k v d)
  = if dict_mem str_eqb k d then List.map fst d else List.map fst d ++ [k].
Proof.
  unfold dict_mem. induction d as [|[k' v'] d IH]; simpl; [reflexivity|].
  destruct (str_eqb k k') eqn:E; simpl; [reflexivity|].
  rewrite IH. destruct (dict_get str_eqb k d); reflexivity.
Qed.

Lemma dict_set_in (V : Type) (k : str) (v : V) (d : list (str * V)) :
  forall k0 v0, In (k0, v0) (dict_set str_eqb k v d) ->
  In (k0, v0) d \/ (k0 = k /\ v0 = v).
Proof.
  induction d as [|[k' v'] d IH]; intros k0 v0; simpl.
  - intros [[= <- <-]|[]]. right; auto.
  - destruct (str_eqb k k') eqn:E; simpl.
    + apply str_eqb_eq in E. subst k'.
      intros [[= <- <-]|Hin]; [right; auto | left; right; exact Hin].
    + intros [Heq|Hin]; [left; left; exact Heq|].
      destruct (IH _ _ Hin) as [H1|H2]; [left; right; exact H1 | right; exact H2].
Qed.

Lemma keyed_nil : keyed [].
Proof. split; [constructor | intros k n []]. Qed.

Lemma keyed_set (d : list (str * Note)) (n : Note) :
  keyed d -> keyed (dict_set str_eqb (name n) n d).
Proof.
  intros [Hnd Hk]. split.
  - rewrite dict_set_keys. destruct (dict_mem str_eqb (name n) d) eqn:E.
    + exact Hnd.
    + apply NoDup_app; [exact Hnd | repeat constructor; intros [] |].
      intros a Ha [<-|[]]. apply dict_mem_keys in Ha. congruence.
  - intros k0 n0 Hin. apply dict_set_in in Hin.
    destruct Hin as [Hin|[-> ->]]; [apply Hk; exact Hin | reflexivity].
Qed.




(** ** The monad *)

Lemma quiet_ret (A : Type) (a : A) : quiet (ret a).
Proof. intros v. split; auto. Qed.

Lemma quiet_raise (A : Type) (e : error) : quiet (@raise A e).
Proof. intros v. split; auto. Qed.

Lemma quiet_lift (A : Type) (r : result A) : quiet (lift r).
Proof. intros v. split; auto. Qed.

Lemma quiet_bind (A B : Type) (m : M A) (f : A -> M B) :
  quiet m -> (forall a, quiet (f a)) -> quiet (bind m f).
Proof.
  intros Hm Hf v. unfold bind. destruct (Hm v) as [Hfiles Hok].
  destruct (m v) as [[e|a] v1]; simpl in *; [auto|].
  destruct (Hf a v1) as [Hfiles' Hok']. split.
  - congruence.
  - auto.
Qed.

Lemma quiet_read_text (p : Path) : quiet (read_text p).
Proof.
  intros v. unfold read_text.
  destruct (dict_get path_eqb p (files v)); split; auto.
Qed.

Lemma quiet_exists (p : Path) : quiet (exists_ p).
Proof. intros v. split; auto. Qed.

Lemma quiet_catch (A : Type) (m : M A) : quiet m -> quiet (catch_not_found m).
Proof.
  intros Hm v. unfold catch_not_found. destruct (Hm v) as [Hf Hok].
  destruct (m v) as [[e|a] v1]; [destruct e|]; simpl in *; split; auto.
Qed.

Lemma never_blocks_ret (A : Type) (a : A) : never_blocks (ret a).
Proof. intros v e v'. discriminate. Qed.

Lemma never_blocks_bind (A B : Type) (m : M A) (f : A -> M B) :
  never_blocks m -> (forall a, never_blocks (f a)) -> never_blocks (bind m f).
Proof.
  intros Hm Hf v e v'. unfold bind.
  destruct (m v) as [[e1|a] v1] eqn:E.
  - intros [= <- <-]. eapply Hm; exact E.
  - apply Hf.
Qed.

Lemma never_blocks_write_text (p : Path) (c : str) :
  never_blocks (write_text p c).
Proof. intros v e v'. discriminate. Qed.



Lemma validate_total (content : str) : exists ws, validate content = inr ws.
Proof.
  destruct (parse_code_blocks_total (split_nl content)) as [rs [un Hp]].
  unfold validate. rewrite Hp. eauto.
Qed.

Lemma never_blocks_validate (content : str) :
  never_blocks (lift (validate content)).
Proof.
  intros v e v'. unfold lift. destruct (validate_total content) as [ws ->].
  discriminate.
Qed.




Lemma sound_of_quiet (A : Type) (m : M A) : quiet m -> sound m.
Proof. intros Hm v. apply (Hm v). Qed.

Lemma sound_bind (A B : Type) (m : M A) (f : A -> M B) :
  sound m -> (forall a, sound (f a)) -> sound (bind m f).
Proof.
  intros Hm Hf v Hv. unfold bind. specialize (Hm v Hv).
  destruct (m v) as [[e|a] v1]; simpl in *; [exact Hm|].
  apply Hf. exact Hm.
Qed.

Lemma sound_write_text (p : Path) (c : str) : sound (write_text p c).
Proof. intros v Hv idx E. apply Hv. exact E. Qed.

Lemma sound_rename_file (p q : Path) : sound (rename_file p q).
Proof.
  intros v Hv. unfold rename_file.
  destruct (dict_get path_eqb p (files v)); [|exact Hv].
  intros idx E. apply Hv. exact E.
Qed.


(** ** The vault index *)

Section EngineFacts.

Context `{Collaborators}.

Lemma build_notes_keyed (fs : list (Path * str)) : keyed (build_notes fs).
Proof.
  unfold build_notes.
  assert (Hgen : forall l d, keyed d ->
            keyed (fold_left
                     (fun notes f =>
                        let note := _parse_note (fst f) (snd f) in
                        dict_set str_eqb (name note) note notes) l d)).
  { induction l as [|f l IH]; intros d Hd; simpl; [exact Hd|].
    apply IH. apply keyed_set. exact Hd. }
  apply Hgen. apply keyed_nil.
Qed.

Lemma build_index_ok (fs : list (Path * str)) : index_ok (build_index fs).
Proof.
  split; simpl.
  - apply build_notes_keyed.
  - intros T. apply incoming_of_invert.
Qed.

Lemma rebuilt_ok (v : Vault) : vault_ok (rebuilt v).
Proof. intros idx [= <-]. apply build_index_ok. Qed.

Lemma build_index_run (v : Vault) : _build_index v = (inr tt, rebuilt v).
Proof. reflexivity. Qed.

Lemma refresh_run (v : Vault) : refresh v = (inr tt, rebuilt v).
Proof. reflexivity. Qed.

Lemma ensure_index_run (v : Vault) :
  _ensure_index v
  = (inr tt, match index v with Some _ => v | None => rebuilt v end).
Proof. unfold _ensure_index. destruct (index v); reflexivity. Qed.

Lemma quiet_refresh : quiet refresh.
Proof. intros v. rewrite refresh_run. split; [reflexivity|]. intros _. apply rebuilt_ok. Qed.

Lemma quiet_ensure_index : quiet _ensure_index.
Proof.
  intros v. rewrite ensure_index_run. destruct (index v) eqn:E; simpl.
  - split; auto.
  - split; [reflexivity|]. intros _. apply rebuilt_ok.
Qed.

Lemma quiet_the_index : quiet the_index.
Proof. intros v. unfold the_index. destruct (index v); split; auto. Qed.

Lemma never_blocks_refresh : never_blocks refresh.
Proof. intros v e v'. rewrite refresh_run. discriminate. Qed.

(** [get_note] in closed form, by the state of the cached index. *)
Lemma get_note_cached (nm : str) (v : Vault) (idx : Index) :
  index v = Some idx ->
  get_note nm v
  = match dict_get str_eqb nm (_notes idx) with
    | Some note => (inr note, v)
    | None =>
        match dict_get str_eqb nm (_notes (build_index (files v))) with
        | Some note => (inr note, rebuilt v)
        | None => (inl NoteNotFoundError, rebuilt v)
        end
    end.
Proof.
  intros E. unfold get_note, bind. rewrite ensure_index_run, E.
  unfold the_index. rewrite E.
  destruct (dict_get str_eqb nm (_notes idx)); [reflexivity|].
  rewrite refresh_run. cbn [index rebuilt].
  destruct (dict_get str_eqb nm (_notes (build_index (files v))));
    reflexivity.
Qed.

Lemma get_note_lazy (nm : str) (v : Vault) :
  index v = None ->
  get_note nm v
  = match dict_get str_eqb nm (_notes (build_index (files v))) with
    | Some note => (inr note, rebuilt v)
    | None => (inl NoteNotFoundError, rebuilt (rebuilt v))
    end.
Proof.
  intros E. unfold get_note, bind. rewrite ensure_index_run, E.
  unfold the_index. cbn [index rebuilt].
  destruct (dict_get str_eqb nm (_notes (build_index (files v)))) eqn:Eg;
    [reflexivity|].
  rewrite refresh_run. cbn [index rebuilt files]. rewrite Eg. reflexivity.
Qed.

Lemma quiet_get_note (nm : str) : quiet (get_note nm).
Proof.
  unfold get_note.
  apply quiet_bind; [apply quiet_ensure_index | intros _].
  apply quiet_bind; [apply quiet_the_index | intros idx].
  destruct (dict_get str_eqb nm (_notes idx)); [apply quiet_ret|].
  apply quiet_bind; [apply quiet_refresh | intros _].
  apply quiet_bind; [apply quiet_the_index | intros idx'].
  destruct (dict_get str_eqb nm (_notes idx'));
    [apply quiet_ret | apply quiet_raise].
Qed.

(** After a successful [get_note] the index is there, holds the note under
    its name, and the note is the one the index holds. *)
Lemma get_note_found (nm : str) (v v' : Vault) (note : Note) :
  get_note nm v = (inr note, v') ->
  exists idx, index v' = Some idx
              /\ dict_get str_eqb nm (_notes idx) = Some note
              /\ (v' = v \/ v' = rebuilt v).
Proof.
  destruct (index v) as [idx|] eqn:E.
  - rewrite (get_note_cached nm v E).
    destruct (dict_get str_eqb nm (_notes idx)) eqn:Eg.
    + intros [= <- <-]. exists idx. auto.
    + destruct (dict_get str_eqb nm (_notes (build_index (files v)))) eqn:Eg';
        [|discriminate].
      intros [= <- <-]. exists (build_index (files v)). auto.
  - rewrite (get_note_lazy nm v E).
    destruct (dict_get str_eqb nm (_notes (build_index (files v)))) eqn:Eg';
      [|discriminate].
    intros [= <- <-]. exists (build_index (files v)). auto.
Qed.

Lemma get_note_hit (nm : str) (v : Vault) (idx : Index) (note : Note) :
  index v = Some idx -> dict_get str_eqb nm (_notes idx) = Some note ->
  get_note nm v = (inr note, v).
Proof. intros E Eg. rewrite (get_note_cached nm v E), Eg. reflexivity. Qed.

Lemma get_incoming_links_cached (nm : str) (v : Vault) (idx : Index) :
  index v = Some idx ->
  get_incoming_links nm v = (inr (incoming_of nm (_incoming_links idx)), v).
Proof.
  intros E. unfold get_incoming_links, bind.
  rewrite ensure_index_run, E. unfold the_index. rewrite E. reflexivity.
Qed.


Lemma parse_note_name (p : Path) (raw : str) : name (_parse_note p raw) = stem p.
Proof.
  unfold _parse_note.
  destruct (frontmatter_match _) as [[y b]|]; reflexivity.
Qed.






(** ** Wikilink validation reads only *)

Lemma quiet_get_headings (nm : str) : quiet (get_headings nm).
Proof.
  unfold get_headings. apply quiet_bind; [apply quiet_get_note|].
  intros note. apply quiet_ret.
Qed.

Lemma quiet_validate_links_loop (ms : list (str * option str)) :
  forall acc, quiet (validate_links_loop ms acc).
Proof.
  induction ms as [|[g1 g2] ms IH]; intros acc; cbn [validate_links_loop].
  - apply quiet_ret.
  - apply quiet_bind; [apply quiet_catch, quiet_get_note|].
    intros [found|]; [|apply IH].
    destruct (match g2 with Some s => strip s | None => [] end);
      [apply IH|].
    apply quiet_bind; [apply quiet_get_headings|]. intros hs.
    destruct (existsb _ _); [apply IH | apply quiet_raise].
Qed.

Lemma quiet_validate_wikilinks (content : str) :
  quiet (_validate_wikilinks content).
Proof. apply quiet_validate_links_loop. Qed.

Lemma get_note_error (nm : str) (v v' : Vault) (e : error) :
  get_note nm v = (inl e, v') -> e = NoteNotFoundError.
Proof.
  destruct (index v) as [idx|] eqn:E.
  - rewrite (get_note_cached nm v E).
    destruct (dict_get str_eqb nm (_notes idx)); [discriminate|].
    destruct (dict_get str_eqb nm (_notes (build_index (files v))));
      [discriminate|].
    intros [= <- _]. reflexivity.
  - rewrite (get_note_lazy nm v E).
    destruct (dict_get str_eqb nm (_notes (build_index (files v))));
      [discriminate|].
    intros [= <- _]. reflexivity.
Qed.

Lemma validate_links_loop_error (ms : list (str * option str)) :
  forall acc v v' e,
  validate_links_loop ms acc v = (inl e, v') ->
  e = BrokenLinkError \/ e = NoteNotFoundError.
Proof.
  induction ms as [|[g1 g2] ms IH]; intros acc v v' e;
    cbn [validate_links_loop].
  - discriminate.
  - unfold bind at 1. unfold catch_not_found.
    destruct (get_note (strip g1) v) as [[e1|note] v1] eqn:Eg.
    + apply get_note_error in Eg. subst e1. apply IH.
    + destruct (match g2 with Some s => strip s | None => [] end);
        [apply IH|].
      unfold bind at 1.
      destruct (get_headings (strip g1) v1) as [[e2|hs] v2] eqn:Eh.
      * intros [= <- <-]. right.
        unfold get_headings, bind in Eh.
        destruct (get_note (strip g1) v1) as [[e3|n3] v3] eqn:Eg3;
          [|discriminate].
        injection Eh as <- <-. eapply get_note_error; exact Eg3.
      * destruct (existsb _ _); [apply IH|].
        intros [= <- <-]. left. reflexivity.
Qed.

(** ** The blocking checks come before the write *)

(** The part of a checked write that follows the heading check. *)
Lemma after_headings_no_heading_error (p : Path) (c fc : str)
  (v v' : Vault) (e : error) :
  (link_warnings <- _validate_wikilinks c ;;
   write_text p fc ;;;
   refresh ;;;
   ws <- lift (validate fc) ;;
   ret (mkWriteResult (ws ++ link_warnings))) v = (inl e, v') ->
  e <> InvalidHeadingError.
Proof.
  unfold bind at 1.
  destruct (_validate_wikilinks c v) as [[e1|lw] v1] eqn:El.
  - intros [= <- <-]. apply validate_links_loop_error in El.
    destruct El as [->| ->]; discriminate.
  - intros E Habs. subst e.
    assert (Hnb : never_blocks
              (write_text p fc ;;; refresh ;;;
               ws <- lift (validate fc) ;; ret (mkWriteResult (ws ++ lw)))).
    { apply never_blocks_bind; [apply never_blocks_write_text | intros _].
      apply never_blocks_bind; [apply never_blocks_refresh | intros _].
      apply never_blocks_bind; [apply never_blocks_validate | intros ws].
      apply never_blocks_ret. }
    specialize (Hnb _ _ _ E). discriminate.
Qed.

Lemma checked_write_heading (note : Note) (new_body : str) (v : Vault) :
  (fst (checked_write note new_body v) = inl InvalidHeadingError
   <-> cyrillic_heading_outside new_body)
  /\ (fst (checked_write note new_body v) = inl InvalidHeadingError ->
      snd (checked_write note new_body v) = v).
Proof.
  destruct (checked_write note new_body v) as [r v'] eqn:Ecw.
  unfold checked_write in Ecw. unfold bind at 1 in Ecw.
  unfold lift at 1 in Ecw.
  destruct (validate_headings_spec new_body) as [[E Hc]|[E Hc]];
    rewrite E in Ecw.
  - injection Ecw as <- <-. simpl. split; [tauto | reflexivity].
  - destruct r as [e|r]; simpl.
    + apply after_headings_no_heading_error in Ecw.
      split; [split; [congruence | contradiction] | congruence].
    + split; [split; [discriminate | contradiction] | discriminate].
Qed.

(** C7, as amended: for an existing note, [append] raises
    [InvalidHeadingError] exactly when the new file text (the text read
    from the file, front matter included, then two newlines, then the
    appended text) has a heading line with a Cyrillic code point that is
    not strictly inside a closed fence, and [update] exactly when the new
    content has one; when either raises it, no file has changed. *)
Theorem heading_check_before_write
  (nm text_ content current : str) (v v1 : Vault) (note : Note) :
  get_note nm v = (inr note, v1) ->
  dict_get path_eqb (path note) (files v) = Some current ->
  ((fst (append nm text_ v) = inl InvalidHeadingError
    <-> cyrillic_heading_outside (current ++ [NL; NL] ++ text_))
   /\ (fst (append nm text_ v) = inl InvalidHeadingError ->
       files (snd (append nm text_ v)) = files v))
  /\ ((fst (update nm content v) = inl InvalidHeadingError
       <-> cyrillic_heading_outside content)
      /\ (fst (update nm content v) = inl InvalidHeadingError ->
          files (snd (update nm content v)) = files v)).
Proof.
  intros Eg Ec.
  assert (Hfiles : files v1 = files v).
  { destruct (quiet_get_note nm v) as [Hf _]. rewrite Eg in Hf. exact Hf. }
  split.
  - destruct (append nm text_ v) as [r v'] eqn:Ea.
    unfold append, resolve_path in Ea. unfold bind at 1 2 in Ea.
    rewrite Eg in Ea. unfold ret at 1 in Ea. unfold bind at 1 in Ea.
    unfold read_text at 1 in Ea. rewrite Hfiles, Ec in Ea.
    unfold bind at 1 in Ea. unfold lift at 1 in Ea.
    destruct (validate_headings_spec (current ++ [NL; NL] ++ text_))
      as [[E Hc]|[E Hc]]; rewrite E in Ea.
    + injection Ea as <- <-. simpl. split; [tauto | intros _; exact Hfiles].
    + destruct r as [e|r]; simpl.
      * apply after_headings_no_heading_error in Ea.
        split; [split; [congruence | contradiction] | congruence].
      * split; [split; [discriminate | contradiction] | discriminate].
  - unfold update. unfold bind. rewrite Eg.
    destruct (checked_write_heading note content v1) as [Hiff Hsame].
    split; [exact Hiff|].
    intros E. rewrite (Hsame E). exact Hfiles.
Qed.

(** ** Delete and rename *)




Lemma delete_lookup_fails (nm : str) (d : bool) (v v1 : Vault) (e : error) :
  get_note nm v = (inl e, v1) -> delete nm d v = (inl e, v1).
Proof. intros Eg. unfold delete, bind. rewrite Eg. reflexivity. Qed.


Lemma delete_real_run (nm : str) (v v1 : Vault) (note : Note) (idx : Index) :
  get_note nm v = (inr note, v1) -> index v1 = Some idx ->
  delete nm false v
  = match update_links_loop (incoming_of nm (_incoming_links idx)) nm
            (nm ++ lit " (deleted)") v1 with
    | (inl e, v2) => (inl e, v2)
    | (inr _, v2) =>
        match rename_file (path note) [TRASH; nm ++ MD] v2 with
        | (inl e, v3) => (inl e, v3)
        | (inr _, v3) =>
            (inr (mkDeleteResult nm [TRASH; nm ++ MD]
                    (incoming_of nm (_incoming_links idx))), rebuilt v3)
        end
    end.
Proof.
  intros Eg E. unfold delete, _find_files_with_link, bind. rewrite Eg.
  rewrite (get_incoming_links_cached nm v1 E). cbn [negb].
  destruct (update_links_loop _ _ _ v1) as [[e|u] v2]; [reflexivity|].
  destruct (rename_file _ _ v2) as [[e|u'] v3]; reflexivity.
Qed.

(** [rename] up to the point where the list is computed: the name check,
    the lookup and the collision check. *)
Lemma rename_name_fails (o n : str) (d : bool) (v : Vault) (e : error) :
  validate_name n = inl e -> rename o n d v = (inl e, v).
Proof. intros En. unfold rename, bind, lift. rewrite En. reflexivity. Qed.

Lemma rename_lookup_fails (o n : str) (d : bool) (v v1 : Vault) (e : error) :
  validate_name n = inr tt -> get_note o v = (inl e, v1) ->
  rename o n d v = (inl e, v1).
Proof.
  intros En Eg. unfold rename, bind, lift. rewrite En, Eg. reflexivity.
Qed.

Lemma rename_collision (o n : str) (d : bool) (v v1 : Vault) (note : Note) :
  validate_name n = inr tt -> get_note o v = (inr note, v1) ->
  dict_mem path_eqb (note_file n) (files v1) = true ->
  rename o n d v = (inl NoteAlreadyExistsError, v1).
Proof.
  intros En Eg Em. unfold rename, bind, lift, exists_.
  rewrite En, Eg, Em. reflexivity.
Qed.


Lemma rename_real_run (o n : str) (v v1 : Vault) (note : Note) (idx : Index) :
  validate_name n = inr tt ->
  get_note o v = (inr note, v1) -> index v1 = Some idx ->
  dict_mem path_eqb (note_file n) (files v1) = false ->
  rename o n false v
  = match update_links_loop (incoming_of o (_incoming_links idx)) o n v1 with
    | (inl e, v2) => (inl e, v2)
    | (inr _, v2) =>
        match rename_file (path note) (note_file n) v2 with
        | (inl e, v3) => (inl e, v3)
        | (inr _, v3) =>
            (inr (mkRenameResult o n (incoming_of o (_incoming_links idx))),
             rebuilt v3)
        end
    end.
Proof.
  intros En Eg E Em. unfold rename, _find_files_with_link, bind, lift, exists_.
  rewrite En, Eg, Em. rewrite (get_incoming_links_cached o v1 E).
  cbn [negb].
  destruct (update_links_loop _ _ _ v1) as [[e|u] v2]; [reflexivity|].
  destruct (rename_file _ _ v2) as [[e|u'] v3]; reflexivity.
Qed.



Lemma cascade_result (A : Type) (refs : list str) (o n : str)
  (src dst : Path) (res r : A) (v1 v' : Vault) :
  match update_links_loop refs o n v1 with
  | (inl e, v2) => (inl e, v2)
  | (inr _, v2) =>
      match rename_file src dst v2 with
      | (inl e, v3) => (inl e, v3)
      | (inr _, v3) => (inr res, rebuilt v3)
      end
  end = (inr r, v') -> r = res.
Proof.
  destruct (update_links_loop refs o n v1) as [[e|u] v2]; [discriminate|].
  destruct (rename_file src dst v2) as [[e|u'] v3]; [discriminate|].
  intros [= <- _]. reflexivity.
Qed.



(** ** Every operation: blocking errors before the first write *)

Ltac quiet_step :=
  first
    [ apply quiet_ret | apply quiet_raise | apply quiet_lift
    | apply quiet_read_text | apply quiet_exists | apply quiet_refresh
    | apply quiet_get_note | apply quiet_get_headings
    | apply quiet_validate_wikilinks | apply quiet_ensure_index
    | apply quiet_the_index
    | apply quiet_bind; [|intro]
    | match goal with
      | |- quiet (if ?b then _ else _) => destruct b
      | |- quiet (match ?x with _ => _ end) => destruct x
      end ].

Ltac quiet_tac := repeat quiet_step.



Ltac sound_step :=
  first
    [ apply sound_write_text | apply sound_rename_file
    | apply sound_of_quiet; solve [quiet_tac]
    | apply sound_bind; [|intro]
    | match goal with
      | |- sound (if ?b then _ else _) => destruct b
      | |- sound (match ?x with _ => _ end) => destruct x
      end ].

Ltac sound_tac := repeat sound_step.

Lemma quiet_list_notes : quiet list_notes.
Proof. unfold list_notes. quiet_tac. Qed.

Lemma quiet_get_incoming_links (nm : str) : quiet (get_incoming_links nm).
Proof. unfold get_incoming_links. quiet_tac. Qed.

Lemma quiet_get_outgoing_links (nm : str) : quiet (get_outgoing_links nm).
Proof. unfold get_outgoing_links. quiet_tac. Qed.

Lemma quiet_resolve_path (nm : str) : quiet (resolve_path nm).
Proof. unfold resolve_path. quiet_tac. Qed.

Lemma quiet_read (nm : str) : quiet (read nm).
Proof. unfold read. apply quiet_bind; [apply quiet_resolve_path|]. intro. quiet_tac. Qed.

Lemma quiet_frontmatter_get (nm : str) : quiet (frontmatter_get nm).
Proof. unfold frontmatter_get. quiet_tac. Qed.

Lemma quiet_search (q : str) (m : SearchMode) : quiet (search q m).
Proof.
  unfold search. apply quiet_bind; [apply quiet_list_notes|]. intro.
  apply quiet_ret.
Qed.

Lemma quiet_links (nm : str) (d : LinkDirection) : quiet (links nm d).
Proof.
  unfold links. apply quiet_bind; [apply quiet_get_note | intros _].
  apply quiet_bind.
  - destruct d; first [apply quiet_get_outgoing_links | apply quiet_ret].
  - intros out. apply quiet_bind; [|intro; apply quiet_ret].
    destruct d; first [apply quiet_get_incoming_links | apply quiet_ret].
Qed.

Lemma quiet_broken_loop (existing : list str) (ns : list Note) :
  quiet (broken_loop existing ns).
Proof.
  induction ns as [|n ns IH]; cbn [broken_loop]; [apply quiet_ret|].
  apply quiet_bind; [apply quiet_get_outgoing_links | intros ts].
  apply quiet_bind; [exact IH | intros rest]. apply quiet_ret.
Qed.

Lemma quiet_find_broken_links : quiet find_broken_links.
Proof.
  unfold find_broken_links.
  apply quiet_bind; [apply quiet_list_notes | intros ns].
  apply quiet_bind; [apply quiet_list_notes | intros ns'].
  apply quiet_broken_loop.
Qed.

Lemma quiet_read_section (nm section : str) : quiet (read_section nm section).
Proof. unfold read_section. quiet_tac. Qed.















(** The soundness of the cached index is kept by every call, batch calls
    included, and holds of a vault that has no index yet. *)
Lemma sound_update_links_loop (o n : str) (refs : list str) :
  sound (update_links_loop refs o n).
Proof.
  induction refs as [|r refs IH]; cbn [update_links_loop].
  - sound_tac.
  - apply sound_bind; [sound_tac | intros note].
    apply sound_bind; [|intros _; exact IH].
    unfold _update_links_in_file.
    apply sound_bind; [sound_tac | intros content].
    destruct (subn_links _ o n content) as [nc [|cnt]]; sound_tac.
Qed.

Lemma sound_checked_write (note : Note) (new_body : str) :
  sound (checked_write note new_body).
Proof. unfold checked_write. sound_tac. Qed.

Lemma sound_delete (nm : str) (d : bool) : sound (delete nm d).
Proof.
  unfold delete, _find_files_with_link.
  apply sound_bind; [sound_tac | intros note].
  apply sound_bind; [apply sound_of_quiet, quiet_get_incoming_links|].
  intros fu. apply sound_bind; [|intros _; sound_tac].
  destruct (negb d); [|sound_tac].
  apply sound_bind; [apply sound_update_links_loop | intros _]. sound_tac.
Qed.

Lemma sound_rename (o n : str) (d : bool) : sound (rename o n d).
Proof.
  unfold rename, _find_files_with_link.
  apply sound_bind; [sound_tac | intros _].
  apply sound_bind; [sound_tac | intros note].
  apply sound_bind; [sound_tac | intros there].
  destruct there; [sound_tac|].
  apply sound_bind; [apply sound_of_quiet, quiet_get_incoming_links|].
  intros fu. apply sound_bind; [|intros _; sound_tac].
  destruct (negb d); [|sound_tac].
  apply sound_bind; [apply sound_update_links_loop | intros _]. sound_tac.
Qed.

Lemma sound_batch_rename (rs : list (str * str)) (d : bool) :
  sound (batch_rename rs d).
Proof.
  induction rs as [|[o n] rs IH]; cbn [batch_rename]; [sound_tac|].
  apply sound_bind; [apply sound_rename | intros r].
  apply sound_bind; [exact IH | intros rs']. sound_tac.
Qed.

Lemma sound_batch_delete (ns : list str) (d : bool) :
  sound (batch_delete ns d).
Proof.
  induction ns as [|n ns IH]; cbn [batch_delete]; [sound_tac|].
  apply sound_bind; [apply sound_delete | intros r].
  apply sound_bind; [exact IH | intros rs']. sound_tac.
Qed.

Lemma sound_void (A : Type) (m : M A) : sound m -> sound (m ;;; ret tt).
Proof. intros Hm. apply sound_bind; [exact Hm | intros _; sound_tac]. Qed.

Lemma run_keeps_index_sound (c : call) : sound (run c).
Proof.
  destruct c; unfold run, void; try apply sound_void.
  - unfold create. sound_tac.
  - apply sound_of_quiet, quiet_read.
  - unfold append.
    apply sound_bind; [apply sound_of_quiet, quiet_resolve_path | intro].
    sound_tac.
  - unfold update.
    apply sound_bind; [sound_tac | intro]. apply sound_checked_write.
  - apply sound_delete.
  - apply sound_rename.
  - apply sound_of_quiet, quiet_frontmatter_get.
  - unfold frontmatter_set. sound_tac.
  - apply sound_of_quiet, quiet_search.
  - apply sound_of_quiet, quiet_links.
  - apply sound_of_quiet, quiet_find_broken_links.
  - apply sound_batch_rename.
  - apply sound_batch_delete.
  - unfold replace. apply sound_bind; [sound_tac | intros note].
    destruct (negb _); [sound_tac|]. destruct replace_all_; sound_tac.
  - unfold insert.
    destruct before, after; try solve [sound_tac];
      (apply sound_bind; [sound_tac | intros note]);
      destruct (match_index _ 0 _); sound_tac.
  - apply sound_of_quiet, quiet_read_section.
  - unfold append_section.
    apply sound_bind; [sound_tac | intro].
    apply sound_bind; [sound_tac | intro]. apply sound_checked_write.
  - apply sound_of_quiet, quiet_get_headings.
  - unfold update_section.
    apply sound_bind; [sound_tac | intro].
    apply sound_bind; [sound_tac | intro]. apply sound_checked_write.
  - unfold delete_section. sound_tac.
Qed.


(** ** Worked vaults *)


(** C2: the code at a vault where note [A] refers to [B] only through an
    aliased link.  The index does not list [A] as a source of [B], so
    [delete] leaves [A] as it is while moving [B] to the trash, although
    the rewrite rule applied to the text of [A] gives the claimed text,
    and although an [A] that also holds a plain link is visited and has
    both links rewritten. *)
Theorem delete_misses_aliased_links :
  let a := lit "[[B|Alias]]" in
  let v := mkVault [([lit "A.md"], a); ([lit "B.md"], lit "I am B")] None 0 in
  let w := mkVault [([lit "A.md"], lit "[[B]] [[B|Alias]] [[B#Sec]]");
                    ([lit "B.md"], lit "I am B")] None 0 in
  _extract_wikilinks a = []
  /\ fst (delete (lit "B") false v)
     = inr (mkDeleteResult (lit "B") [lit ".trash"; lit "B.md"] [])
  /\ files (snd (delete (lit "B") false v))
     = [([lit "A.md"], a); ([lit ".trash"; lit "B.md"], lit "I am B")]
  /\ subn_links (List.length a) (lit "B") (lit "B (deleted)") a
     = (lit "[[B (deleted)|Alias]]", 1)
  /\ fst (delete (lit "B") false w)
     = inr (mkDeleteResult (lit "B") [lit ".trash"; lit "B.md"] [lit "A"])
  /\ files (snd (delete (lit "B") false w))
     = [([lit "A.md"],
         lit "[[B (deleted)]] [[B (deleted)|Alias]] [[B (deleted)#Sec]]");
        ([lit ".trash"; lit "B.md"], lit "I am B")].
Proof.
  cbv zeta. repeat split; vm_compute; reflexivity.
Qed.

End EngineFacts.

(** ** Closed instances *)

Ltac no_newline_tac :=
  repeat constructor;
  let Hin := fresh in
  intros Hin; simpl in Hin;
  repeat (destruct Hin as [Hin|Hin]; [discriminate Hin|]); exact Hin.

Lemma nested_fence_closed_witness :
  let pre := [lit "# Title"] in
  let opener := lit "````markdown" in
  let inner := [lit "```python"; lit "# not a heading"; lit "```"] in
  let closer := lit "````" in
  let post := [lit "## After"] in
  let body := join_nl (pre ++ opener :: inner ++ closer :: post) in
  _parse_code_blocks (split_nl body) = inr ([(2, 6)], [])
  /\ (exists ws, validate body = inr ws /\ unclosed_warnings ws = [])
  /\ headings_of_body body
     = [mkHeading 1 (lit "Title"); mkHeading 2 (lit "After")].
Proof.
  cbv zeta.
  apply (@nested_fence_closed
           [lit "# Title"]
           [lit "```python"; lit "# not a heading"; lit "```"]
           [lit "## After"] (lit "````markdown") (lit "````")).
  - repeat constructor.
  - repeat constructor.
  - vm_compute. apply le_n.
  - repeat constructor.
  - vm_compute. apply le_n.
  - no_newline_tac.
Defined.

Lemma validate_at_most_one_unclosed_witness :
  exists st, fence_loop initial_fence 1 [lit "```"; lit "````text"] = inr st
             /\ List.length (stack st) <= 1.
Proof.
  apply (proj1 (validate_at_most_one_unclosed
                  (join_nl [lit "```"; lit "````text"; lit "```py"]))
               [lit "```"; lit "````text"] [lit "```py"]).
  reflexivity.
Defined.









Lemma heading_check_before_write_witness :
  let v := mkVault [([lit "N.md"], lit "body")] None 0 in
  let cyr := [35; 32; 1046]%N in
  cyrillic_heading_outside (lit "body" ++ [NL; NL] ++ cyr)
  /\ files (snd (@append plain (lit "N") cyr v)) = files v
  /\ cyrillic_heading_outside cyr
  /\ files (snd (@update plain (lit "N") cyr v)) = files v.
Proof.
  cbv zeta.
  destruct (@heading_check_before_write plain (lit "N")
              [35; 32; 1046]%N [35; 32; 1046]%N (lit "body")
              (mkVault [([lit "N.md"], lit "body")] None 0)
              (snd (@get_note plain (lit "N")
                      (mkVault [([lit "N.md"], lit "body")] None 0)))
              (mkNote (lit "N") [lit "N.md"] [] (lit "body") [] []))
    as [[Ha1 Ha2] [Hu1 Hu2]].
  - vm_compute. reflexivity.
  - vm_compute. reflexivity.
  - split; [apply Ha1; vm_compute; reflexivity|].
    split; [apply Ha2; vm_compute; reflexivity|].
    split; [apply Hu1; vm_compute; reflexivity|].
    apply Hu2; vm_compute; reflexivity.
Defined.

(** C7, the claim as stated: the file of note [N] has a YAML comment with
    a Cyrillic letter in its front matter and the body "body".  The new
    body, "body" and the appended "t" two newlines apart, has no heading at
    all, yet [append] raises [InvalidHeadingError]: the check reads the
    whole file text.  And [update] with a Cyrillic heading under an
    unclosed fence raises it although [get_headings] sees no heading
    there. *)
Lemma append_checks_whole_file :
  let cyr := [35; 32; 1046]%N in
  let raw := join_nl [lit "---"; cyr; lit "---"; lit "body"] in
  let v := mkVault [([lit "N.md"], raw)] None 0 in
  let fenced := join_nl [lit "```"; cyr] in
  (exists note, fst (@get_note plain (lit "N") v) = inr note
                /\ body note = lit "body")
  /\ fst (@append plain (lit "N") (lit "t") v) = inl InvalidHeadingError
  /\ headings_of_body (lit "body" ++ [NL; NL] ++ lit "t") = []
  /\ ~ cyrillic_heading_outside (lit "body" ++ [NL; NL] ++ lit "t")
  /\ fst (@update plain (lit "N") fenced v) = inl InvalidHeadingError
  /\ headings_of_body fenced = [].
Proof.
  cbv zeta.
  split; [eexists; split; vm_compute; reflexivity|].
  split; [vm_compute; reflexivity|].
  split; [vm_compute; reflexivity|].
  split.
  { intros Hc. apply validate_headings_iff in Hc. vm_compute in Hc.
    discriminate Hc. }
  split; vm_compute; reflexivity.
Qed.

(** * Further properties of the code *)

(** ** The table rule of [validate] *)






(** ** The two fence scanners agree *)

Lemma scan_inv_initial : scan_inv initial_fence 1.
Proof.
  split; [apply initial_fence_inv|]. split; intros x [].
Qed.

Lemma scan_inv_later (st : fence_state) (n : nat) :
  scan_inv st n -> scan_inv st (S n).
Proof.
  intros [Hf [Hc Hs]]. split; [exact Hf|].
  split; intros x Hx; [apply Hc in Hx | apply Hs in Hx]; lia.
Qed.

Lemma scan_inv_step (st st' : fence_state) (n : nat) (l : str) :
  scan_inv st n -> fence_step st n l = inr st' -> scan_inv st' (S n).
Proof.
  intros Hinv. assert (Hl := scan_inv_later Hinv).
  destruct Hinv as [Hf [Hc Hs]].
  destruct (fence_step_inv n l Hf) as [st1 [E1 Hf1]].
  intros E. rewrite E in E1. injection E1 as <-.
  split; [exact Hf1|].
  unfold fence_step in E. destruct (fence_match l) as [k|].
  - destruct (negb (in_code_block st)).
    + injection E as <-. simpl. split.
      * intros r Hr. apply Hc in Hr. lia.
      * intros x Hx. apply in_app_or in Hx.
        destruct Hx as [Hx|[<-|[]]]; [apply Hs in Hx; lia | simpl; lia].
    + destruct (current_fence_length st <=? k).
      * destruct Hf as [[_ Hst]|[_ [m Hst]]]; rewrite Hst in E.
        -- discriminate E.
        -- rewrite pop_singleton in E. injection E as <-. simpl. split.
           ++ intros r Hr. apply in_app_or in Hr.
              destruct Hr as [Hr|[<-|[]]]; [apply Hc in Hr; lia | simpl; lia].
           ++ intros x [].
      * injection E as <-. exact (proj2 Hl).
  - injection E as <-. exact (proj2 Hl).
Qed.

(** What the rest of the scan adds to the closed ranges and leaves on the
    stack: with no fence open, only fences that start at line [n] or later;
    with a fence open, either nothing at all (it is never closed), or first
    the range of that fence and then only fences behind it. *)
Lemma fence_loop_future (lines : list str) :
  forall st n st',
  scan_inv st n ->
  fence_loop st n lines = inr st' ->
  exists added,
    closed_ranges st' = closed_ranges st ++ added
    /\ match stack st with
       | [] =>
           Forall (fun r => n <= fst r) added
           /\ Forall (fun x => n <= fst x) (stack st')
       | (s, _) :: _ =>
           (added = [] /\ stack st' = stack st)
           \/ (exists e more,
                 added = (s, e) :: more /\ n <= e
                 /\ Forall (fun r => e < fst r) more
                 /\ Forall (fun x => e < fst x) (stack st'))
       end.
Proof.
  induction lines as [|l lines IH]; intros st n st' Hinv; simpl.
  - intros [= <-]. exists []. rewrite app_nil_r. split; [reflexivity|].
    destruct (stack st) as [|[s k] tl]; [split; constructor | left; auto].
  - destruct (fence_step st n l) as [e|st1] eqn:E1; [discriminate|].
    intros Eloop.
    assert (Hinv1 := scan_inv_step _ Hinv E1).
    destruct (IH _ _ _ Hinv1 Eloop) as [added1 [Hcl Hcase]].
    destruct Hinv as [Hf [Hc Hs]].
    unfold fence_step in E1. destruct (fence_match l) as [k|].
    + destruct Hf as [[Hin Hst]|[Hin [m Hst]]]; rewrite Hin in E1;
        cbn [negb] in E1.
      * (* the line opens a fence *)
        injection E1 as <-. cbn [stack closed_ranges] in Hcl, Hcase.
        rewrite Hst in Hcase |- *. cbn [app] in Hcase.
        exists added1. split; [exact Hcl|].
        destruct Hcase as [[-> ->]|[e [more [-> [Hn [Hm Hs']]]]]].
        -- split; [constructor | repeat constructor].
        -- split.
           ++ constructor; [simpl; lia|].
              eapply Forall_impl; [|exact Hm]. simpl. intros r Hr. lia.
           ++ eapply Forall_impl; [|exact Hs']. simpl. intros x Hx. lia.
      * destruct (current_fence_length st <=? k).
        -- (* the line closes the open fence *)
           rewrite Hst, pop_singleton in E1. injection E1 as <-.
           cbn [stack closed_ranges] in Hcl, Hcase.
           rewrite <- app_assoc in Hcl. rewrite Hst.
           exists ([(m, n)] ++ added1). split; [exact Hcl|].
           right. exists n, added1. destruct Hcase as [Ha Hs'].
           split; [reflexivity|]. split; [lia|]. split.
           ++ eapply Forall_impl; [|exact Ha]. simpl. intros r Hr. lia.
           ++ eapply Forall_impl; [|exact Hs']. simpl. intros x Hx. lia.
        -- (* a shorter run inside the fence *)
           injection E1 as <-. exists added1. split; [exact Hcl|].
           rewrite Hst in Hcase |- *.
           destruct Hcase as [Hno|[e [more [Ha [Hn [Hm Hs']]]]]];
             [left; exact Hno|].
           right. exists e, more. repeat split; auto. lia.
    + injection E1 as <-. exists added1. split; [exact Hcl|].
      destruct (stack st) as [|[s k] tl].
      * destruct Hcase as [Ha Hs']. split.
        -- eapply Forall_impl; [|exact Ha]. simpl. intros r Hr. lia.
        -- eapply Forall_impl; [|exact Hs']. simpl. intros x Hx. lia.
      * destruct Hcase as [Hno|[e [more [Ha [Hn [Hm Hs']]]]]];
          [left; exact Hno|].
        right. exists e, more. repeat split; auto. lia.
Qed.

Lemma inside_app (n : nat) (a b : list (nat * nat)) :
  _is_inside_code_block n (a ++ b)
  = _is_inside_code_block n a || _is_inside_code_block n b.
Proof. unfold _is_inside_code_block. apply existsb_app. Qed.

Lemma inside_ended (n : nat) (rs : list (nat * nat)) :
  (forall r, In r rs -> snd r < n) -> _is_inside_code_block n rs = false.
Proof.
  intros Hr. unfold _is_inside_code_block.
  induction rs as [|r rs IH]; [reflexivity|]. simpl.
  assert (Hlt : (n <? snd r) = false)
    by (apply Nat.ltb_ge; specialize (Hr r (or_introl eq_refl)); lia).
  rewrite Hlt, andb_false_r. simpl. apply IH.
  intros r' Hr'. apply Hr. right. exact Hr'.
Qed.

Lemma inside_later (n : nat) (rs : list (nat * nat)) :
  Forall (fun r => n <= fst r) rs -> _is_inside_code_block n rs = false.
Proof.
  unfold _is_inside_code_block.
  induction 1 as [|r rs Hr _ IH]; [reflexivity|]. simpl.
  assert (Hlt : (fst r <? n) = false) by (apply Nat.ltb_ge; lia).
  rewrite Hlt. simpl. exact IH.
Qed.

Lemma unclosed_later (n : nat) (stk : list (nat * nat)) :
  Forall (fun x => n <= fst x) stk ->
  existsb (fun u => u <? n) (List.map fst stk) = false.
Proof.
  induction 1 as [|x stk Hx _ IH]; [reflexivity|]. simpl.
  assert (Hlt : (fst x <? n) = false) by (apply Nat.ltb_ge; lia).
  rewrite Hlt. exact IH.
Qed.

(** For a line that is no fence line, the flag of the scanner says whether
    the line will count as fenced once the whole text is scanned. *)
Lemma fenced_is_flag (st st' : fence_state) (n : nat) (post : list str) :
  scan_inv st n ->
  fence_loop st (S n) post = inr st' ->
  fenced n (closed_ranges st') (List.map fst (stack st')) = in_code_block st.
Proof.
  intros Hinv Eloop.
  destruct (fence_loop_future post (scan_inv_later Hinv) Eloop)
    as [added [Hcl Hcase]].
  destruct Hinv as [Hf [Hc Hs]].
  unfold fenced. rewrite Hcl, inside_app, (inside_ended _ Hc). simpl.
  destruct Hf as [[Hin Hst]|[Hin [m Hst]]]; rewrite Hin, Hst in *.
  - destruct Hcase as [Ha Hs'].
    rewrite inside_later, unclosed_later; [reflexivity| |].
    + eapply Forall_impl; [|exact Hs']. simpl. intros x Hx. lia.
    + eapply Forall_impl; [|exact Ha]. simpl. intros r Hr. lia.
  - assert (Hm : m < n) by (apply (Hs (m, current_fence_length st));
                            left; reflexivity).
    destruct Hcase as [[-> ->]|[e [more [-> [Hn _]]]]].
    + simpl. apply Nat.ltb_lt in Hm. rewrite Hm. reflexivity.
    + unfold _is_inside_code_block. simpl.
      assert (H1 : (m <? n) = true) by (apply Nat.ltb_lt; lia).
      assert (H2 : (n <? e) = true) by (apply Nat.ltb_lt; lia).
      rewrite H1, H2. reflexivity.
Qed.

Lemma fence_line_no_heading (l : str) (k : nat) :
  fence_match l = Some k -> heading_of l = [].
Proof.
  unfold fence_match, heading_of, heading_match.
  destruct l as [|c l]; [discriminate|]. simpl.
  unfold is_tick, is_hash. destruct (N.eqb_spec c TICK) as [->|Hne].
  - reflexivity.
  - discriminate.
Qed.

Lemma headings_scan_visible (post : list str) :
  forall st n st',
  scan_inv st n ->
  fence_loop st n post = inr st' ->
  headings_scan (in_code_block st) (current_fence_length st) post
  = visible_headings (closed_ranges st') (List.map fst (stack st')) n post.
Proof.
  induction post as [|l post IH]; intros st n st' Hinv; [reflexivity|].
  cbn [fence_loop headings_scan visible_headings].
  destruct (fence_step st n l) as [e|st1] eqn:E1; [discriminate|].
  intros Eloop.
  assert (Hinv1 := scan_inv_step _ Hinv E1).
  specialize (IH _ _ _ Hinv1 Eloop).
  unfold fence_step in E1.
  destruct (fence_match l) as [k|] eqn:Em.
  - rewrite (fence_line_no_heading _ Em).
    assert (Hnil : forall b : bool, (if b then [] else @nil Heading) = [])
      by (intros []; reflexivity).
    rewrite Hnil. cbn [app].
    destruct Hinv as [Hf _].
    destruct Hf as [[Hin Hst]|[Hin [m Hst]]]; rewrite Hin in E1 |- *;
      cbn [negb] in E1 |- *.
    + injection E1 as <-. exact IH.
    + destruct (current_fence_length st <=? k).
      * rewrite Hst, pop_singleton in E1. injection E1 as <-. exact IH.
      * injection E1 as <-. rewrite Hin in IH. exact IH.
  - injection E1 as <-.
    rewrite (fenced_is_flag _ Hinv Eloop).
    destruct (in_code_block st) eqn:Hin.
    + exact IH.
    + unfold heading_of. destruct (heading_match l) as [[k g]|].
      * cbn [app]. f_equal. exact IH.
      * exact IH.
Qed.

Lemma headings_outside_fences_aux (body : str) :
  exists ranges unclosed,
    _parse_code_blocks (split_nl body) = inr (ranges, unclosed)
    /\ headings_of_body body
       = visible_headings ranges unclosed 1 (split_nl body).
Proof.
  destruct (fence_loop_inv (split_nl body) 1 initial_fence_inv)
    as [st [E _]].
  exists (closed_ranges st), (List.map fst (stack st)). split.
  - unfold _parse_code_blocks. fold initial_fence. rewrite E. reflexivity.
  - unfold headings_of_body.
    exact (headings_scan_visible _ scan_inv_initial E).
Qed.

(** X2: [get_headings] against the fence ranges of the validator.  The
    headings extracted from a body are those of its heading lines that lie
    neither strictly inside a closed range of [_parse_code_blocks] nor
    behind the opening line of a fence it reports unclosed, in line order:
    the two independent fence scanners agree on every line. *)
Theorem headings_outside_fences (body : str) :
  exists ranges unclosed,
    _parse_code_blocks (split_nl body) = inr (ranges, unclosed)
    /\ headings_of_body body
       = visible_headings ranges unclosed 1 (split_nl body).
Proof. exact (headings_outside_fences_aux body). Qed.


Lemma has_cyrillic_rev (s : str) : has_cyrillic (rev s) = has_cyrillic s.
Proof.
  unfold has_cyrillic. induction s as [|c s IH]; [reflexivity|].
  simpl. rewrite existsb_app, IH. simpl.
  rewrite orb_false_r. apply orb_comm.
Qed.

Lemma has_cyrillic_lstrip (s : str) :
  has_cyrillic (drop_while is_space s) = has_cyrillic s.
Proof.
  induction s as [|c s IH]; [reflexivity|]. simpl.
  destruct (is_space c) eqn:E; [|reflexivity].
  rewrite IH, (space_not_cyrillic _ E). reflexivity.
Qed.

Lemma has_cyrillic_strip (s : str) : has_cyrillic (strip s) = has_cyrillic s.
Proof.
  unfold strip, rstrip, lstrip.
  rewrite has_cyrillic_rev, has_cyrillic_lstrip, has_cyrillic_rev.
  apply has_cyrillic_lstrip.
Qed.

Lemma in_visible_headings (rs : list (nat * nat)) (un : list nat)
  (lines : list str) (h : Heading) :
  forall n,
  In h (visible_headings rs un n lines)
  <-> exists j l, nth_error lines j = Some l
                  /\ fenced (n + j) rs un = false
                  /\ In h (heading_of l).
Proof.
  induction lines as [|l0 lines IH]; intros n; simpl.
  - split; [intros [] | intros [[|j] [l [Hj _]]]; discriminate].
  - rewrite in_app_iff, IH. split.
    + intros [Hh|[j [l [Hj [Hf Hin]]]]].
      * exists 0, l0. rewrite Nat.add_0_r.
        destruct (fenced n rs un); [destruct Hh | auto].
      * exists (S j), l. replace (n + S j) with (S n + j) by lia. auto.
    + intros [[|j] [l [Hj [Hf Hin]]]].
      * left. injection Hj as <-. rewrite Nat.add_0_r in Hf.
        rewrite Hf. exact Hin.
      * right. exists j, l. replace (S n + j) with (n + S j) by lia. auto.
Qed.

(** X3: the blocking heading check against what [get_headings] shows.  If
    some heading extracted from the content has a Cyrillic code point in
    its text, [validate_headings] raises [InvalidHeadingError]; and when
    [_parse_code_blocks] leaves no fence unclosed the converse holds: the
    check raises only if an extracted heading has Cyrillic text. *)
Theorem heading_check_matches_headings (content : str) :
  ((exists h, In h (headings_of_body content)
              /\ has_cyrillic (text h) = true) ->
   validate_headings content = inl InvalidHeadingError)
  /\ ((exists ranges,
         _parse_code_blocks (split_nl content) = inr (ranges, [])) ->
      validate_headings content = inl InvalidHeadingError ->
      exists h, In h (headings_of_body content)
                /\ has_cyrillic (text h) = true).
Proof.
  destruct (headings_outside_fences_aux content) as [rs [un [Hp Hh]]].
  split.
  - intros [h [Hin Hc]]. apply validate_headings_iff.
    rewrite Hh in Hin. apply in_visible_headings in Hin.
    destruct Hin as [j [l [Hj [Hf Hl]]]].
    unfold fenced in Hf. apply orb_false_elim in Hf. destruct Hf as [Hf _].
    exists rs, un, j, l. unfold heading_of in Hl.
    destruct (heading_match l) as [[k g]|] eqn:Em; [|destruct Hl].
    destruct Hl as [<-|[]]. simpl in Hc.
    rewrite has_cyrillic_strip, (heading_text_cyrillic _ Em) in Hc.
    repeat split; auto. discriminate.
  - intros [rs' Hp'] Hv. apply validate_headings_iff in Hv.
    destruct Hv as [rs2 [un2 [j [l [Hp2 [Hj [Hf [Hm Hc]]]]]]]].
    rewrite Hp in Hp', Hp2. injection Hp' as -> ->. injection Hp2 as <- <-.
    destruct (heading_match l) as [[k g]|] eqn:Em; [|congruence].
    exists (mkHeading k (strip g)). split.
    + rewrite Hh. apply in_visible_headings. exists j, l.
      split; [exact Hj|]. split.
      * unfold fenced. simpl. rewrite Hf. reflexivity.
      * unfold heading_of. rewrite Em. left. reflexivity.
    + simpl. rewrite has_cyrillic_strip, (heading_text_cyrillic _ Em).
      exact Hc.
Qed.


(** ** Section edits compose *)

Lemma join_split (s : str) : join_nl (split_nl s) = s.
Proof.
  induction s as [|c s IH]; [reflexivity|]. simpl.
  destruct (N.eqb_spec c NL) as [->|Hne].
  - destruct (split_nl s) as [|l ls] eqn:E.
    + exfalso. exact (split_nl_nonempty s E).
    + change (join_nl ([] :: l :: ls)) with ([] ++ NL :: join_nl (l :: ls)).
      rewrite IH. reflexivity.
  - destruct (split_nl s) as [|l ls] eqn:E.
    + exfalso. exact (split_nl_nonempty s E).
    + destruct ls as [|l' ls'].
      * simpl in *. rewrite IH. reflexivity.
      * change (join_nl ((c :: l) :: l' :: ls'))
          with (c :: (l ++ NL :: join_nl (l' :: ls'))).
        change (join_nl (l :: l' :: ls'))
          with (l ++ NL :: join_nl (l' :: ls')) in IH.
        rewrite IH. reflexivity.
Qed.

Lemma split_nl_app (a b : str) :
  split_nl (a ++ NL :: b) = split_nl a ++ split_nl b.
Proof.
  induction a as [|c a IH]; [reflexivity|].
  change ((c :: a) ++ NL :: b) with (c :: (a ++ NL :: b)).
  cbn [split_nl]. rewrite IH.
  destruct (N.eqb c NL); [reflexivity|].
  destruct (split_nl a) as [|l ls] eqn:E.
  - exfalso. exact (split_nl_nonempty a E).
  - reflexivity.
Qed.

Lemma split_join_flat (ls : list str) :
  ls <> [] -> split_nl (join_nl ls) = flat_map split_nl ls.
Proof.
  induction ls as [|l ls IH]; intros Hne; [congruence|].
  destruct ls as [|l' ls'].
  - simpl. rewrite app_nil_r. reflexivity.
  - change (join_nl (l :: l' :: ls')) with (l ++ NL :: join_nl (l' :: ls')).
    rewrite split_nl_app, IH by discriminate. reflexivity.
Qed.

Lemma split_nl_lines (s : str) : Forall no_newline (split_nl s).
Proof.
  induction s as [|c s IH]; simpl.
  - constructor; [intros [] | constructor].
  - destruct (N.eqb_spec c NL) as [->|Hne].
    + constructor; [intros [] | exact IH].
    + destruct (split_nl s) as [|l ls]; [repeat constructor; intros [E|[]]; congruence|].
      inversion IH as [|? ? Hl Hls]; subst. constructor; [|exact Hls].
      intros [E|Hin]; [congruence | exact (Hl Hin)].
Qed.

Lemma flat_map_split_lines (ls : list str) :
  Forall no_newline ls -> flat_map split_nl ls = ls.
Proof.
  induction 1 as [|l ls Hl _ IH]; [reflexivity|].
  simpl. rewrite (split_nl_single Hl), IH. reflexivity.
Qed.

Lemma find_section_bounds_search (lines : list str) (section : str) :
  _find_section_bounds lines section
  = match find_start (section_search section) 0 lines with
    | None => inl SectionNotFoundError
    | Some (start, found_level) =>
        inr (start, find_end found_level start (skipn start lines),
             found_level)
    end.
Proof. reflexivity. Qed.

Lemma find_start_app (search : str -> option nat) (pre : list str) (h : str)
  (rest : list str) (L : nat) :
  forall i,
  (forall l, In l pre -> search (strip l) = None) ->
  search (strip h) = Some L ->
  find_start search i (pre ++ h :: rest) = Some (S (i + List.length pre), L).
Proof.
  induction pre as [|l pre IH]; intros i Hpre Hh; simpl.
  - rewrite Hh, Nat.add_0_r. reflexivity.
  - rewrite (Hpre l (or_introl eq_refl)).
    rewrite IH; [|intros l' Hl'; apply Hpre; right; exact Hl' | exact Hh].
    do 2 f_equal. lia.
Qed.

Lemma find_end_app (L : nat) (mid tail : list str) :
  forall i,
  Forall (fun l => section_end_match L l = false) mid ->
  find_end L i (mid ++ tail) = find_end L (i + List.length mid) tail.
Proof.
  induction mid as [|l mid IH]; intros i Hmid; simpl.
  - rewrite Nat.add_0_r. reflexivity.
  - inversion Hmid as [|? ? Hl Hm]; subst. rewrite Hl, IH by exact Hm.
    f_equal. lia.
Qed.

Lemma find_end_stops (L i : nat) (tail : list str) :
  (tail <> [] -> section_end_match L (nth 0 tail []) = true) ->
  find_end L i tail = i.
Proof.
  destruct tail as [|l tail]; [reflexivity|]. simpl. intros Hl.
  rewrite Hl by discriminate. reflexivity.
Qed.

Lemma firstn_snoc_nth (A : Type) (d : A) (l : list A) :
  forall n, n < List.length l -> firstn (S n) l = firstn n l ++ [nth n l d].
Proof.
  induction l as [|x l IH]; intros n Hn; simpl in Hn; [lia|].
  destruct n as [|n]; [reflexivity|].
  rewrite firstn_cons. cbn [firstn nth app]. f_equal. apply IH. lia.
Qed.

(** The shape of the lines around a section found at [(s, e, L)]. *)
Lemma section_shape (lines : list str) (section : str) (s e L : nat) :
  _find_section_bounds lines section = inr (s, e, L) ->
  1 <= s <= e /\ e <= List.length lines
  /\ (forall l, In l (firstn (s - 1) lines) ->
        section_search section (strip l) = None)
  /\ section_search section (strip (nth (s - 1) lines [])) = Some L
  /\ firstn s lines = firstn (s - 1) lines ++ [nth (s - 1) lines []]
  /\ Forall (fun l => section_end_match L l = false) (section_lines lines s e)
  /\ (skipn e lines <> [] ->
      section_end_match L (nth 0 (skipn e lines) []) = true).
Proof.
  intros Hb.
  destruct (find_section_bounds_spec _ _ Hb) as [HL [Hs [He [Hin Hend]]]].
  rewrite find_section_bounds_search in Hb.
  destruct (find_start (section_search section) 0 lines) as [[s0 L0]|] eqn:Ef;
    [|discriminate].
  injection Hb as -> He' ->.
  destruct (find_start_spec _ _ _ Ef) as [Hs0 [Hat Hbefore]].
  rewrite Nat.sub_0_r in Hat, Hbefore.
  split; [exact Hs|]. split; [exact He|]. split; [|split; [exact Hat|split; [|split]]].
  - intros l Hl. apply In_nth with (d := []) in Hl.
    destruct Hl as [j [Hj <-]]. rewrite length_firstn in Hj.
    rewrite nth_firstn.
    assert (Hjs : (j <? s - 1) = true) by (apply Nat.ltb_lt; lia).
    rewrite Hjs. apply Hbefore. lia.
  - replace s with (S (s - 1)) at 1 by lia.
    apply firstn_snoc_nth. lia.
  - unfold section_lines. apply Forall_forall. intros l Hl.
    apply In_nth with (d := []) in Hl. destruct Hl as [j [Hj <-]].
    rewrite length_firstn, length_skipn in Hj.
    rewrite nth_firstn.
    assert (Hje : (j <? e - s) = true) by (apply Nat.ltb_lt; lia).
    rewrite Hje, nth_skipn.
    destruct (section_end_match L (nth (s + j) lines [])) eqn:Em;
      [|reflexivity].
    exfalso. apply (Hin (s + j)); [lia|].
    apply section_end_match_spec. exact Em.
  - intros Hne. rewrite nth_skipn, Nat.add_0_r.
    apply section_end_match_spec. apply Hend.
    destruct (Nat.lt_ge_cases e (List.length lines)) as [Hlt|Hge]; [exact Hlt|].
    rewrite skipn_all2 in Hne by exact Hge. congruence.
Qed.


Lemma not_heading_upto (L : nat) (ls : list str) :
  Forall (fun l => ~ heading_upto L l) ls ->
  Forall (fun l => section_end_match L l = false) ls.
Proof.
  intros Hls. eapply Forall_impl; [|exact Hls]. simpl. intros l Hl.
  destruct (section_end_match L l) eqn:E; [|reflexivity].
  exfalso. apply Hl. apply section_end_match_spec. exact E.
Qed.

Lemma firstn_add (A : Type) (l : list A) (s k : nat) :
  firstn (s + k) l = firstn s l ++ firstn k (skipn s l).
Proof.
  revert l. induction s as [|s IH]; intros l; [reflexivity|].
  destruct l as [|x l]; [simpl; rewrite firstn_nil; reflexivity|].
  simpl. f_equal. apply IH.
Qed.

Lemma Forall_firstn (A : Type) (P : A -> Prop) (n : nat) (l : list A) :
  Forall P l -> Forall P (firstn n l).
Proof.
  intros Hl. rewrite <- (firstn_skipn n l) in Hl.
  apply Forall_app in Hl. exact (proj1 Hl).
Qed.

Lemma Forall_skipn (A : Type) (P : A -> Prop) (n : nat) (l : list A) :
  Forall P l -> Forall P (skipn n l).
Proof.
  intros Hl. rewrite <- (firstn_skipn n l) in Hl.
  apply Forall_app in Hl. exact (proj2 Hl).
Qed.

(** Putting other lines in the place of a section body: when none of them
    ends a section of that level, the selector finds the section where it
    was, with the new lines as its body. *)
Lemma section_replaced (lines mid : list str) (section : str) (s e L : nat) :
  _find_section_bounds lines section = inr (s, e, L) ->
  Forall (fun l => section_end_match L l = false) mid ->
  let lines2 := firstn s lines ++ mid ++ skipn e lines in
  _find_section_bounds lines2 section = inr (s, s + List.length mid, L)
  /\ firstn (s - 1) lines2 = firstn (s - 1) lines
  /\ nth (s - 1) lines2 [] = nth (s - 1) lines []
  /\ section_lines lines2 s (s + List.length mid) = mid
  /\ skipn (s + List.length mid) lines2 = skipn e lines.
Proof.
  intros Hb Hmid lines2.
  destruct (section_shape _ _ Hb)
    as [Hs [He [Hpre [Hat [Hfirst [Hsec Hstop]]]]]].
  assert (Hlen : List.length (firstn s lines) = s)
    by (rewrite length_firstn; lia).
  assert (Hlen1 : List.length (firstn (s - 1) lines) = s - 1)
    by (rewrite length_firstn; lia).
  assert (Hskip : skipn s lines2 = mid ++ skipn e lines).
  { unfold lines2. rewrite skipn_app, Hlen, Nat.sub_diag.
    rewrite skipn_all2 by lia. reflexivity. }
  split; [|split; [|split; [|split]]].
  - rewrite find_section_bounds_search.
    assert (Hstart : find_start (section_search section) 0 lines2
                     = Some (s, L)).
    { unfold lines2. rewrite Hfirst, <- app_assoc. cbn [app].
      rewrite (@find_start_app _ _ _ _ L 0 Hpre Hat), Hlen1.
      do 2 f_equal. lia. }
    rewrite Hstart, Hskip, (@find_end_app L mid _ _ Hmid).
    rewrite (@find_end_stops L _ _ Hstop). reflexivity.
  - unfold lines2. rewrite firstn_app, Hlen.
    replace (s - 1 - s) with 0 by lia. cbn [firstn]. rewrite app_nil_r.
    rewrite firstn_firstn. f_equal. lia.
  - unfold lines2. rewrite app_nth1 by lia.
    rewrite nth_firstn.
    assert (Hlt : (s - 1 <? s) = true) by (apply Nat.ltb_lt; lia).
    rewrite Hlt. reflexivity.
  - unfold section_lines. rewrite Hskip.
    replace (s + List.length mid - s) with (List.length mid + 0) by lia.
    rewrite firstn_app_2. cbn [firstn]. apply app_nil_r.
  - rewrite (Nat.add_comm s), <- skipn_skipn, Hskip.
    rewrite skipn_app, Nat.sub_diag, skipn_all2 by lia. reflexivity.
Qed.

Lemma update_section_lines (body section content : str) (s e L : nat) :
  _find_section_bounds (split_nl body) section = inr (s, e, L) ->
  exists body',
    update_section_body body section content = inr body'
    /\ split_nl body'
       = firstn s (split_nl body) ++ split_nl content
         ++ skipn e (split_nl body).
Proof.
  intros Hb. unfold update_section_body. rewrite Hb.
  eexists. split; [reflexivity|].
  destruct (section_shape _ _ Hb) as [Hs [He [_ [_ [Hfirst _]]]]].
  assert (Hlines := split_nl_lines body).
  rewrite split_join_flat
    by (intros E; apply (f_equal (@List.length str)) in E;
        rewrite !length_app in E; simpl in E; lia).
  rewrite !flat_map_app. cbn [flat_map]. rewrite app_nil_r.
  rewrite (flat_map_split_lines (Forall_firstn _ Hlines)).
  rewrite (flat_map_split_lines (Forall_skipn _ Hlines)).
  assert (Hh : no_newline (nth (s - 1) (split_nl body) [])).
  { rewrite Forall_forall in Hlines. apply Hlines. apply nth_In. lia. }
  rewrite (split_nl_single Hh), Hfirst, <- !app_assoc. reflexivity.
Qed.

(** X4: [update_section] then [read_section].  When no line of the new
    content opens with 1 to [L] hashes and a whitespace character (where
    [L] is the level of the matched heading), the updated body has the
    lines of the content between the heading line and the old end of the
    section, the selector finds the section at the same place, and reading
    it gives the content back, stripped. *)
Theorem update_then_read_section
  (body section content : str) (s e L : nat) :
  _find_section_bounds (split_nl body) section = inr (s, e, L) ->
  Forall (fun l => ~ heading_upto L l) (split_nl content) ->
  exists body',
    update_section_body body section content = inr body'
    /\ split_nl body'
       = firstn s (split_nl body) ++ split_nl content
         ++ skipn e (split_nl body)
    /\ _find_section_bounds (split_nl body') section
       = inr (s, s + List.length (split_nl content), L)
    /\ read_section_body body' section = inr (strip content).
Proof.
  intros Hb Hc. apply not_heading_upto in Hc.
  destruct (update_section_lines body section content Hb)
    as [body' [Hu Hsplit]].
  exists body'. split; [exact Hu|]. split; [exact Hsplit|].
  destruct (section_replaced _ _ Hb Hc) as [Hb2 [_ [_ [Hsec _]]]].
  rewrite <- Hsplit in Hb2, Hsec. split; [exact Hb2|].
  unfold read_section_body. rewrite Hb2.
  fold (section_lines (split_nl body') s
          (s + List.length (split_nl content))).
  rewrite Hsec, join_split. reflexivity.
Qed.

(** X5: [append_section] then [read_section].  When no line of the
    appended text ends a section of the matched level, the text goes in
    right before the old end of the section, and reading the section gives
    its old lines followed by the lines of the text, joined and
    stripped. *)
Theorem append_then_read_section
  (body section text_ : str) (s e L : nat) :
  _find_section_bounds (split_nl body) section = inr (s, e, L) ->
  Forall (fun l => ~ heading_upto L l) (split_nl text_) ->
  exists body',
    append_section_body body section text_ = inr body'
    /\ split_nl body'
       = firstn e (split_nl body) ++ split_nl text_
         ++ skipn e (split_nl body)
    /\ _find_section_bounds (split_nl body') section
       = inr (s, e + List.length (split_nl text_), L)
    /\ read_section_body body' section
       = inr (strip (join_nl (section_lines (split_nl body) s e
                              ++ split_nl text_))).
Proof.
  intros Hb Ht. apply not_heading_upto in Ht.
  destruct (section_shape _ _ Hb) as [Hs [He [_ [_ [_ [Hsec _]]]]]].
  assert (Hlines := split_nl_lines body).
  assert (Hfe : firstn e (split_nl body)
                = firstn s (split_nl body)
                  ++ section_lines (split_nl body) s e).
  { unfold section_lines. rewrite <- firstn_add. f_equal. lia. }
  assert (Hsplit :
    split_nl (join_nl (firstn e (split_nl body) ++ [text_]
                       ++ skipn e (split_nl body)))
    = firstn s (split_nl body)
      ++ (section_lines (split_nl body) s e ++ split_nl text_)
      ++ skipn e (split_nl body)).
  { rewrite split_join_flat
      by (intros E; apply (f_equal (@List.length str)) in E;
          rewrite !length_app in E; simpl in E; lia).
    rewrite !flat_map_app. cbn [flat_map]. rewrite app_nil_r.
    rewrite (flat_map_split_lines (Forall_firstn _ Hlines)).
    rewrite (flat_map_split_lines (Forall_skipn _ Hlines)).
    rewrite Hfe, <- !app_assoc. reflexivity. }
  assert (Hmid : Forall (fun l => section_end_match L l = false)
                   (section_lines (split_nl body) s e ++ split_nl text_))
    by (apply Forall_app; split; assumption).
  destruct (section_replaced _ _ Hb Hmid) as [Hb2 [_ [_ [Hsec2 _]]]].
  assert (Hlen : List.length (section_lines (split_nl body) s e
                              ++ split_nl text_)
                 = e - s + List.length (split_nl text_)).
  { unfold section_lines.
    rewrite length_app, length_firstn, length_skipn. lia. }
  rewrite Hlen in Hb2, Hsec2.
  replace (s + (e - s + List.length (split_nl text_)))
    with (e + List.length (split_nl text_)) in Hb2, Hsec2 by lia.
  unfold append_section_body. rewrite Hb.
  eexists. split; [reflexivity|].
  rewrite Hsplit. split.
  - rewrite Hfe, <- !app_assoc. reflexivity.
  - split; [exact Hb2|].
    unfold read_section_body. rewrite Hsplit, Hb2.
    fold (section_lines
            (firstn s (split_nl body)
             ++ (section_lines (split_nl body) s e ++ split_nl text_)
             ++ skipn e (split_nl body))
            s (e + List.length (split_nl text_))).
    rewrite Hsec2. reflexivity.
Qed.

(** X6: later section edits undo an update.  After an [update_section]
    whose content has no line ending a section of the matched level, a
    second update of the same section gives the body a direct update with
    the second content gives, and [delete_section] gives the body it gives
    on the original: the last write wins and nothing of the first content
    is left. *)
Theorem update_section_overwritten
  (body section c1 c2 : str) (s e L : nat) :
  _find_section_bounds (split_nl body) section = inr (s, e, L) ->
  Forall (fun l => ~ heading_upto L l) (split_nl c1) ->
  exists body1,
    update_section_body body section c1 = inr body1
    /\ update_section_body body1 section c2
       = update_section_body body section c2
    /\ delete_section_body body1 section = delete_section_body body section.
Proof.
  intros Hb Hc. apply not_heading_upto in Hc.
  destruct (update_section_lines body section c1 Hb) as [body1 [Hu Hsplit]].
  exists body1. split; [exact Hu|].
  destruct (section_replaced _ _ Hb Hc) as [Hb2 [Hpre [Hh [_ Hpost]]]].
  rewrite <- Hsplit in Hb2, Hpre, Hh, Hpost.
  unfold update_section_body, delete_section_body.
  rewrite Hb, Hb2, Hpre, Hh, Hpost. split; reflexivity.
Qed.


Lemma heading_check_matches_headings_witness :
  validate_headings (lit "# " ++ [1046%N]) = inl InvalidHeadingError.
Proof.
  apply (proj1 (heading_check_matches_headings (lit "# " ++ [1046%N]))).
  eexists. split; [left; reflexivity | reflexivity].
Defined.

Lemma update_then_read_section_witness :
  let body := join_nl [lit "# A"; lit "old"; lit "# B"; lit "kept"] in
  exists body',
    update_section_body body (lit "A") (lit "new") = inr body'
    /\ read_section_body body' (lit "A") = inr (lit "new").
Proof.
  intros body.
  assert (Hc : Forall (fun l => ~ heading_upto 1 l) (split_nl (lit "new"))).
  { constructor; [|constructor]. intros [Hr _]. vm_compute in Hr. lia. }
  destruct (@update_then_read_section body (lit "A") (lit "new") 1 2 1
              eq_refl Hc) as [body' [Hu [_ [_ Hr]]]].
  exists body'. split; assumption.
Defined.

Lemma append_then_read_section_witness :
  let body := join_nl [lit "# A"; lit "old"; lit "# B"; lit "kept"] in
  exists body',
    append_section_body body (lit "A") (lit "more") = inr body'
    /\ read_section_body body' (lit "A")
       = inr (join_nl [lit "old"; lit "more"]).
Proof.
  intros body.
  assert (Hc : Forall (fun l => ~ heading_upto 1 l) (split_nl (lit "more"))).
  { constructor; [|constructor]. intros [Hr _]. vm_compute in Hr. lia. }
  destruct (@append_then_read_section body (lit "A") (lit "more") 1 2 1
              eq_refl Hc) as [body' [Hu [_ [_ Hr]]]].
  exists body'. split; assumption.
Defined.

Lemma update_section_overwritten_witness :
  let body := join_nl [lit "# A"; lit "old"; lit "# B"; lit "kept"] in
  exists body1,
    update_section_body body (lit "A") (lit "new") = inr body1
    /\ delete_section_body body1 (lit "A") = inr (join_nl [lit "# B"; lit "kept"]).
Proof.
  intros body.
  assert (Hc : Forall (fun l => ~ heading_upto 1 l) (split_nl (lit "new"))).
  { constructor; [|constructor]. intros [Hr _]. vm_compute in Hr. lia. }
  destruct (@update_section_overwritten body (lit "A") (lit "new") (lit "x")
              1 2 1 eq_refl Hc) as [body1 [Hu [_ Hd]]].
  exists body1. split; [exact Hu|]. rewrite Hd. reflexivity.
Defined.


(** ** Dictionaries by key *)

Section DictFacts.

Variables K V : Type.
Variable eqb : K -> K -> bool.
Hypothesis eqb_eq : forall a b, eqb a b = true <-> a = b.

Lemma eqb_same (a : K) : eqb a a = true.
Proof. apply eqb_eq. reflexivity. Qed.

Lemma eqb_trans_false (a b c : K) :
  eqb a b = true -> eqb b c = false -> eqb a c = false.
Proof.
  intros Hab Hbc. apply eqb_eq in Hab. subst b. exact Hbc.
Qed.

Lemma dict_get_set (k k' : K) (x : V) (d : list (K * V)) :
  dict_get eqb k (dict_set eqb k' x d)
  = if eqb k k' then Some x else dict_get eqb k d.
Proof.
  induction d as [|[k0 v0] d IH]; simpl; [reflexivity|].
  destruct (eqb k' k0) eqn:E1; simpl.
  - apply eqb_eq in E1. subst k0. destruct (eqb k k'); reflexivity.
  - destruct (eqb k k0) eqn:E2.
    + apply eqb_eq in E2. subst k0.
      destruct (eqb k k') eqn:E3; [|reflexivity].
      apply eqb_eq in E3. subst k'. rewrite eqb_same in E1. discriminate.
    + exact IH.
Qed.

Lemma dict_get_keys (k : K) (d : list (K * V)) :
  dict_mem eqb k d = true <-> In k (List.map fst d).
Proof.
  unfold dict_mem. induction d as [|[k0 v0] d IH]; simpl.
  - split; [discriminate | tauto].
  - destruct (eqb k k0) eqn:E.
    + apply eqb_eq in E. subst k0. split; auto.
    + rewrite IH. split; [auto|].
      intros [E'|Hin]; [|exact Hin]. subst k0.
      rewrite eqb_same in E. discriminate.
Qed.

(** Assigning to a key that is there keeps the keys; to a new key, puts
    it last. *)
Lemma dict_set_paths (k : K) (x : V) (d : list (K * V)) :
  List.map fst (dict_set eqb k x d)
  = if dict_mem eqb k d then List.map fst d else List.map fst d ++ [k].
Proof.
  unfold dict_mem. induction d as [|[k0 v0] d IH]; simpl; [reflexivity|].
  destruct (eqb k k0) eqn:E; simpl; [reflexivity|].
  rewrite IH. destruct (dict_get eqb k d); reflexivity.
Qed.

Lemma dict_set_new (k : K) (x : V) (d : list (K * V)) :
  dict_mem eqb k d = false -> dict_set eqb k x d = d ++ [(k, x)].
Proof.
  unfold dict_mem. induction d as [|[k0 v0] d IH]; simpl; [reflexivity|].
  destruct (eqb k k0) eqn:E; [discriminate|].
  intros Hd. rewrite IH by exact Hd. reflexivity.
Qed.

Lemma dict_del_paths (k : K) (d : list (K * V)) :
  NoDup (List.map fst d) ->
  NoDup (List.map fst (dict_del eqb k d))
  /\ forall p, In p (List.map fst (dict_del eqb k d))
               <-> In p (List.map fst d) /\ p <> k.
Proof.
  induction d as [|[k0 v0] d IH]; simpl; intros Hnd.
  - split; [constructor|]. intros p. tauto.
  - inversion Hnd as [|? ? Hnot Hnd']; subst.
    destruct (eqb k k0) eqn:E.
    + apply eqb_eq in E. subst k0. split; [exact Hnd'|].
      intros p. split.
      * intros Hp. split; [right; exact Hp|]. intros ->. contradiction.
      * intros [[E|Hp] Hne]; [congruence | exact Hp].
    + destruct (IH Hnd') as [Hnd2 Hin]. simpl. split.
      * constructor; [|exact Hnd2]. intros Hp. apply Hin in Hp. tauto.
      * intros p. rewrite Hin. split.
        -- intros [<-|[Hp Hne]]; [|tauto].
           split; [left; reflexivity|]. intros ->.
           rewrite eqb_same in E. discriminate.
        -- intros [[<-|Hp] Hne]; [left; reflexivity | right; tauto].
Qed.

End DictFacts.

Lemma find_app (A : Type) (f : A -> bool) (l1 l2 : list A) :
  find f (l1 ++ l2)
  = match find f l1 with Some x => Some x | None => find f l2 end.
Proof.
  induction l1 as [|x l1 IH]; simpl; [reflexivity|].
  destruct (f x); [reflexivity | exact IH].
Qed.

Lemma find_first (A : Type) (f : A -> bool) (l : list A) (x : A) :
  In x l -> f x = true -> exists y, find f l = Some y.
Proof.
  induction l as [|a l IH]; intros Hin Hx; [destruct Hin|]. simpl.
  destruct (f a) eqn:Ea; [eauto|].
  destruct Hin as [->|Hin]; [congruence | exact (IH Hin Hx)].
Qed.

(** ** Prefixes and file names *)

Lemma strip_prefix_app (p t : str) : strip_prefix p (p ++ t) = Some t.
Proof.
  induction p as [|c p IH]; simpl; [destruct t; reflexivity|].
  rewrite N.eqb_refl. exact IH.
Qed.

Lemma strip_prefix_some (p s t : str) :
  strip_prefix p s = Some t -> s = p ++ t.
Proof.
  revert s. induction p as [|c p IH]; intros s; simpl.
  - destruct s; intros [= <-]; reflexivity.
  - destruct s as [|d s]; [discriminate|].
    destruct (N.eqb_spec c d) as [->|Hne]; [|discriminate].
    intros Hs. rewrite (IH s Hs). reflexivity.
Qed.

Lemma endswith_app (p s : str) : endswith p (s ++ p) = true.
Proof.
  unfold endswith, startswith. rewrite rev_app_distr, strip_prefix_app.
  reflexivity.
Qed.

Lemma stem_note_file (nm : str) : stem (note_file nm) = nm.
Proof.
  unfold stem, note_file. cbn [last]. rewrite length_app.
  replace (List.length nm + List.length MD - 3) with (List.length nm + 0)
    by (change (List.length MD) with 3; lia).
  rewrite firstn_app_2. cbn [firstn]. apply app_nil_r.
Qed.

(** ** Moving a note *)

Lemma scan_files_in (fs : list (Path * str)) (e : Path * str) :
  In e (_scan_files fs) <-> In e fs /\ visible (fst e) = true.
Proof. unfold _scan_files. apply filter_In. Qed.

Lemma scan_files_path (fs : list (Path * str)) (p : Path) :
  (exists c, In (p, c) (_scan_files fs))
  <-> In p (List.map fst fs) /\ visible p = true.
Proof.
  split.
  - intros [c Hc]. apply scan_files_in in Hc. destruct Hc as [Hin Hv].
    split; [|exact Hv]. apply in_map_iff. exists (p, c). auto.
  - intros [Hin Hv]. apply in_map_iff in Hin.
    destruct Hin as [[q c] [Hq Hin]]. simpl in Hq. subst q.
    exists c. apply scan_files_in. auto.
Qed.

Lemma last_with_stem_none (nm : str) (fs : list (Path * str)) :
  (forall p, In p (List.map fst fs) -> visible p = true -> stem p <> nm) ->
  last_with_stem nm fs = None.
Proof.
  intros Hno. unfold last_with_stem.
  destruct (find _ _) as [f|] eqn:Ef; [|reflexivity].
  apply find_some in Ef. destruct Ef as [Hin Hs].
  apply in_rev, scan_files_in in Hin. destruct Hin as [Hin Hv].
  apply str_eqb_eq in Hs. exfalso.
  apply (Hno (fst f)); [apply in_map; exact Hin | exact Hv | congruence].
Qed.

Lemma last_with_stem_some (nm : str) (fs : list (Path * str))
  (f : Path * str) :
  last_with_stem nm fs = Some f ->
  In f (_scan_files fs) /\ stem (fst f) = nm.
Proof.
  unfold last_with_stem. intros Ef. apply find_some in Ef.
  destruct Ef as [Hin Hs]. apply in_rev in Hin. apply str_eqb_eq in Hs.
  auto.
Qed.

Lemma trash_hidden (nm : str) : visible [TRASH; nm] = false.
Proof.
  unfold visible. cbn [existsb]. 
  replace (hidden TRASH) with true by reflexivity.
  cbn [orb negb]. apply andb_false_r.
Qed.

(** ** Wikilink extraction and rewriting *)

Lemma run_length_le (p : char -> bool) (s : str) :
  run_length p s <= List.length s.
Proof.
  induction s as [|c s IH]; simpl; [lia|]. destruct (p c); simpl; lia.
Qed.

Lemma run_prefix_all (p : char -> bool) (s : str) :
  forallb p (firstn (run_length p s) s) = true.
Proof.
  induction s as [|c s IH]; simpl; [reflexivity|].
  destruct (p c) eqn:E; simpl; [rewrite E; exact IH | reflexivity].
Qed.

Lemma contains_head (needle s : str) :
  startswith needle s = true -> contains needle s = true.
Proof. intros Hs. destruct s; simpl; rewrite Hs; reflexivity. Qed.

Lemma contains_app_r (needle p s : str) :
  contains needle s = true -> contains needle (p ++ s) = true.
Proof.
  intros Hs. induction p as [|c p IH]; [exact Hs|].
  simpl. rewrite IH. apply orb_true_r.
Qed.

Lemma startswith_app (p t : str) : startswith p (p ++ t) = true.
Proof. unfold startswith. rewrite strip_prefix_app. reflexivity. Qed.

(** A match of the plain wikilink pattern: the text starts with the link
    to the target, and the target is a nonempty run of name characters. *)
Lemma wikilink_at_some (s t tl : str) :
  wikilink_at s = Some (t, tl) ->
  s = plain_link t ++ tl /\ t <> []
  /\ forallb link_name_char t = true.
Proof.
  unfold wikilink_at.
  destruct (strip_prefix [LBR; LBR] s) as [s'|] eqn:E1; [|discriminate].
  apply strip_prefix_some in E1.
  destruct (1 <=? run_length link_name_char s') eqn:En; [|discriminate].
  apply Nat.leb_le in En.
  destruct (strip_prefix [RBR; RBR] (skipn _ s')) as [r|] eqn:E2;
    [|discriminate].
  apply strip_prefix_some in E2. intros [= <- <-].
  split; [|split].
  - unfold plain_link. rewrite E1, <- !app_assoc. do 2 f_equal.
    change ([RBR; RBR] ++ r) with ([RBR; RBR] ++ r). rewrite <- E2.
    symmetry. apply firstn_skipn.
  - intros Hnil. apply (f_equal (@List.length char)) in Hnil.
    rewrite length_firstn in Hnil. simpl in Hnil.
    pose proof (run_length_le link_name_char s'). lia.
  - apply run_prefix_all.
Qed.

Lemma findall_wikilinks_sound (fuel : nat) :
  forall s t, In t (findall_wikilinks fuel s) ->
  t <> [] /\ forallb link_name_char t = true
  /\ contains (plain_link t) s = true.
Proof.
  induction fuel as [|fuel IH]; intros s t; cbn [findall_wikilinks];
    [intros []|].
  destruct (wikilink_at s) as [[t0 tl]|] eqn:E.
  - apply wikilink_at_some in E. destruct E as [Hs [Hne Hall]].
    intros [<-|Hin].
    + split; [exact Hne|]. split; [exact Hall|].
      apply contains_head. rewrite Hs. apply startswith_app.
    + destruct (IH tl t Hin) as [H1 [H2 H3]].
      split; [exact H1|]. split; [exact H2|].
      rewrite Hs. apply contains_app_r. exact H3.
  - destruct s as [|c s]; [intros []|]. intros Hin.
    destruct (IH s t Hin) as [H1 [H2 H3]].
    split; [exact H1|]. split; [exact H2|].
    apply (contains_app_r _ [c]). exact H3.
Qed.

(** X14: what [_extract_wikilinks] returns.  Every target it lists is
    nonempty, has no closing bracket, pipe or hash in it, and stands in
    the body between double brackets; so an aliased link or a link to a
    section is never listed. *)
Theorem extract_wikilinks_sound (body t : str) :
  In t (_extract_wikilinks body) ->
  t <> []
  /\ (forall c, In c t -> c <> RBR /\ c <> PIPE /\ c <> HASH)
  /\ contains (plain_link t) body = true.
Proof.
  intros Hin. apply findall_wikilinks_sound in Hin.
  destruct Hin as [H1 [H2 H3]]. split; [exact H1|]. split; [|exact H3].
  intros c Hc. rewrite forallb_forall in H2. specialize (H2 c Hc).
  unfold link_name_char in H2. apply negb_true_iff in H2.
  apply orb_false_iff in H2. destruct H2 as [H2 Hh].
  apply orb_false_iff in H2. destruct H2 as [Hr Hp].
  apply N.eqb_neq in Hr, Hp, Hh. auto.
Qed.




(** ** Serializing and parsing a note *)

Lemma contains_tail (needle : str) (c : char) (s : str) :
  contains needle (c :: s) = false ->
  startswith needle (c :: s) = false /\ contains needle s = false.
Proof. simpl. intros Hc. apply orb_false_iff in Hc. exact Hc. Qed.

Lemma replace_all_fuel_absent (old new : str) (fuel : nat) :
  forall s, old <> [] -> contains old s = false ->
  replace_all_fuel fuel old new s = s.
Proof.
  induction fuel as [|fuel IH]; intros s Hold Hs; [reflexivity|].
  cbn [replace_all_fuel]. destruct old as [|o old']; [congruence|].
  destruct s as [|c s].
  - reflexivity.
  - apply contains_tail in Hs. destruct Hs as [Hhd Htl].
    unfold startswith in Hhd.
    destruct (strip_prefix (o :: old') (c :: s)); [discriminate|].
    rewrite (IH s Hold Htl). reflexivity.
Qed.

Lemma replace_all_absent (old new s : str) :
  old <> [] -> contains old s = false -> replace_all old new s = s.
Proof. intros Hold Hs. apply replace_all_fuel_absent; assumption. Qed.

Lemma drop_while_head (p : char -> bool) (s : str) :
  match s with c :: _ => p c = false | [] => True end ->
  drop_while p s = s.
Proof. destruct s as [|c s]; simpl; [reflexivity|]. intros ->. reflexivity. Qed.

(** The closing line of a front matter block is found right behind a text
    that does not hold a newline followed by three dashes. *)
Lemma find_close_app (d rest : str) :
  contains (NL :: lit "---") d = false ->
  find_close (d ++ NL :: lit "---" ++ rest) = Some (d, rest).
Proof.
  induction d as [|c d IH]; intros Hd.
  - cbn [app]. destruct rest; reflexivity.
  - apply contains_tail in Hd. destruct Hd as [Hhd Htl].
    assert (Hno : strip_prefix (NL :: lit "---")
                    ((c :: d) ++ NL :: lit "---" ++ rest) = None).
    { clear IH Htl. unfold startswith in Hhd.
      change (lit "---") with [DASH; DASH; DASH] in Hhd |- *.
      cbn [app strip_prefix] in Hhd |- *.
      destruct (N.eqb NL c); [|reflexivity].
      destruct d as [|x d]; [reflexivity|].
      cbn [app strip_prefix] in Hhd |- *.
      destruct (N.eqb DASH x); [|reflexivity].
      destruct d as [|y d]; [reflexivity|].
      cbn [app strip_prefix] in Hhd |- *.
      destruct (N.eqb DASH y); [|reflexivity].
      destruct d as [|z d]; [reflexivity|].
      cbn [app strip_prefix] in Hhd |- *.
      destruct (N.eqb DASH z); [discriminate | reflexivity]. }
    change ((c :: d) ++ NL :: lit "---" ++ rest)
      with (c :: (d ++ NL :: lit "---" ++ rest)) in *.
    cbn [find_close]. rewrite Hno, (IH Htl). reflexivity.
Qed.

(** ** Rewriting a file in place *)

Lemma dict_set_there (x : str) (d : list (Path * str)) (k : Path) :
  NoDup (List.map fst d) -> dict_mem path_eqb k d = true ->
  dict_set path_eqb k x d
  = List.map (fun e => if path_eqb k (fst e) then (fst e, x) else e) d.
Proof.
  unfold dict_mem. induction d as [|[k0 x0] d IH]; simpl; intros Hnd Hm;
    [discriminate|].
  inversion Hnd as [|? ? Hnot Hnd']; subst.
  destruct (path_eqb k k0) eqn:E.
  - f_equal. apply path_eqb_eq in E. subst k0.
    symmetry. rewrite <- (map_id d) at 2. apply map_ext_in.
    intros [q y] Hin. simpl.
    destruct (path_eqb k q) eqn:Eq; [|reflexivity].
    apply path_eqb_eq in Eq. subst q. exfalso. apply Hnot.
    apply in_map_iff. exists (k, y). auto.
  - f_equal. exact (IH Hnd' Hm).
Qed.

Lemma filter_map_comm (A : Type) (f : A -> bool) (g : A -> A) (l : list A) :
  (forall a, f (g a) = f a) ->
  filter f (List.map g l) = List.map g (filter f l).
Proof.
  intros Hf. induction l as [|a l IH]; [reflexivity|].
  simpl. rewrite Hf, IH. destruct (f a); reflexivity.
Qed.

Lemma scan_files_map (g : Path * str -> Path * str) (fs : list (Path * str)) :
  (forall e, fst (g e) = fst e) ->
  _scan_files (List.map g fs) = List.map g (_scan_files fs).
Proof.
  intros Hg. unfold _scan_files. apply filter_map_comm.
  intros e. cbv beta. rewrite Hg. reflexivity.
Qed.

Lemma find_map_path (g : Path * str -> Path * str) (test : Path -> bool)
  (l : list (Path * str)) :
  (forall e, fst (g e) = fst e) ->
  find (fun f => test (fst f)) (List.map g l)
  = option_map g (find (fun f => test (fst f)) l).
Proof.
  intros Hg. induction l as [|e l IH]; [reflexivity|].
  simpl. rewrite Hg. destruct (test (fst e)); [reflexivity | exact IH].
Qed.

(** Writing to the file a name resolves to keeps the name on that file. *)
Lemma last_with_stem_set (nm c : str) (fs : list (Path * str))
  (f0 : Path * str) :
  NoDup (List.map fst fs) ->
  last_with_stem nm fs = Some f0 ->
  last_with_stem nm (dict_set path_eqb (fst f0) c fs) = Some (fst f0, c).
Proof.
  intros Hnd Hl.
  assert (Hin : In f0 (_scan_files fs) /\ stem (fst f0) = nm)
    by exact (@last_with_stem_some nm fs f0 Hl).
  destruct Hin as [Hin _]. apply scan_files_in in Hin.
  destruct Hin as [Hin _].
  assert (Hm : dict_mem path_eqb (fst f0) fs = true).
  { apply (dict_get_keys path_eqb path_eqb_eq). apply in_map. exact Hin. }
  rewrite (@dict_set_there c fs (fst f0) Hnd Hm).
  set (g := fun e : Path * str =>
              if path_eqb (fst f0) (fst e) then (fst e, c) else e).
  assert (Hg : forall e, fst (g e) = fst e).
  { intros e. unfold g. destruct (path_eqb (fst f0) (fst e)); reflexivity. }
  unfold last_with_stem in *.
  rewrite (@scan_files_map g fs Hg), <- map_rev.
  rewrite (@find_map_path g (fun p => str_eqb nm (stem p)) _ Hg), Hl.
  simpl. unfold g. rewrite (eqb_same path_eqb path_eqb_eq). reflexivity.
Qed.



(** ** Counting and replacing *)

Lemma strip_prefix_length (p s t : str) :
  strip_prefix p s = Some t -> List.length s = List.length p + List.length t.
Proof.
  intros Hs. apply strip_prefix_some in Hs. subst s. apply length_app.
Qed.

Lemma count_replace_fuel (old new : str) (fuel : nat) :
  forall s, List.length s < fuel ->
  (contains old s = true <-> 1 <= count_fuel fuel old s)
  /\ List.length (replace_all_fuel fuel old new s)
     + count_fuel fuel old s * List.length old
     = List.length s + count_fuel fuel old s * List.length new.
Proof.
  induction fuel as [|fuel IH]; intros s Hlen; [lia|].
  cbn [count_fuel replace_all_fuel]. destruct old as [|o old'].
  - destruct s as [|c s].
    + simpl. split; [split; [lia | reflexivity] | lia].
    + assert (Hs : List.length s < fuel) by (simpl in Hlen; lia).
      destruct (IH s Hs) as [_ Hl]. split.
      * split; [lia | reflexivity].
      * simpl in *. rewrite length_app. simpl. lia.
  - destruct (strip_prefix (o :: old') s) as [tl|] eqn:E.
    + assert (Htl : List.length tl < fuel).
      { apply strip_prefix_length in E. simpl in E. lia. }
      destruct (IH tl Htl) as [_ Hl]. split.
      * split; [lia|]. intros _. apply contains_head.
        unfold startswith. rewrite E. reflexivity.
      * apply strip_prefix_length in E. rewrite length_app.
        simpl in *. lia.
    + destruct s as [|c s].
      * split; [|simpl; lia]. simpl. split; [discriminate | lia].
      * assert (Hs : List.length s < fuel) by (simpl in Hlen; lia).
        destruct (IH s Hs) as [Hc Hl]. split.
        -- rewrite <- Hc. cbn [contains]. unfold startswith. rewrite E.
           reflexivity.
        -- simpl in *. lia.
Qed.

(** ** Stripping *)

Lemma drop_while_app_all (p : char -> bool) (u v : str) :
  forallb p u = true -> drop_while p (u ++ v) = drop_while p v.
Proof.
  induction u as [|c u IH]; intros Hu; [reflexivity|]. simpl in *.
  apply andb_true_iff in Hu. destruct Hu as [-> Hu]. exact (IH Hu).
Qed.

Lemma drop_while_split (p : char -> bool) (s : str) :
  s = firstn (run_length p s) s ++ drop_while p s.
Proof.
  induction s as [|c s IH]; [reflexivity|]. simpl.
  destruct (p c); [simpl; f_equal; exact IH | reflexivity].
Qed.

Lemma drop_while_stops (p : char -> bool) (s : str) :
  match drop_while p s with c :: _ => p c = false | [] => True end.
Proof.
  induction s as [|c s IH]; [exact I|]. simpl.
  destruct (p c) eqn:E; [exact IH | exact E].
Qed.

Lemma forallb_rev (p : char -> bool) (s : str) :
  forallb p (rev s) = forallb p s.
Proof.
  induction s as [|c s IH]; [reflexivity|]. simpl.
  rewrite forallb_app, IH. simpl. rewrite andb_true_r. apply andb_comm.
Qed.

(** A text is its strip between two runs of whitespace, and the strip,
    when not empty, ends with a character that is no whitespace. *)
Lemma strip_split (s : str) :
  exists a b d,
    s = a ++ strip s ++ b /\ forallb is_space a = true
    /\ forallb is_space b = true /\ strip s = rev d
    /\ match d with c :: _ => is_space c = false | [] => True end.
Proof.
  unfold strip, rstrip, lstrip.
  exists (firstn (run_length is_space s) s).
  set (y := drop_while is_space s).
  exists (rev (firstn (run_length is_space (rev y)) (rev y))).
  exists (drop_while is_space (rev y)).
  split; [|split; [|split; [|split]]].
  - rewrite <- rev_app_distr, <- drop_while_split, rev_involutive.
    apply drop_while_split.
  - apply run_prefix_all.
  - rewrite forallb_rev. apply run_prefix_all.
  - reflexivity.
  - apply drop_while_stops.
Qed.

Lemma rstrip_keep (x b d : str) (c : char) :
  forallb is_space b = true -> is_space c = false ->
  rstrip (x ++ rev (c :: d) ++ b) = x ++ rev (c :: d).
Proof.
  intros Hb Hc. unfold rstrip.
  rewrite !rev_app_distr, rev_involutive, <- app_assoc.
  rewrite drop_while_app_all by (rewrite forallb_rev; exact Hb).
  cbn [app drop_while]. rewrite Hc.
  change (c :: d ++ rev x) with ((c :: d) ++ rev x).
  rewrite rev_app_distr, rev_involutive. reflexivity.
Qed.

Lemma strip_idem (s : str) : strip (strip s) = strip s.
Proof.
  destruct (strip_split s) as [a [b [d [_ [_ [_ [Hd Hc]]]]]]].
  rewrite Hd. destruct d as [|c d]; [reflexivity|].
  unfold strip at 1.
  assert (Hl : lstrip (rev (c :: d)) = rev (c :: d)).
  { unfold lstrip. rewrite <- Hd. unfold strip, rstrip, lstrip.
    set (y := drop_while is_space s).
    assert (Hy := drop_while_stops is_space s). fold y in Hy.
    assert (Hsplit := drop_while_split is_space (rev y)).
    apply (f_equal (@rev char)) in Hsplit.
    rewrite rev_involutive, rev_app_distr in Hsplit.
    destruct (rev (drop_while is_space (rev y))) as [|z t] eqn:Ez;
      [reflexivity|].
    rewrite Hsplit in Hy. cbn [app] in Hy. simpl. rewrite Hy. reflexivity. }
  rewrite Hl.
  rewrite <- (app_nil_r (rev (c :: d))) at 1.
  rewrite <- (app_nil_l (rev (c :: d) ++ [])).
  rewrite (@rstrip_keep [] [] d c eq_refl Hc). reflexivity.
Qed.

(** ** Headings as section selectors *)

Lemma run_prefix_le (p : char -> bool) (s : str) :
  forall m, m <= run_length p s -> forallb p (firstn m s) = true.
Proof.
  induction s as [|c s IH]; intros m Hm; [rewrite firstn_nil; reflexivity|].
  destruct m as [|m]; [reflexivity|]. simpl in *.
  destruct (p c) eqn:E; [|lia]. apply IH. lia.
Qed.

Lemma run_length_app_ge (p : char -> bool) (u v : str) :
  forallb p u = true -> List.length u <= run_length p (u ++ v).
Proof.
  induction u as [|c u IH]; intros Hu; simpl; [lia|].
  simpl in Hu. apply andb_true_iff in Hu. destruct Hu as [-> Hu].
  specialize (IH Hu). lia.
Qed.

Lemma skipn_app_exact (A : Type) (u v : list A) :
  skipn (List.length u) (u ++ v) = v.
Proof. induction u as [|a u IH]; [reflexivity | exact IH]. Qed.

(** The stripped text of a heading line: the hashes, whitespace, and the
    heading text. *)
Lemma heading_line_shape (l g : str) (k : nat) :
  heading_match l = Some (k, g) ->
  exists H sp,
    strip l = H ++ sp ++ strip g
    /\ List.length H = k /\ 1 <= k
    /\ forallb is_hash H = true /\ forallb is_space sp = true.
Proof.
  unfold heading_match.
  set (k0 := run_length is_hash l). set (rest := skipn k0 l).
  set (w := run_length is_space rest).
  destruct ((1 <=? k0) && (1 <=? w) && (2 <=? List.length rest)) eqn:E;
    [|discriminate].
  intros [= <- <-].
  apply andb_true_iff in E. destruct E as [E _].
  apply andb_true_iff in E. destruct E as [Hk _]. apply Nat.leb_le in Hk.
  set (m := Nat.min w (List.length rest - 1)).
  assert (HH : forallb is_hash (firstn k0 l) = true) by apply run_prefix_all.
  assert (HS : forallb is_space (firstn m rest) = true)
    by (apply run_prefix_le; unfold m, w; lia).
  assert (Hlen : List.length (firstn k0 l) = k0).
  { rewrite length_firstn. pose proof (run_length_le is_hash l).
    unfold k0. lia. }
  assert (Hl : l = firstn k0 l ++ firstn m rest ++ skipn m rest).
  { rewrite (firstn_skipn m rest). unfold rest. symmetry.
    apply firstn_skipn. }
  assert (Hlstrip : lstrip l = l).
  { unfold lstrip. apply drop_while_head.
    destruct l as [|c l']; [exact I|].
    unfold k0 in Hk. simpl in Hk. destruct (is_hash c) eqn:Ec; [|lia].
    destruct (is_space c) eqn:Es; [|reflexivity].
    rewrite (hash_not_space _ Ec) in Es. discriminate. }
  exists (firstn k0 l).
  destruct (strip_split (skipn m rest)) as [a [b [d [Hg [Ha [Hb [Hd Hc]]]]]]].
  unfold strip at 1. rewrite Hlstrip.
  destruct d as [|c d].
  - exists []. rewrite Hd. cbn [rev app]. rewrite app_nil_r.
    split; [|repeat split; auto].
    assert (Hrev : exists h hs, firstn k0 l = rev (h :: hs)
                               /\ is_space h = false).
    { destruct (rev (firstn k0 l)) as [|h hs] eqn:Er.
      - apply (f_equal (@List.length char)) in Er.
        rewrite length_rev, Hlen in Er. simpl in Er. lia.
      - exists h, hs. split.
        + rewrite <- (rev_involutive (firstn k0 l)), Er. reflexivity.
        + assert (Hh : is_hash h = true).
          { rewrite <- forallb_rev, Er in HH. simpl in HH.
            apply andb_true_iff in HH. apply HH. }
          destruct (is_space h) eqn:Es; [|reflexivity].
          rewrite (hash_not_space _ Hh) in Es. discriminate. }
    destruct Hrev as [h [hs [Hrev Hh]]].
    rewrite Hl at 1. rewrite Hg, Hd. cbn [rev app]. rewrite Hrev.
    rewrite <- (app_nil_l (rev (h :: hs) ++ _)).
    rewrite (@rstrip_keep [] (firstn m rest ++ a ++ b) hs h); [reflexivity| |exact Hh].
    rewrite !forallb_app, HS, Ha, Hb. reflexivity.
  - exists (firstn m rest ++ a). split; [|repeat split; auto].
    + rewrite Hl at 1. rewrite Hg at 1. rewrite Hd.
      replace (firstn k0 l ++ firstn m rest ++ a ++ rev (c :: d) ++ b)
        with ((firstn k0 l ++ firstn m rest ++ a) ++ rev (c :: d) ++ b)
        by (rewrite <- !app_assoc; reflexivity).
      rewrite (@rstrip_keep _ b d c Hb Hc), <- !app_assoc. reflexivity.
    + rewrite forallb_app, HS, Ha. reflexivity.
Qed.

Lemma bare_heading_match_some (sel l tl : str) (k j : nat) :
  1 <= k <= run_length is_hash l ->
  j <= run_length is_space (skipn k l) ->
  strip_prefix sel (skipn j (skipn k l)) = Some tl ->
  forallb is_space tl = true ->
  exists L, bare_heading_match sel l = Some L.
Proof.
  intros Hk Hj Hs Htl. unfold bare_heading_match.
  apply (@find_first _ _ _ k).
  - apply in_rev. rewrite rev_involutive. apply in_seq. lia.
  - cbv zeta. apply existsb_exists. exists j. split.
    + apply in_rev. rewrite rev_involutive. apply in_seq. lia.
    + rewrite Hs. exact Htl.
Qed.

Lemma heading_selectable (l g : str) (k : nat) :
  heading_match l = Some (k, g) ->
  startswith [HASH] (strip g) = false ->
  exists L, section_search (strip g) (strip l) = Some L.
Proof.
  intros Hm Hh.
  destruct (heading_line_shape _ Hm) as [H [sp [Hl [Hlen [Hk [HH Hsp]]]]]].
  unfold section_search. rewrite strip_idem, Hh, Hl.
  apply (@bare_heading_match_some _ _ [] k (List.length sp)).
  - split; [exact Hk|]. rewrite <- Hlen. apply run_length_app_ge. exact HH.
  - rewrite <- Hlen, skipn_app_exact. apply run_length_app_ge. exact Hsp.
  - rewrite <- Hlen, !skipn_app_exact.
    rewrite <- (app_nil_r (strip g)) at 2. apply strip_prefix_app.
  - reflexivity.
Qed.

Lemma find_start_exists (search : str -> option nat) (lines : list str)
  (l : str) (L : nat) :
  In l lines -> search (strip l) = Some L ->
  forall i, exists s L', find_start search i lines = Some (s, L').
Proof.
  induction lines as [|l0 lines IH]; intros Hin Hs i; [destruct Hin|].
  simpl. destruct (search (strip l0)) as [L0|] eqn:E; [eauto|].
  destruct Hin as [->|Hin]; [congruence|]. exact (IH Hin Hs (S i)).
Qed.

(** X27: a heading can be selected by its text.  Every heading that
    [get_headings] lists for a body, with a text that does not start with
    a hash, is found by [_find_section_bounds] when its text is given as
    the section, so [read_section] with that text does not raise
    [SectionNotFoundError]. *)
Theorem headings_are_selectable (body : str) (h : Heading) :
  In h (headings_of_body body) ->
  startswith [HASH] (text h) = false ->
  (exists s e L,
     _find_section_bounds (split_nl body) (text h) = inr (s, e, L))
  /\ exists content, read_section_body body (text h) = inr content.
Proof.
  intros Hin Hh.
  destruct (headings_outside_fences_aux body) as [rs [un [_ Hv]]].
  rewrite Hv in Hin. apply in_visible_headings in Hin.
  destruct Hin as [j [l [Hj [_ Hl]]]].
  unfold heading_of in Hl.
  destruct (heading_match l) as [[k g]|] eqn:Em; [|destruct Hl].
  destruct Hl as [<-|[]]. cbn [text] in *.
  destruct (heading_selectable _ Em Hh) as [L HL].
  destruct (@find_start_exists (section_search (strip g)) (split_nl body)
              l L (nth_error_In _ _ Hj) HL 0) as [s [L' Hs]].
  assert (Hb : _find_section_bounds (split_nl body) (strip g)
               = inr (s, find_end L' s (skipn s (split_nl body)), L')).
  { rewrite find_section_bounds_search, Hs. reflexivity. }
  split; [eauto|]. unfold read_section_body. rewrite Hb. eauto.
Qed.

(** ** The cached index follows the files *)

Section EngineLaws.

Context `{Collaborators}.

Lemma coherent_rebuilt (v : Vault) : coherent (rebuilt v).
Proof. intros idx [= <-]. reflexivity. Qed.

Lemma keeps_still (A : Type) (m : M A) :
  (forall v, snd (m v) = v) -> keeps m.
Proof.
  intros Hm v a v' Hv E. specialize (Hm v). rewrite E in Hm.
  simpl in Hm. subst v'. exact Hv.
Qed.

Lemma keeps_ret (A : Type) (a : A) : keeps (ret a).
Proof. apply keeps_still. reflexivity. Qed.

Lemma keeps_raise (A : Type) (e : error) : keeps (@raise A e).
Proof. apply keeps_still. reflexivity. Qed.

Lemma keeps_lift (A : Type) (r : result A) : keeps (lift r).
Proof. apply keeps_still. reflexivity. Qed.

Lemma keeps_read_text (p : Path) : keeps (read_text p).
Proof.
  apply keeps_still. intros v. unfold read_text.
  destruct (dict_get path_eqb p (files v)); reflexivity.
Qed.

Lemma keeps_exists (p : Path) : keeps (exists_ p).
Proof. apply keeps_still. reflexivity. Qed.

Lemma keeps_the_index : keeps the_index.
Proof.
  apply keeps_still. intros v. unfold the_index.
  destruct (index v); reflexivity.
Qed.

Lemma keeps_bind (A B : Type) (m : M A) (f : A -> M B) :
  keeps m -> (forall a, keeps (f a)) -> keeps (bind m f).
Proof.
  intros Hm Hf v b v' Hv. unfold bind.
  destruct (m v) as [[e|a] v1] eqn:E; [discriminate|].
  intros E'. exact (Hf a v1 b v' (Hm v a v1 Hv E) E').
Qed.

Lemma ends_fresh_refresh : ends_fresh refresh.
Proof.
  intros v a v'. rewrite refresh_run. intros [= _ <-]. apply coherent_rebuilt.
Qed.

Lemma ends_fresh_raise (A : Type) (e : error) : ends_fresh (@raise A e).
Proof. intros v a v'. discriminate. Qed.

Lemma ends_fresh_then (A B : Type) (m : M A) (f : A -> M B) :
  ends_fresh m -> (forall a, keeps (f a)) -> ends_fresh (bind m f).
Proof.
  intros Hm Hf v b v'. unfold bind.
  destruct (m v) as [[e|a] v1] eqn:E; [discriminate|].
  intros E'. exact (Hf a v1 b v' (Hm v a v1 E) E').
Qed.

Lemma ends_fresh_after (A B : Type) (m : M A) (f : A -> M B) :
  (forall a, ends_fresh (f a)) -> ends_fresh (bind m f).
Proof.
  intros Hf v b v'. unfold bind.
  destruct (m v) as [[e|a] v1] eqn:E; [discriminate|].
  apply Hf.
Qed.

Lemma keeps_of_ends_fresh (A : Type) (m : M A) : ends_fresh m -> keeps m.
Proof. intros Hm v a v' _. apply Hm. Qed.

Lemma keeps_ensure_index : keeps _ensure_index.
Proof.
  intros v a v' Hv. rewrite ensure_index_run.
  destruct (index v) eqn:E; intros [= _ <-]; [exact Hv | apply coherent_rebuilt].
Qed.

(** [get_note] leaves a coherent cache whatever its outcome. *)
Lemma get_note_coherent (nm : str) (v v' : Vault) (r : result Note) :
  coherent v -> get_note nm v = (r, v') -> coherent v'.
Proof.
  intros Hv. destruct (index v) as [idx|] eqn:E.
  - rewrite (get_note_cached nm v E).
    destruct (dict_get str_eqb nm (_notes idx)).
    + intros [= <- <-]. exact Hv.
    + destruct (dict_get str_eqb nm (_notes (build_index (files v))));
        intros [= <- <-]; apply coherent_rebuilt.
  - rewrite (get_note_lazy nm v E).
    destruct (dict_get str_eqb nm (_notes (build_index (files v))));
      intros [= <- <-]; apply coherent_rebuilt.
Qed.

Lemma keeps_get_note (nm : str) : keeps (get_note nm).
Proof. intros v a v' Hv E. exact (get_note_coherent nm Hv E). Qed.

Lemma keeps_catch_get_note (nm : str) :
  keeps (catch_not_found (get_note nm)).
Proof.
  intros v a v' Hv. unfold catch_not_found.
  destruct (get_note nm v) as [[e|note] v1] eqn:E.
  - destruct e; try discriminate. intros [= <- <-].
    exact (get_note_coherent nm Hv E).
  - intros [= <- <-]. exact (get_note_coherent nm Hv E).
Qed.

Ltac keeps_step :=
  first
    [ apply keeps_ret | apply keeps_raise | apply keeps_lift
    | apply keeps_read_text | apply keeps_exists | apply keeps_the_index
    | apply keeps_ensure_index | apply keeps_get_note
    | apply keeps_catch_get_note
    | apply keeps_bind; [|intro]
    | match goal with
      | |- keeps (if ?b then _ else _) => destruct b
      | |- keeps (match ?x with _ => _ end) => destruct x
      end ].

Ltac keeps_tac := repeat keeps_step.

Lemma keeps_get_headings (nm : str) : keeps (get_headings nm).
Proof. unfold get_headings. keeps_tac. Qed.

Lemma keeps_validate_links_loop (ms : list (str * option str)) :
  forall acc, keeps (validate_links_loop ms acc).
Proof.
  induction ms as [|[g1 g2] ms IH]; intros acc; cbn [validate_links_loop].
  - apply keeps_ret.
  - apply keeps_bind; [apply keeps_catch_get_note | intros found].
    destruct found as [note|]; [|apply IH].
    destruct (match g2 with Some s => strip s | None => [] end); [apply IH|].
    apply keeps_bind; [apply keeps_get_headings | intros hs].
    destruct (existsb _ _); [apply IH | apply keeps_raise].
Qed.

Lemma keeps_validate_wikilinks (content : str) :
  keeps (_validate_wikilinks content).
Proof. apply keeps_validate_links_loop. Qed.

Lemma keeps_list_notes : keeps list_notes.
Proof. unfold list_notes. keeps_tac. Qed.

Lemma keeps_get_incoming_links (nm : str) : keeps (get_incoming_links nm).
Proof. unfold get_incoming_links. keeps_tac. Qed.

Lemma keeps_get_outgoing_links (nm : str) : keeps (get_outgoing_links nm).
Proof. unfold get_outgoing_links. keeps_tac. Qed.

Lemma keeps_broken_loop (existing : list str) (ns : list Note) :
  keeps (broken_loop existing ns).
Proof.
  induction ns as [|n ns IH]; cbn [broken_loop]; [apply keeps_ret|].
  apply keeps_bind; [apply keeps_get_outgoing_links | intros ts].
  apply keeps_bind; [exact IH | intros rest]. apply keeps_ret.
Qed.

(** Everything after the last write of a writing operation: the rebuild,
    then steps that change nothing. *)
Ltac fresh_step :=
  first
    [ apply ends_fresh_refresh | apply ends_fresh_raise
    | apply ends_fresh_then; [apply ends_fresh_refresh | intro; keeps_tac]
    | apply ends_fresh_after; intro
    | match goal with
      | |- ends_fresh (if ?b then _ else _) => destruct b
      | |- ends_fresh (match ?x with _ => _ end) => destruct x
      | |- ends_fresh (let (_, _) := ?x in _) => destruct x
      end ].

Ltac fresh_tac := repeat fresh_step.

Lemma ends_fresh_checked_write (note : Note) (new_body : str) :
  ends_fresh (checked_write note new_body).
Proof. unfold checked_write. fresh_tac. Qed.

Lemma keeps_delete (nm : str) (d : bool) : keeps (delete nm d).
Proof.
  unfold delete, _find_files_with_link.
  apply keeps_bind; [apply keeps_get_note | intros note].
  apply keeps_bind; [apply keeps_get_incoming_links | intros fu].
  apply keeps_bind; [|intros _; apply keeps_ret].
  destruct d; cbn [negb]; [apply keeps_ret|].
  apply keeps_of_ends_fresh. fresh_tac.
Qed.

Lemma keeps_rename (o n : str) (d : bool) : keeps (rename o n d).
Proof.
  unfold rename, _find_files_with_link.
  apply keeps_bind; [apply keeps_lift | intros _].
  apply keeps_bind; [apply keeps_get_note | intros note].
  apply keeps_bind; [apply keeps_exists | intros there].
  destruct there; [apply keeps_raise|].
  apply keeps_bind; [apply keeps_get_incoming_links | intros fu].
  apply keeps_bind; [|intros _; apply keeps_ret].
  destruct d; cbn [negb]; [apply keeps_ret|].
  apply keeps_of_ends_fresh. fresh_tac.
Qed.

Lemma keeps_batch_rename (rs : list (str * str)) (d : bool) :
  keeps (batch_rename rs d).
Proof.
  induction rs as [|[o n] rs IH]; cbn [batch_rename]; [apply keeps_ret|].
  apply keeps_bind; [apply keeps_rename | intros r].
  apply keeps_bind; [exact IH | intros rs']. apply keeps_ret.
Qed.

Lemma keeps_batch_delete (ns : list str) (d : bool) :
  keeps (batch_delete ns d).
Proof.
  induction ns as [|n ns IH]; cbn [batch_delete]; [apply keeps_ret|].
  apply keeps_bind; [apply keeps_delete | intros r].
  apply keeps_bind; [exact IH | intros rs']. apply keeps_ret.
Qed.

Lemma keeps_void (A : Type) (m : M A) : keeps m -> keeps (m ;;; ret tt).
Proof. intros Hm. apply keeps_bind; [exact Hm | intros _; apply keeps_ret]. Qed.

(** X7: the cached index follows the files.  From a vault whose cached
    index, if any, is the index of its files, every operation that returns
    normally leaves a vault of which the same holds: each writing
    operation rebuilds the index after its last write, and a read-only one
    changes the cache only by rebuilding it. *)
Theorem operations_keep_cache_coherent (c : call) (v v' : Vault) (r : unit) :
  coherent v -> run c v = (inr r, v') -> coherent v'.
Proof.
  assert (Hk : keeps (run c)).
  { destruct c; unfold run, void; try apply keeps_void.
    - apply keeps_of_ends_fresh. unfold create. fresh_tac.
    - unfold read, resolve_path. keeps_tac.
    - apply keeps_of_ends_fresh. unfold append. fresh_tac.
    - apply keeps_of_ends_fresh. unfold update.
      apply ends_fresh_after. intro. apply ends_fresh_checked_write.
    - apply keeps_delete.
    - apply keeps_rename.
    - unfold frontmatter_get. keeps_tac.
    - apply keeps_of_ends_fresh. unfold frontmatter_set. fresh_tac.
    - unfold search. apply keeps_bind; [apply keeps_list_notes | intro].
      apply keeps_ret.
    - unfold links.
      apply keeps_bind; [apply keeps_get_note | intros _].
      apply keeps_bind;
        [destruct direction;
         first [apply keeps_get_outgoing_links | apply keeps_ret] | intro].
      apply keeps_bind;
        [destruct direction;
         first [apply keeps_get_incoming_links | apply keeps_ret] | intro].
      apply keeps_ret.
    - unfold find_broken_links.
      apply keeps_bind; [apply keeps_list_notes | intro].
      apply keeps_bind; [apply keeps_list_notes | intro].
      apply keeps_broken_loop.
    - apply keeps_batch_rename.
    - apply keeps_batch_delete.
    - apply keeps_of_ends_fresh. unfold replace.
      apply ends_fresh_after. intros note.
      destruct (negb _); [apply ends_fresh_raise|].
      destruct replace_all_; fresh_tac.
    - unfold insert.
      destruct before, after; try apply keeps_raise;
        apply keeps_of_ends_fresh;
        (apply ends_fresh_after; intros note);
        destruct (match_index _ 0 _); fresh_tac.
    - unfold read_section. keeps_tac.
    - apply keeps_of_ends_fresh. unfold append_section.
      apply ends_fresh_after. intro. apply ends_fresh_after. intro.
      apply ends_fresh_checked_write.
    - apply keeps_get_headings.
    - apply keeps_of_ends_fresh. unfold update_section.
      apply ends_fresh_after. intro. apply ends_fresh_after. intro.
      apply ends_fresh_checked_write.
    - apply keeps_of_ends_fresh. unfold delete_section. fresh_tac. }
  intros Hv E. exact (Hk v r v' Hv E).
Qed.

Lemma parse_note_path (p : Path) (raw : str) : path (_parse_note p raw) = p.
Proof.
  unfold _parse_note.
  destruct (frontmatter_match _) as [[y b]|]; reflexivity.
Qed.

(** A name looked up in a freshly built note map gives the note parsed
    from the last scanned file of that stem. *)
Lemma build_notes_get (fs : list (Path * str)) (nm : str) :
  dict_get str_eqb nm (build_notes fs)
  = option_map (fun f => _parse_note (fst f) (snd f)) (last_with_stem nm fs).
Proof.
  unfold build_notes, last_with_stem.
  assert (Hgen : forall l d,
            dict_get str_eqb nm
              (fold_left
                 (fun notes f =>
                    let note := _parse_note (fst f) (snd f) in
                    dict_set str_eqb (name note) note notes) l d)
            = match find (fun f => str_eqb nm (stem (fst f))) (rev l) with
              | Some f => Some (_parse_note (fst f) (snd f))
              | None => dict_get str_eqb nm d
              end).
  { induction l as [|f l IH]; intros d; simpl; [reflexivity|].
    rewrite IH, find_app. simpl.
    destruct (find _ (rev l)); [reflexivity|].
    rewrite (dict_get_set str_eqb str_eqb_eq), parse_note_name.
    destruct (str_eqb nm (stem (fst f))); reflexivity. }
  rewrite Hgen. destruct (find _ _); reflexivity.
Qed.

Lemma get_note_outcome (nm : str) (v : Vault) :
  coherent v ->
  fst (get_note nm v)
  = match last_with_stem nm (files v) with
    | Some f => inr (_parse_note (fst f) (snd f))
    | None => inl NoteNotFoundError
    end.
Proof.
  intros Hv. destruct (index v) as [idx|] eqn:E.
  - rewrite (get_note_cached nm v E), (Hv idx E). cbn [_notes build_index].
    rewrite build_notes_get.
    destruct (last_with_stem nm (files v)); reflexivity.
  - rewrite (get_note_lazy nm v E). cbn [_notes build_index].
    rewrite build_notes_get.
    destruct (last_with_stem nm (files v)); reflexivity.
Qed.


(** A name [validate_name] accepts opens with an allowed character. *)
Lemma valid_name_head (nm : str) :
  validate_name nm = inr tt ->
  exists c t, nm = c :: t /\ allowed_name_char c = true.
Proof.
  unfold validate_name. destruct (has_cyrillic nm); [discriminate|].
  destruct (allowed_name nm) eqn:Ea; [|discriminate]. intros _.
  unfold allowed_name in Ea. apply andb_true_iff in Ea.
  destruct Ea as [Hlen Hall]. apply Nat.leb_le in Hlen.
  destruct (rev nm) as [|c r] eqn:Er.
  - destruct nm as [|x t]; [simpl in Hlen; lia|].
    exists x, t. simpl in Hall. apply andb_true_iff in Hall.
    split; [reflexivity | apply Hall].
  - assert (Hnm : nm = rev r ++ [c])
      by (rewrite <- (rev_involutive nm), Er; reflexivity).
    destruct (N.eqb c NL).
    + destruct (rev r) as [|x t] eqn:Err; [simpl in Hlen; lia|].
      exists x, (t ++ [c]). simpl in Hall. apply andb_true_iff in Hall.
      split; [exact Hnm | apply Hall].
    + destruct nm as [|x t]; [simpl in Hlen; lia|].
      exists x, t. simpl in Hall. apply andb_true_iff in Hall.
      split; [reflexivity | apply Hall].
Qed.

Lemma valid_name_visible (nm : str) :
  ~ In DOT TASKS_EMOJIS -> validate_name nm = inr tt ->
  hidden (nm ++ MD) = false.
Proof.
  intros Hdot Hv. destruct (valid_name_head nm Hv) as [c [t [-> Hc]]].
  unfold hidden, startswith. cbn [app strip_prefix].
  destruct (N.eqb_spec DOT c) as [<-|Hne]; [|reflexivity].
  exfalso. apply Hdot. unfold allowed_name_char in Hc.
  change (existsb (N.eqb DOT) TASKS_EMOJIS = true) in Hc.
  apply existsb_exists in Hc. destruct Hc as [x [Hx Hxe]].
  apply N.eqb_eq in Hxe. subst x. exact Hx.
Qed.

(** A successful [create] in closed form. *)
Lemma create_run (nm content : str) (fm : option FM) (v v' : Vault)
  (res : CreateResult) :
  create nm content fm v = (inr res, v') ->
  let fc := _serialize_note (match fm with Some f => f | None => [] end)
              content in
  validate_name nm = inr tt
  /\ dict_mem path_eqb (note_file nm) (files v) = false
  /\ cr_path res = note_file nm
  /\ files v' = files v ++ [(note_file nm, fc)]
  /\ index v' = Some (build_index (files v')).
Proof.
  intros E fc. unfold create in E. unfold bind, lift in E.
  destruct (validate_name nm) as [e|[]]; [discriminate|].
  destruct (validate_headings content) as [e|[]]; [discriminate|].
  destruct (quiet_validate_wikilinks content v) as [Hf _].
  destruct (_validate_wikilinks content v) as [[e|lw] v1]; [discriminate|].
  simpl in Hf. unfold exists_ in E. rewrite Hf in E.
  destruct (dict_mem path_eqb (note_file nm) (files v)) eqn:Em;
    [discriminate|].
  unfold write_text in E. rewrite refresh_run in E.
  destruct (validate_total fc) as [ws Hws]. fold fc in E. rewrite Hws in E.
  injection E as <- <-. cbn [rebuilt files index cr_path].
  rewrite Hf, (@dict_set_new _ _ path_eqb (note_file nm) fc (files v) Em).
  repeat split; reflexivity.
Qed.


Lemma update_links_in_file_paths (p : Path) (o n : str) (v : Vault) :
  List.map fst (files (snd (_update_links_in_file p o n v)))
  = List.map fst (files v).
Proof.
  unfold _update_links_in_file, bind, read_text.
  destruct (dict_get path_eqb p (files v)) as [c|] eqn:Eg; [|reflexivity].
  destruct (subn_links (List.length c) o n c) as [nc [|cnt]];
    [reflexivity|].
  cbn [write_text ret snd files]. rewrite dict_set_paths.
  unfold dict_mem. rewrite Eg. reflexivity.
Qed.

Lemma update_links_loop_paths (o n : str) (refs : list str) :
  forall v, List.map fst (files (snd (update_links_loop refs o n v)))
            = List.map fst (files v).
Proof.
  induction refs as [|r refs IH]; intros v; cbn [update_links_loop];
    [reflexivity|].
  unfold bind at 1. destruct (quiet_get_note r v) as [Hf _].
  destruct (get_note r v) as [[e|note] v1]; simpl in Hf;
    [simpl; rewrite Hf; reflexivity|].
  unfold bind at 1.
  assert (Hp := update_links_in_file_paths (path note) o n v1).
  destruct (_update_links_in_file (path note) o n v1) as [[e|b] v2];
    simpl in Hp.
  - simpl. rewrite Hp, Hf. reflexivity.
  - rewrite IH, Hp, Hf. reflexivity.
Qed.

(** The rewrite loop followed by the move, when both go through: the paths
    are those from before without the source and with the destination. *)
Lemma cascade_paths (A : Type) (refs : list str) (o n : str)
  (src dst : Path) (res r : A) (v1 v' : Vault) :
  NoDup (List.map fst (files v1)) ->
  match update_links_loop refs o n v1 with
  | (inl e, v2) => (inl e, v2)
  | (inr _, v2) =>
      match rename_file src dst v2 with
      | (inl e, v3) => (inl e, v3)
      | (inr _, v3) => (inr res, rebuilt v3)
      end
  end = (inr r, v') ->
  coherent v'
  /\ (exists c, dict_get path_eqb dst (files v') = Some c)
  /\ forall p, In p (List.map fst (files v'))
               <-> (In p (List.map fst (files v1)) /\ p <> src) \/ p = dst.
Proof.
  intros Hnd. assert (Hp := update_links_loop_paths o n refs v1).
  destruct (update_links_loop refs o n v1) as [[e|u] v2]; [discriminate|].
  simpl in Hp. unfold rename_file.
  destruct (dict_get path_eqb src (files v2)) as [c|]; [|discriminate].
  intros [= _ <-]. split; [apply coherent_rebuilt|].
  cbn [rebuilt files]. split.
  - exists c. rewrite (dict_get_set path_eqb path_eqb_eq).
    rewrite (eqb_same path_eqb path_eqb_eq). reflexivity.
  - intros p. rewrite dict_set_paths. rewrite <- Hp in Hnd.
    destruct (dict_del_paths path_eqb path_eqb_eq src (files v2) Hnd)
      as [_ Hdel].
    destruct (dict_mem path_eqb dst (dict_del path_eqb src (files v2)))
      eqn:Em.
    + rewrite Hdel, Hp. split; [auto|]. intros [Hin| ->]; [exact Hin|].
      apply (dict_get_keys path_eqb path_eqb_eq) in Em.
      apply Hdel in Em. rewrite <- Hp. exact Em.
    + rewrite in_app_iff, Hdel, Hp. simpl. split.
      * intros [Hin|[<-|[]]]; auto.
      * intros [Hin| ->]; auto.
Qed.

(** X10: [delete] then [get_note].  From a coherent vault with distinct
    paths where at most one scanned file has the stem of the name, a
    [delete] that goes through leaves a vault where [get_note] of the name
    raises [NoteNotFoundError], with a file at the trash path the result
    names. *)
Theorem delete_then_lookup (nm : str) (v v' : Vault) (res : DeleteResult) :
  coherent v ->
  NoDup (List.map fst (files v)) ->
  one_file nm (files v) ->
  delete nm false v = (inr res, v') ->
  fst (get_note nm v') = inl NoteNotFoundError
  /\ trash_path res = [TRASH; nm ++ MD]
  /\ exists c, dict_get path_eqb (trash_path res) (files v') = Some c.
Proof.
  intros Hv Hnd Hone E.
  destruct (get_note nm v) as [[e|note] v1] eqn:Eg.
  { rewrite (@delete_lookup_fails _ nm false v v1 e Eg) in E. discriminate. }
  destruct (@get_note_found _ nm v v1 note Eg) as [idx [Eidx _]].
  assert (Hfst := @get_note_outcome nm v Hv).
  destruct (quiet_get_note nm v) as [Hfiles _].
  rewrite Eg in Hfst, Hfiles. simpl in Hfst, Hfiles.
  destruct (last_with_stem nm (files v)) as [f0|] eqn:El; [|discriminate].
  injection Hfst as Hnote.
  apply last_with_stem_some in El. destruct El as [Hf0 Hs0].
  rewrite (@delete_real_run _ nm v v1 note idx Eg Eidx) in E.
  assert (Hres : res = mkDeleteResult nm [TRASH; nm ++ MD]
                         (incoming_of nm (_incoming_links idx)))
    by exact (@cascade_result _ _ _ _ _ _ _ _ _ _ _ E).
  rewrite <- Hfiles in Hnd.
  destruct (@cascade_paths _ _ _ _ _ _ _ _ _ _ Hnd E) as [Hv' [Hc Hpaths]].
  subst res. cbn [trash_path]. split; [|split; [reflexivity | exact Hc]].
  rewrite (@get_note_outcome nm v' Hv').
  rewrite last_with_stem_none; [reflexivity|].
  intros p Hp Hvis Hstem. apply Hpaths in Hp.
  destruct Hp as [[Hp Hne]| ->].
  - rewrite Hfiles in Hp.
    destruct (proj2 (scan_files_path (files v) p) (conj Hp Hvis)) as [c Hpc].
    apply Hne. rewrite Hnote, parse_note_path.
    exact (Hone (p, c) f0 Hpc Hf0 Hstem Hs0).
  - rewrite trash_hidden in Hvis. discriminate.
Qed.

Lemma path_get_in (p : Path) (c : str) (fs : list (Path * str)) :
  dict_get path_eqb p fs = Some c -> In (p, c) fs.
Proof.
  induction fs as [|[q d] fs IH]; simpl; [discriminate|].
  destruct (path_eqb p q) eqn:E.
  - apply path_eqb_eq in E. subst q. intros [= ->]. left. reflexivity.
  - intros Hg. right. exact (IH Hg).
Qed.

Lemma note_file_visible (nm : str) :
  ~ In DOT TASKS_EMOJIS -> validate_name nm = inr tt ->
  visible (note_file nm) = true.
Proof.
  intros Hdot Hv. unfold visible, note_file. cbn [last existsb].
  rewrite endswith_app, (valid_name_visible nm Hdot Hv). reflexivity.
Qed.

(** X11: [rename] then [get_note].  From a coherent vault with distinct
    paths, where at most one scanned file has the stem of the old name and
    none the stem of the new one, and with no dot among the extra name
    characters, a [rename] that goes through leaves a vault where the old
    name is not found and the new name gives a note of that name at the
    new path. *)
Theorem rename_then_lookup (o n : str) (v v' : Vault) (res : RenameResult) :
  ~ In DOT TASKS_EMOJIS ->
  coherent v ->
  NoDup (List.map fst (files v)) ->
  one_file o (files v) ->
  (forall e, In e (_scan_files (files v)) -> stem (fst e) <> n) ->
  rename o n false v = (inr res, v') ->
  fst (get_note o v') = inl NoteNotFoundError
  /\ exists note, fst (get_note n v') = inr note
                  /\ name note = n /\ path note = note_file n.
Proof.
  intros Hdot Hv Hnd Hone Hnew E.
  destruct (validate_name n) as [e0|[]] eqn:En.
  { rewrite (@rename_name_fails _ o n false v e0 En) in E. discriminate. }
  destruct (get_note o v) as [[e|note] v1] eqn:Eg.
  { rewrite (@rename_lookup_fails _ o n false v v1 e En Eg) in E.
    discriminate. }
  destruct (dict_mem path_eqb (note_file n) (files v1)) eqn:Em.
  { rewrite (@rename_collision _ o n false v v1 note En Eg Em) in E.
    discriminate. }
  destruct (@get_note_found _ o v v1 note Eg) as [idx [Eidx _]].
  assert (Hfst := @get_note_outcome o v Hv).
  destruct (quiet_get_note o v) as [Hfiles _].
  rewrite Eg in Hfst, Hfiles. simpl in Hfst, Hfiles.
  destruct (last_with_stem o (files v)) as [f0|] eqn:El; [|discriminate].
  injection Hfst as Hnote.
  apply last_with_stem_some in El. destruct El as [Hf0 Hs0].
  rewrite (@rename_real_run _ o n v v1 note idx En Eg Eidx Em) in E.
  rewrite <- Hfiles in Hnd.
  destruct (@cascade_paths _ _ _ _ _ _ _ _ _ _ Hnd E) as [Hv' [[c Hc] Hpaths]].
  assert (Hold : forall p, In p (List.map fst (files v')) ->
                   visible p = true -> p <> note_file n ->
                   stem p <> n /\ (stem p = o -> False)).
  { intros p Hp Hvis Hne. apply Hpaths in Hp.
    destruct Hp as [[Hp Hsrc]|Hp]; [|contradiction].
    rewrite Hfiles in Hp.
    destruct (proj2 (scan_files_path (files v) p) (conj Hp Hvis)) as [d Hpd].
    split; [exact (Hnew (p, d) Hpd)|].
    intros Hstem. apply Hsrc. rewrite Hnote, parse_note_path.
    exact (Hone (p, d) f0 Hpd Hf0 Hstem Hs0). }
  split.
  - rewrite (@get_note_outcome o v' Hv').
    rewrite last_with_stem_none; [reflexivity|].
    intros p Hp Hvis Hstem.
    destruct (list_eq_dec str_eq_dec p (note_file n)) as [->|Hne].
    + rewrite stem_note_file in Hstem.
      apply (Hnew f0 Hf0). congruence.
    + exact (proj2 (Hold p Hp Hvis Hne) Hstem).
  - rewrite (@get_note_outcome n v' Hv').
    assert (Hin : In (note_file n, c) (rev (_scan_files (files v')))).
    { apply in_rev. rewrite rev_involutive. apply scan_files_in.
      split; [exact (@path_get_in _ _ _ Hc)|].
      exact (@note_file_visible n Hdot En). }
    destruct (@find_first _ (fun f => str_eqb n (stem (fst f))) _ _ Hin)
      as [f Hf].
    { cbn [fst]. rewrite stem_note_file. apply str_eqb_refl. }
    fold (last_with_stem n (files v')) in Hf. rewrite Hf.
    apply last_with_stem_some in Hf. destruct Hf as [Hfin Hfs].
    exists (_parse_note (fst f) (snd f)). split; [reflexivity|].
    rewrite parse_note_name, parse_note_path. split; [exact Hfs|].
    apply scan_files_in in Hfin. destruct Hfin as [Hfin Hfv].
    destruct (list_eq_dec str_eq_dec (fst f) (note_file n)) as [Heq|Hne];
      [exact Heq|].
    exfalso.
    exact (proj1 (Hold (fst f) (in_map fst _ _ Hfin) Hfv Hne) Hfs).
Qed.

(** *** Broken links *)








(** *** Wikilink validation *)

Lemma get_headings_hit (nm : str) (v v1 : Vault) (note : Note) :
  get_note nm v = (inr note, v1) ->
  get_note nm v1 = (inr note, v1)
  /\ get_headings nm v1 = (inr (headings_of_body (body note)), v1).
Proof.
  intros Eg. destruct (@get_note_found _ nm v v1 note Eg) as [idx [E [Hg _]]].
  assert (Hhit := @get_note_hit _ nm v1 idx note E Hg).
  split; [exact Hhit|]. unfold get_headings, bind. rewrite Hhit.
  reflexivity.
Qed.

Lemma validate_links_loop_outcome (ms : list (str * option str)) :
  forall acc v r v',
  validate_links_loop ms acc v = (r, v') ->
  match r with
  | inl e =>
      e = BrokenLinkError
      /\ exists g1 s note,
           In (g1, Some s) ms /\ strip s <> []
           /\ get_note (strip g1) v' = (inr note, v')
           /\ ~ In (strip s) (List.map text (headings_of_body (body note)))
  | inr ws =>
      exists new, ws = acc ++ new /\ Forall link_warning new
                  /\ List.length new <= List.length ms
  end.
Proof.
  induction ms as [|[g1 g2] ms IH]; intros acc v r v';
    cbn [validate_links_loop].
  - intros [= <- <-]. exists []. rewrite app_nil_r. repeat split; auto.
  - unfold bind at 1. unfold catch_not_found.
    destruct (get_note (strip g1) v) as [[e1|note] v1] eqn:Eg.
    + apply get_note_error in Eg. subst e1. intros E.
      apply IH in E. destruct r as [e|ws].
      * destruct E as [He [h1 [s [n [Hin Hrest]]]]].
        split; [exact He|]. exists h1, s, n. split; [right; exact Hin|].
        exact Hrest.
      * destruct E as [new [-> [Hall Hlen]]].
        eexists (_ :: new). rewrite <- app_assoc. split; [reflexivity|].
        split; [constructor; [split; reflexivity | exact Hall]|].
        simpl. lia.
    + destruct (get_headings_hit _ _ Eg) as [Hhit Hheads].
      assert (Hnext : forall E : validate_links_loop ms acc v1 = (r, v'),
                match r with
                | inl e =>
                    e = BrokenLinkError
                    /\ exists h1 s note0,
                         In (h1, Some s) ((g1, g2) :: ms) /\ strip s <> []
                         /\ get_note (strip h1) v' = (inr note0, v')
                         /\ ~ In (strip s)
                              (List.map text (headings_of_body (body note0)))
                | inr ws =>
                    exists new, ws = acc ++ new /\ Forall link_warning new
                                /\ List.length new <= List.length ((g1, g2) :: ms)
                end).
      { intros E. apply IH in E. destruct r as [e|ws].
        - destruct E as [He [h1 [s [n [Hin Hrest]]]]].
          split; [exact He|]. exists h1, s, n. split; [right; exact Hin|].
          exact Hrest.
        - destruct E as [new [-> [Hall Hlen]]].
          exists new. split; [reflexivity|]. split; [exact Hall|].
          simpl. lia. }
      destruct g2 as [s|]; [|exact Hnext].
      destruct (strip s) as [|c l] eqn:Es; [exact Hnext|].
      unfold bind at 1. rewrite Hheads.
      destruct (existsb (str_eqb (c :: l))
                  (List.map text (headings_of_body (body note)))) eqn:Ex;
        [exact Hnext|].
      intros [= <- <-]. split; [reflexivity|].
      exists g1, s, note. split; [left; reflexivity|].
      rewrite Es. split; [discriminate|]. split; [exact Hhit|].
      intros Hin.
      assert (Ex' : existsb (str_eqb (c :: l))
                      (List.map text (headings_of_body (body note))) = true).
      { apply existsb_exists. exists (c :: l).
        split; [exact Hin | apply str_eqb_refl]. }
      congruence.
Qed.


Lemma parse_serialized_note (p : Path) (fm : FM) (bd : str) :
  contains [CR; NL] (_serialize_note fm bd) = false ->
  (fm = [] -> startswith [BOM] bd = false /\ frontmatter_match bd = None) ->
  (fm <> [] -> contains (NL :: lit "---") (dump fm) = false) ->
  _parse_note p (_serialize_note fm bd)
  = mkNote (stem p) p
      match fm with [] => [] | _ :: _ => safe_load (dump fm) end
      bd (_extract_wikilinks bd)
      (_extract_tags
         match fm with [] => [] | _ :: _ => safe_load (dump fm) end).
Proof.
  intros Hcr Hempty Hfull.
  unfold _parse_note. destruct fm as [|kv fm'].
  - destruct (Hempty eq_refl) as [Hbom Hnone]. cbn [_serialize_note] in *.
    rewrite drop_while_head.
    + rewrite (@replace_all_absent [CR; NL] [NL] bd) by
        (discriminate || exact Hcr).
      rewrite Hnone. reflexivity.
    + destruct bd as [|c bd']; [exact I|].
      unfold startswith in Hbom. cbn [strip_prefix] in Hbom.
      destruct (N.eqb BOM c); [discriminate | reflexivity].
  - assert (Hd := Hfull ltac:(discriminate)).
    rewrite drop_while_head by reflexivity.
    rewrite (@replace_all_absent [CR; NL] [NL]
               (_serialize_note (kv :: fm') bd)) by
      (discriminate || exact Hcr).
    cbn [_serialize_note]. unfold frontmatter_match.
    rewrite (app_assoc (lit "---") [NL]), strip_prefix_app.
    change ([NL] ++ lit "---" ++ [NL] ++ bd)
      with (NL :: lit "---" ++ NL :: bd).
    rewrite (@find_close_app _ (NL :: bd) Hd). rewrite N.eqb_refl.
    reflexivity.
Qed.



(** After a write to the file of a note the name resolves to, the name
    gives the note parsed from the new text, and [read] gives the text. *)
Lemma written_note_found (nm fc : str) (v v' : Vault) (f0 : Path * str) :
  NoDup (List.map fst (files v)) ->
  last_with_stem nm (files v) = Some f0 ->
  files v' = dict_set path_eqb (fst f0) fc (files v) ->
  index v' = Some (build_index (files v')) ->
  get_note nm v' = (inr (_parse_note (fst f0) fc), v')
  /\ read nm v' = (inr fc, v')
  /\ forall p, p <> fst f0 ->
               dict_get path_eqb p (files v') = dict_get path_eqb p (files v).
Proof.
  intros Hnd Hl Hfiles Hidx.
  assert (Hget : get_note nm v' = (inr (_parse_note (fst f0) fc), v')).
  { apply (@get_note_hit _ nm v' _ _ Hidx). cbn [_notes build_index].
    rewrite build_notes_get, Hfiles, (@last_with_stem_set nm fc _ f0 Hnd Hl).
    reflexivity. }
  split; [exact Hget|]. split.
  - unfold read, resolve_path, bind. rewrite Hget. unfold ret, read_text.
    rewrite parse_note_path, Hfiles.
    rewrite (dict_get_set path_eqb path_eqb_eq).
    rewrite (eqb_same path_eqb path_eqb_eq). reflexivity.
  - intros p Hp. rewrite Hfiles, (dict_get_set path_eqb path_eqb_eq).
    destruct (path_eqb p (fst f0)) eqn:Ep; [|reflexivity].
    apply path_eqb_eq in Ep. contradiction.
Qed.




(** X20: what [replace] reports.  A [replace] that goes through found
    the note and the old text in its body; it reports the name and at
    least one replacement: exactly one without [replace_all], and with it
    the number of hits, by which the new body differs in length from the
    old one (each hit trades the length of the old text for the length of
    the new one). *)
Theorem replace_reports (nm old_text new_text : str) (all : bool)
  (v v' : Vault) (res : ReplaceResult) :
  replace nm old_text new_text all v = (inr res, v') ->
  exists note,
    fst (get_note nm v) = inr note
    /\ contains old_text (body note) = true
    /\ rp_name res = nm
    /\ 1 <= replacements res
    /\ (all = false -> replacements res = 1)
    /\ (all = true ->
        replacements res = count old_text (body note)
        /\ List.length (replace_all old_text new_text (body note))
           + replacements res * List.length old_text
           = List.length (body note)
             + replacements res * List.length new_text).
Proof.
  intros E. unfold replace in E. unfold bind at 1 in E.
  destruct (get_note nm v) as [[e|note] v1]; [discriminate|].
  exists note. split; [reflexivity|].
  destruct (contains old_text (body note)) eqn:Ec; cbn [negb] in E;
    [|discriminate].
  split; [reflexivity|].
  destruct (@count_replace_fuel old_text new_text
              (S (List.length (body note))) (body note) (Nat.lt_succ_diag_r _))
    as [Hc Hl].
  fold (count old_text (body note)) in Hc, Hl.
  fold (replace_all old_text new_text (body note)) in Hl.
  destruct all; unfold bind, write_text in E; rewrite refresh_run in E;
    injection E as <- _; cbn [rp_name replacements].
  - split; [reflexivity|]. split; [apply Hc; exact Ec|].
    split; [discriminate|]. intros _. split; [reflexivity | exact Hl].
  - split; [reflexivity|]. split; [lia|].
    split; [reflexivity | discriminate].
Qed.

(** X21: the names [validate_name] accepts.  With no newline among the
    extra name characters, a name is accepted exactly when it is a
    nonempty run of allowed characters, none of them Cyrillic, alone or
    followed by one newline; any other name raises [InvalidNameError]. *)
Theorem validate_name_accepts (nm : str) :
  ~ In NL TASKS_EMOJIS ->
  (validate_name nm = inr tt
   <-> exists core,
         (nm = core \/ nm = core ++ [NL]) /\ core <> []
         /\ forall c, In c core ->
                      allowed_name_char c = true /\ is_cyrillic c = false)
  /\ (validate_name nm = inr tt \/ validate_name nm = inl InvalidNameError).
Proof.
  intros Hnl.
  assert (HNL : allowed_name_char NL = false).
  { change (allowed_name_char NL) with (existsb (N.eqb NL) TASKS_EMOJIS).
    destruct (existsb (N.eqb NL) TASKS_EMOJIS) eqn:E; [|reflexivity].
    apply existsb_exists in E. destruct E as [x [Hx Hxe]].
    apply N.eqb_eq in Hxe. subst x. contradiction. }
  split.
  2: { unfold validate_name. destruct (has_cyrillic nm); [auto|].
       destruct (allowed_name nm); auto. }
  unfold validate_name, allowed_name. split.
  - destruct (has_cyrillic nm) eqn:Ecyr; [discriminate|].
    assert (Hcyr : forall c, In c nm -> is_cyrillic c = false).
    { intros c Hc. destruct (is_cyrillic c) eqn:Ec; [|reflexivity].
      assert (has_cyrillic nm = true)
        by (apply existsb_exists; exists c; auto).
      congruence. }
    destruct (rev nm) as [|c r] eqn:Er.
    + destruct nm as [|x t]; [discriminate|].
      apply (f_equal (@List.length char)) in Er.
      rewrite length_rev in Er. discriminate.
    + assert (Hnm : nm = rev r ++ [c])
        by (rewrite <- (rev_involutive nm), Er; reflexivity).
      destruct (N.eqb_spec c NL) as [->|Hne].
      * destruct (_ && _) eqn:Ea; [|discriminate]. intros _.
        apply andb_true_iff in Ea. destruct Ea as [Hlen Hall].
        apply Nat.leb_le in Hlen. exists (rev r).
        split; [right; exact Hnm|]. split.
        -- intros Hr. rewrite Hr in Hlen. simpl in Hlen. lia.
        -- intros x Hx. rewrite forallb_forall in Hall.
           split; [exact (Hall x Hx)|]. apply Hcyr. rewrite Hnm.
           apply in_or_app. left. exact Hx.
      * destruct (_ && _) eqn:Ea; [|discriminate]. intros _.
        apply andb_true_iff in Ea. destruct Ea as [Hlen Hall].
        apply Nat.leb_le in Hlen. exists nm.
        split; [left; reflexivity|]. split.
        -- intros Hr. rewrite Hr in Hlen. simpl in Hlen. lia.
        -- intros x Hx. rewrite forallb_forall in Hall.
           split; [exact (Hall x Hx) | exact (Hcyr x Hx)].
  - intros [core [Hshape [Hne Hall]]].
    assert (Hcore : forallb allowed_name_char core = true)
      by (apply forallb_forall; intros x Hx; apply (Hall x Hx)).
    assert (Hlen : (1 <=? List.length core) = true).
    { apply Nat.leb_le. destruct core; [congruence | simpl; lia]. }
    assert (Hcyr : has_cyrillic nm = false).
    { destruct (has_cyrillic nm) eqn:E; [|reflexivity].
      apply existsb_exists in E. destruct E as [x [Hx Hxc]].
      destruct Hshape as [->| ->].
      - rewrite (proj2 (Hall x Hx)) in Hxc. discriminate.
      - apply in_app_or in Hx. destruct Hx as [Hx|[<-|[]]].
        + rewrite (proj2 (Hall x Hx)) in Hxc. discriminate.
        + discriminate. }
    rewrite Hcyr. destruct Hshape as [->| ->].
    + destruct (rev core) as [|c r] eqn:Er.
      * rewrite Hlen, Hcore. reflexivity.
      * destruct (N.eqb_spec c NL) as [->|Hc].
        -- exfalso.
           assert (Hin : In NL core).
           { apply in_rev. rewrite Er. left. reflexivity. }
           rewrite (proj1 (Hall NL Hin)) in HNL. discriminate.
        -- rewrite Hlen, Hcore. reflexivity.
    + rewrite rev_app_distr. cbn [rev app]. rewrite N.eqb_refl.
      rewrite rev_involutive, Hlen, Hcore. reflexivity.
Qed.

(** *** Search by several tags *)






(** *** Search by exact name *)



(** *** Insert *)

Lemma match_index_spec (pat : str) (lines : list str) :
  forall k,
  match match_index pat k lines with
  | Some i =>
      k <= i /\ i - k < List.length lines
      /\ strip (nth (i - k) lines []) = strip pat
      /\ forall j, j < i - k -> strip (nth j lines []) <> strip pat
  | None => forall l, In l lines -> strip l <> strip pat
  end.
Proof.
  induction lines as [|l lines IH]; intros k; cbn [match_index].
  - intros l [].
  - destruct (str_eqb (strip l) (strip pat)) eqn:E.
    + apply str_eqb_eq in E. rewrite Nat.sub_diag. simpl.
      repeat split; [lia | lia | exact E | intros j Hj; lia].
    + apply str_eqb_neq in E. specialize (IH (S k)).
      destruct (match_index pat (S k) lines) as [i|].
      * destruct IH as [Hle [Hlt [Hat Hbefore]]].
        replace (i - k) with (S (i - S k)) by lia. simpl.
        repeat split; [lia | lia | exact Hat |].
        intros [|j] Hj; [exact E | apply Hbefore; lia].
      * intros l' [<-|Hin]; [exact E | exact (IH l' Hin)].
Qed.

(** X24: where [insert] puts the text.  Without exactly one of [before]
    and [after] the call raises [ValueError] and leaves the vault as it
    is.  When it goes through, the note was found, some line of its body
    is strip-equal to the pattern, and the file of the note holds, under
    the note's front matter, the old lines with the text put right before
    the first such line, or right after it. *)
Theorem insert_places (nm text_ : str) (before after : option str)
  (v : Vault) :
  (before = None /\ after = None \/ before <> None /\ after <> None ->
   insert nm text_ before after v = (inl ValueError, v))
  /\ forall res v',
       insert nm text_ before after v = (inr res, v') ->
       exists note v1 pat i,
         get_note nm v = (inr note, v1)
         /\ (before = Some pat /\ after = None
             \/ before = None /\ after = Some pat)
         /\ i < List.length (split_nl (body note))
         /\ strip (nth i (split_nl (body note)) []) = strip pat
         /\ (forall j, j < i ->
               strip (nth j (split_nl (body note)) []) <> strip pat)
         /\ let k := match before with Some _ => i | None => S i end in
            files v'
            = dict_set path_eqb (path note)
                (_serialize_note (frontmatter note)
                   (join_nl (firstn k (split_nl (body note))
                             ++ text_ :: skipn k (split_nl (body note)))))
                (files v1).
Proof.
  split.
  - intros [[-> ->]|[Hb Ha]]; [reflexivity|].
    destruct before; [|congruence]. destruct after; [|congruence].
    reflexivity.
  - intros res v' E.
    assert (Hgen : forall pat,
              (before = Some pat /\ after = None
               \/ before = None /\ after = Some pat) ->
              exists note v1 i,
                get_note nm v = (inr note, v1)
                /\ i < List.length (split_nl (body note))
                /\ strip (nth i (split_nl (body note)) []) = strip pat
                /\ (forall j, j < i ->
                      strip (nth j (split_nl (body note)) []) <> strip pat)
                /\ let k := match before with Some _ => i | None => S i end in
                   files v'
                   = dict_set path_eqb (path note)
                       (_serialize_note (frontmatter note)
                          (join_nl (firstn k (split_nl (body note))
                                    ++ text_ :: skipn k (split_nl (body note)))))
                       (files v1)).
    { intros pat Hpat.
      assert (E' : (note <- get_note nm ;;
                    match match_index pat 0 (split_nl (body note)) with
                    | None => raise TextNotFoundError
                    | Some i =>
                        let '(lines', pos) :=
                          match before with
                          | Some _ =>
                              (list_insert i text_ (split_nl (body note)),
                               lit "before")
                          | None =>
                              (list_insert (S i) text_ (split_nl (body note)),
                               lit "after")
                          end in
                        write_text (path note)
                          (_serialize_note (frontmatter note) (join_nl lines')) ;;;
                        refresh ;;;
                        ret (mkInsertResult nm pos pat)
                    end) v = (inr res, v')).
      { destruct Hpat as [[-> ->]|[-> ->]]; exact E. }
      clear E. unfold bind at 1 in E'.
      destruct (get_note nm v) as [[e|note] v1]; [discriminate|].
      exists note, v1.
      assert (Hm := match_index_spec pat (split_nl (body note)) 0).
      destruct (match_index pat 0 (split_nl (body note))) as [i|];
        [|discriminate].
      rewrite Nat.sub_0_r in Hm. destruct Hm as [_ [Hlt [Hat Hbefore]]].
      exists i. split; [reflexivity|]. split; [exact Hlt|].
      split; [exact Hat|]. split; [exact Hbefore|].
      destruct before; unfold bind, write_text in E';
        rewrite refresh_run in E'; injection E' as _ <-; reflexivity. }
    destruct before as [b|], after as [a|]; try discriminate E.
    + destruct (Hgen b (or_introl (conj eq_refl eq_refl)))
        as [note [v1 [i Hrest]]].
      exists note, v1, b, i.
      destruct Hrest as [H1 [H2 [H3 [H4 H5]]]]. repeat split; auto.
    + destruct (Hgen a (or_intror (conj eq_refl eq_refl)))
        as [note [v1 [i Hrest]]].
      exists note, v1, a, i.
      destruct Hrest as [H1 [H2 [H3 [H4 H5]]]]. repeat split; auto.
Qed.

(** X25: [frontmatter_set] then [frontmatter_get].  From a coherent vault
    with distinct paths, let the note be found, and let its front matter
    with the key set be one that the YAML codec reads back as dumped and
    that parses back as written over the note's body.  Then a
    [frontmatter_set] that goes through leaves a vault where
    [frontmatter_get] gives that front matter, holding the value under the
    key and what the note had under every other key, and the note has the
    body it had. *)
Theorem frontmatter_set_then_get (nm key : str) (value : yaml)
  (v v' : Vault) (note : Note) :
  coherent v ->
  NoDup (List.map fst (files v)) ->
  fst (get_note nm v) = inr note ->
  let fm' := dict_set str_eqb key value (frontmatter note) in
  parses_back fm' (body note) ->
  safe_load (dump fm') = fm' ->
  frontmatter_set nm key value v = (inr tt, v') ->
  fst (frontmatter_get nm v') = inr fm'
  /\ dict_get str_eqb key fm' = Some value
  /\ (forall k, k <> key ->
        dict_get str_eqb k fm' = dict_get str_eqb k (frontmatter note))
  /\ exists note', get_note nm v' = (inr note', v')
                   /\ body note' = body note /\ path note' = path note.
Proof.
  intros Hv Hnd Hnote fm'.
  assert (Hdef : fm' = dict_set str_eqb key value (frontmatter note))
    by reflexivity.
  clearbody fm'. intros [Hcr [Hempty Hfull]] Hcodec E.
  unfold frontmatter_set in E. unfold bind at 1 in E.
  assert (Hfst := @get_note_outcome nm v Hv).
  destruct (quiet_get_note nm v) as [Hfiles _].
  destruct (get_note nm v) as [[e|note0] v1] eqn:Eg; [discriminate|].
  simpl in Hfst, Hfiles, Hnote. injection Hnote as ->.
  destruct (last_with_stem nm (files v)) as [f0|] eqn:El; [|discriminate].
  injection Hfst as Hnote.
  assert (Hp : path note = fst f0) by (rewrite Hnote; apply parse_note_path).
  unfold bind, write_text in E. rewrite refresh_run in E.
  injection E as Ev'. symmetry in Ev'. rewrite <- Hdef in Ev'.
  assert (Hw : files v'
               = dict_set path_eqb (fst f0) (_serialize_note fm' (body note))
                   (files v)).
  { rewrite Ev'. cbn [rebuilt files]. rewrite Hfiles, Hp. reflexivity. }
  assert (Hidx : index v' = Some (build_index (files v')))
    by (rewrite Ev'; reflexivity).
  destruct (@written_note_found nm _ v v' f0 Hnd El Hw Hidx) as [Hget _].
  rewrite (@parse_serialized_note (fst f0) fm' (body note) Hcr Hempty Hfull)
    in Hget.
  assert (Hne : fm' <> []).
  { rewrite Hdef. destruct (frontmatter note) as [|[k0 y0] fm0]; simpl;
      [discriminate|]. destruct (str_eqb key k0); discriminate. }
  assert (Hget' : get_note nm v'
                  = (inr (mkNote (stem (fst f0)) (fst f0) fm' (body note)
                            (_extract_wikilinks (body note))
                            (_extract_tags fm')), v')).
  { rewrite Hget. destruct fm' as [|kv fm0]; [congruence|].
    cbv iota. rewrite Hcodec. reflexivity. }
  clear Hget. rename Hget' into Hget.
  split; [|split; [|split]].
  - unfold frontmatter_get, bind. rewrite Hget. reflexivity.
  - rewrite Hdef, (dict_get_set str_eqb str_eqb_eq), str_eqb_refl.
    reflexivity.
  - intros k Hk. rewrite Hdef, (dict_get_set str_eqb str_eqb_eq).
    destruct (str_eqb k key) eqn:Ek; [|reflexivity].
    apply str_eqb_eq in Ek. contradiction.
  - eexists. split; [exact Hget|]. cbn [body path]. auto.
Qed.

(** *** Batches *)

Lemma bind_result (A B : Type) (m : M A) (f : A -> M B) (v v' : Vault)
  (r : B) :
  bind m f v = (inr r, v') ->
  exists a v1, m v = (inr a, v1) /\ f a v1 = (inr r, v').
Proof.
  unfold bind. destruct (m v) as [[e|a] v1]; [discriminate|].
  intros E. exists a, v1. auto.
Qed.

Lemma delete_result (nm : str) (d : bool) (v v' : Vault) (r : DeleteResult) :
  delete nm d v = (inr r, v') ->
  dl_name r = nm /\ trash_path r = [TRASH; nm ++ MD].
Proof.
  unfold delete. intros E.
  apply bind_result in E. destruct E as [note [v1 [_ E]]].
  apply bind_result in E. destruct E as [fu [v2 [_ E]]].
  apply bind_result in E. destruct E as [u [v3 [_ E]]].
  injection E as <- _. split; reflexivity.
Qed.

Lemma rename_result (o n : str) (d : bool) (v v' : Vault) (r : RenameResult) :
  rename o n d v = (inr r, v') ->
  old_name r = o /\ new_name r = n /\ validate_name n = inr tt.
Proof.
  unfold rename. intros E.
  apply bind_result in E. destruct E as [[] [v0 [Hn E]]].
  apply bind_result in E. destruct E as [note [v1 [_ E]]].
  apply bind_result in E. destruct E as [there [v2 [_ E]]].
  destruct there; [discriminate|].
  apply bind_result in E. destruct E as [fu [v3 [_ E]]].
  apply bind_result in E. destruct E as [u [v4 [_ E]]].
  injection E as <- _. unfold lift in Hn. injection Hn as Hn _.
  split; [reflexivity|]. split; [reflexivity | exact Hn].
Qed.

Lemma quiet_delete_dry (nm : str) : quiet (delete nm true).
Proof.
  unfold delete, _find_files_with_link. cbn [negb].
  apply quiet_bind; [apply quiet_get_note | intros note].
  apply quiet_bind; [apply quiet_get_incoming_links | intros fu].
  apply quiet_bind; [apply quiet_ret | intros _; apply quiet_ret].
Qed.

Lemma quiet_rename_dry (o n : str) : quiet (rename o n true).
Proof.
  unfold rename, _find_files_with_link. cbn [negb].
  apply quiet_bind; [apply quiet_lift | intros _].
  apply quiet_bind; [apply quiet_get_note | intros note].
  apply quiet_bind; [apply quiet_exists | intros there].
  destruct there; [apply quiet_raise|].
  apply quiet_bind; [apply quiet_get_incoming_links | intros fu].
  apply quiet_bind; [apply quiet_ret | intros _; apply quiet_ret].
Qed.

(** X26: batch results line up with the batch.  A [batch_delete] that
    returns gives one result per name, in order, each naming its note and
    the trash path of that note; a [batch_rename] that returns gives one
    result per pair, in order, each with the old and the new name of its
    pair, and every new name was a valid name.  With [dry_run] on, neither
    changes a file. *)
Theorem batch_results_line_up (d : bool) (v v' : Vault) :
  (forall names rs,
     batch_delete names d v = (inr rs, v') ->
     List.map dl_name rs = names
     /\ List.map trash_path rs
        = List.map (fun nm => [TRASH; nm ++ MD]) names)
  /\ (forall renames rs,
        batch_rename renames d v = (inr rs, v') ->
        List.map (fun r => (old_name r, new_name r)) rs = renames
        /\ Forall (fun r => validate_name (new_name r) = inr tt) rs)
  /\ (forall names, files (snd (batch_delete names true v)) = files v)
  /\ (forall renames, files (snd (batch_rename renames true v)) = files v).
Proof.
  split; [|split; [|split]].
  - intros names. revert v. induction names as [|nm names IH];
      intros v rs; cbn [batch_delete].
    + intros [= <- _]. split; reflexivity.
    + unfold bind at 1.
      destruct (delete nm d v) as [[e|r] v1] eqn:Ed; [discriminate|].
      unfold bind at 1.
      destruct (batch_delete names d v1) as [[e|rs'] v2] eqn:Eb;
        [discriminate|].
      intros [= <- <-]. destruct (delete_result _ _ _ Ed) as [Hn Ht].
      destruct (IH v1 rs' Eb) as [IH1 IH2].
      cbn [List.map]. rewrite Hn, Ht, IH1, IH2. split; reflexivity.
  - intros renames. revert v. induction renames as [|[o n] renames IH];
      intros v rs; cbn [batch_rename].
    + intros [= <- _]. split; [reflexivity | constructor].
    + unfold bind at 1.
      destruct (rename o n d v) as [[e|r] v1] eqn:Er; [discriminate|].
      unfold bind at 1.
      destruct (batch_rename renames d v1) as [[e|rs'] v2] eqn:Eb;
        [discriminate|].
      intros [= <- <-]. destruct (rename_result _ _ _ _ Er) as [Ho [Hn Hv]].
      destruct (IH v1 rs' Eb) as [IH1 IH2].
      cbn [List.map]. rewrite Ho, Hn, IH1. split; [reflexivity|].
      constructor; [rewrite Hn; exact Hv | exact IH2].
  - intros names. revert v. induction names as [|nm names IH]; intros v;
      cbn [batch_delete]; [reflexivity|].
    unfold bind at 1.
    assert (Hd : files (snd (delete nm true v)) = files v)
      by apply (quiet_delete_dry nm v).
    destruct (delete nm true v) as [[e|r] v1]; simpl in Hd; [exact Hd|].
    unfold bind at 1. specialize (IH v1).
    destruct (batch_delete names true v1) as [[e|rs'] v2]; simpl in *;
      congruence.
  - intros renames. revert v.
    induction renames as [|[o n] renames IH]; intros v;
      cbn [batch_rename]; [reflexivity|].
    unfold bind at 1.
    assert (Hr : files (snd (rename o n true v)) = files v)
      by apply (quiet_rename_dry o n v).
    destruct (rename o n true v) as [[e|r] v1]; simpl in Hr; [exact Hr|].
    unfold bind at 1. specialize (IH v1).
    destruct (batch_rename renames true v1) as [[e|rs'] v2]; simpl in *;
      congruence.
Qed.

(** X28: a note cannot be created twice.  After a [create] that went
    through, every further [create] of the same name, whatever its content
    and front matter, raises [NoteAlreadyExistsError] unless a content
    check raises first, and leaves the files as they are. *)
Theorem create_twice (nm c1 c2 : str) (fm1 fm2 : option FM) (v v' : Vault)
  (res : CreateResult) :
  create nm c1 fm1 v = (inr res, v') ->
  files (snd (create nm c2 fm2 v')) = files v'
  /\ exists e,
       fst (create nm c2 fm2 v') = inl e
       /\ (e = NoteAlreadyExistsError
           \/ e = InvalidHeadingError \/ e = BrokenLinkError)
       /\ (validate_headings c2 = inr tt ->
           (exists ws v1, _validate_wikilinks c2 v' = (inr ws, v1)) ->
           e = NoteAlreadyExistsError).
Proof.
  intros E.
  destruct (@create_run _ _ _ _ _ _ E) as [Hname [_ [_ [Hfiles _]]]].
  assert (Hmem : dict_mem path_eqb (note_file nm) (files v') = true).
  { apply (dict_get_keys path_eqb path_eqb_eq). rewrite Hfiles, map_app.
    apply in_or_app. right. left. reflexivity. }
  destruct (create nm c2 fm2 v') as [r v''] eqn:E2. cbn [fst snd].
  unfold create in E2. unfold bind at 1, lift at 1 in E2.
  rewrite Hname in E2. unfold bind at 1, lift at 1 in E2.
  destruct (validate_headings_spec c2) as [[Eh _]|[Eh _]]; rewrite Eh in *.
  { injection E2 as <- <-. split; [reflexivity|].
    exists InvalidHeadingError.
    split; [reflexivity|]. split; [auto|]. discriminate. }
  unfold bind at 1 in E2.
  destruct (quiet_validate_wikilinks c2 v') as [Hf _].
  assert (Hout := @validate_links_loop_outcome
                    (finditer_section_links (List.length c2) c2) [] v').
  fold (_validate_wikilinks c2) in Hout.
  destruct (_validate_wikilinks c2 v') as [[e|lw] v1]; simpl in Hf.
  - specialize (Hout (inl e) v1 eq_refl). destruct Hout as [-> _].
    injection E2 as <- <-.
    split; [exact Hf|]. exists BrokenLinkError.
    split; [reflexivity|]. split; [auto|].
    intros _ [ws [v2 Hw]]. discriminate.
  - unfold bind at 1, exists_ at 1 in E2. rewrite Hf, Hmem in E2.
    injection E2 as <- <-.
    split; [exact Hf|]. exists NoteAlreadyExistsError.
    split; [reflexivity|]. split; [auto|]. reflexivity.
Qed.

(** *** What the index lists *)



(** *** Links in both directions *)



End EngineLaws.


(** ** Closed instances of the further properties *)

Lemma plain_no_dot : ~ In DOT (@TASKS_EMOJIS plain).
Proof.
  intros Hin. cbn [TASKS_EMOJIS plain] in Hin.
  repeat (destruct Hin as [Hin|Hin]; [discriminate|]). destruct Hin.
Qed.

Lemma operations_keep_cache_coherent_witness :
  let v := mkVault [([lit "N.md"], lit "text")] None 0 in
  exists v', @run plain (Update (lit "N") (lit "new")) v = (inr tt, v')
             /\ index v' = Some (@build_index plain (files v')).
Proof.
  cbv zeta.
  destruct (@run plain (Update (lit "N") (lit "new"))
              (mkVault [([lit "N.md"], lit "text")] None 0))
    as [[e|[]] v'] eqn:E; [vm_compute in E; discriminate|].
  exists v'. split; [reflexivity|].
  assert (Hv : @coherent plain (mkVault [([lit "N.md"], lit "text")] None 0))
    by (intros idx Ei; discriminate).
  assert (Hc := @operations_keep_cache_coherent plain _ _ _ _ Hv E).
  destruct (index v') as [idx|] eqn:Ei.
  - f_equal. exact (Hc idx Ei).
  - vm_compute in E. injection E as <-. discriminate.
Defined.



Lemma delete_then_lookup_witness :
  let v := mkVault [([lit "A.md"], lit "x")] None 0 in
  fst (@get_note plain (lit "A") (snd (@delete plain (lit "A") false v)))
  = inl NoteNotFoundError.
Proof.
  cbv zeta.
  destruct (@delete plain (lit "A") false
              (mkVault [([lit "A.md"], lit "x")] None 0))
    as [[e|res] v'] eqn:E; [vm_compute in E; discriminate|].
  cbn [snd].
  assert (Hv : @coherent plain (mkVault [([lit "A.md"], lit "x")] None 0))
    by (intros idx Ei; discriminate).
  refine (proj1 (@delete_then_lookup plain _ _ _ res Hv _ _ E)).
  - constructor; [intros [] | constructor].
  - intros e1 e2 H1 H2 _ _. vm_compute in H1, H2.
    destruct H1 as [<-|[]]. destruct H2 as [<-|[]]. reflexivity.
Defined.

Lemma rename_then_lookup_witness :
  let v := mkVault [([lit "A.md"], lit "x")] None 0 in
  fst (@get_note plain (lit "A")
         (snd (@rename plain (lit "A") (lit "B") false v)))
  = inl NoteNotFoundError.
Proof.
  cbv zeta.
  destruct (@rename plain (lit "A") (lit "B") false
              (mkVault [([lit "A.md"], lit "x")] None 0))
    as [[e|res] v'] eqn:E; [vm_compute in E; discriminate|].
  cbn [snd].
  assert (Hv : @coherent plain (mkVault [([lit "A.md"], lit "x")] None 0))
    by (intros idx Ei; discriminate).
  refine (proj1 (@rename_then_lookup plain _ _ _ _ res plain_no_dot Hv
                   _ _ _ E)).
  - constructor; [intros [] | constructor].
  - intros e1 e2 H1 H2 _ _. vm_compute in H1, H2.
    destruct H1 as [<-|[]]. destruct H2 as [<-|[]]. reflexivity.
  - intros e He Hs. vm_compute in He. destruct He as [<-|[]].
    vm_compute in Hs. discriminate.
Defined.


Lemma plain_no_nl : ~ In NL (@TASKS_EMOJIS plain).
Proof.
  intros Hin. cbn [TASKS_EMOJIS plain] in Hin.
  repeat (destruct Hin as [Hin|Hin]; [discriminate|]). destruct Hin.
Qed.


Lemma extract_wikilinks_sound_witness :
  contains (plain_link (lit "B")) (lit "see [[B]] and [[B|b]]") = true.
Proof.
  apply (@extract_wikilinks_sound (lit "see [[B]] and [[B|b]]") (lit "B")).
  vm_compute. left. reflexivity.
Defined.






Lemma replace_reports_witness :
  let v := mkVault [([lit "N.md"], lit "a b a")] None 0 in
  exists res v', @replace plain (lit "N") (lit "a") (lit "c") true v
                 = (inr res, v')
                 /\ 1 <= replacements res.
Proof.
  cbv zeta.
  destruct (@replace plain (lit "N") (lit "a") (lit "c") true
              (mkVault [([lit "N.md"], lit "a b a")] None 0))
    as [[e|res] v'] eqn:E; [vm_compute in E; discriminate|].
  exists res, v'. split; [reflexivity|].
  destruct (@replace_reports plain _ _ _ _ _ _ _ E)
    as [note [_ [_ [_ [Hone _]]]]].
  exact Hone.
Defined.

Lemma validate_name_accepts_witness :
  @validate_name plain (lit "My note") = inr tt.
Proof.
  apply (proj1 (@validate_name_accepts plain (lit "My note") plain_no_nl)).
  exists (lit "My note"). split; [left; reflexivity|].
  split; [discriminate|].
  intros c Hin.
  repeat (destruct Hin as [<-|Hin]; [split; reflexivity|]). destruct Hin.
Defined.



Lemma insert_places_witness :
  let v := mkVault [([lit "N.md"], lit "x")] None 0 in
  @insert plain (lit "N") (lit "t") None None v = (inl ValueError, v).
Proof.
  cbv zeta.
  apply (proj1 (@insert_places plain (lit "N") (lit "t") None None
                  (mkVault [([lit "N.md"], lit "x")] None 0))).
  left. split; reflexivity.
Defined.

Lemma frontmatter_set_then_get_witness :
  let v := mkVault [([lit "N.md"], lit "text")] None 0 in
  fst (@frontmatter_get one_key (lit "N")
         (snd (@frontmatter_set one_key (lit "N") (lit "k") YNull v)))
  = inr [(lit "k", YNull)].
Proof.
  cbv zeta.
  set (v := mkVault [([lit "N.md"], lit "text")] None 0).
  destruct (@frontmatter_set one_key (lit "N") (lit "k") YNull v)
    as [[e|[]] v'] eqn:E; [vm_compute in E; discriminate|].
  cbn [snd].
  assert (Hv : @coherent one_key v) by (intros idx Ei; discriminate).
  assert (Hnd : NoDup (List.map fst (files v)))
    by (constructor; [intros [] | constructor]).
  refine (proj1 (@frontmatter_set_then_get one_key _ _ _ v v'
                   (@_parse_note one_key [lit "N.md"] (lit "text"))
                   Hv Hnd _ _ _ E)).
  - reflexivity.
  - split; [reflexivity|]. split.
    + intros Hfm. discriminate Hfm.
    + intros _. reflexivity.
  - reflexivity.
Defined.

Lemma batch_results_line_up_witness :
  let v := mkVault [([lit "A.md"], lit "x")] None 0 in
  exists rs v', @batch_delete plain [lit "A"] true v = (inr rs, v')
                /\ List.map dl_name rs = [lit "A"].
Proof.
  cbv zeta.
  destruct (@batch_delete plain [lit "A"] true
              (mkVault [([lit "A.md"], lit "x")] None 0))
    as [[e|rs] v'] eqn:E; [vm_compute in E; discriminate|].
  exists rs, v'. split; [reflexivity|].
  exact (proj1 (proj1 (@batch_results_line_up plain true _ v') _ _ E)).
Defined.

Lemma headings_are_selectable_witness :
  exists content,
    read_section_body (join_nl [lit "# A"; lit "text"]) (lit "A")
    = inr content.
Proof.
  apply (@headings_are_selectable (join_nl [lit "# A"; lit "text"])
           (mkHeading 1 (lit "A"))).
  - vm_compute. left. reflexivity.
  - reflexivity.
Defined.

Lemma create_twice_witness :
  let v := mkVault [] None 0 in
  fst (@create plain (lit "N") (lit "b") None
         (snd (@create plain (lit "N") (lit "a") None v)))
  = inl NoteAlreadyExistsError.
Proof.
  cbv zeta.
  destruct (@create plain (lit "N") (lit "a") None (mkVault [] None 0))
    as [[e|res] v'] eqn:E; [vm_compute in E; discriminate|].
  cbn [snd].
  destruct (@create_twice plain _ _ (lit "b") _ None _ _ _ E)
    as [_ [e [He [_ Hwhich]]]].
  rewrite He. f_equal. apply Hwhich; [reflexivity|].
  exists [], v'. reflexivity.
Defined.



